(** * Floor-plan geometry engine: the 2D editor and the 3D projector

    A shallow embedding of [FloorPlanEditor] (the normalizer effect, the
    stage auto-scaling effect, [calculatePolygonArea], [handleDragVertex])
    and of the room placement of [FloorPlan3D], with the properties of the
    specification stated over it.

    Numbers.  JavaScript numbers are modelled by [JS.num]: the special
    values [NaN], [Infinity], [-Infinity] and the finite values, given by
    their exact rational value.  The propagation of [NaN], division by
    zero, comparisons with [NaN] and truthiness follow ECMAScript.  The
    arithmetic comes in two layers.  [JS.add], [JS.mul], ... compute the
    exact result; the properties that do not depend on rounding (which
    room an edit reaches, what it leaves alone, the fit, the layout of the
    3D scene) are stated over them, with [Math.sqrt] a parameter.
    [Double.add], [Double.mul], ..., [Double.sqrt] round the exact result
    to the nearest binary64 number, ties to even, with overflow to an
    infinity and gradual underflow, as IEEE 754 prescribes; the module
    [Editor64] is the editor's arithmetic on them, and the properties of
    the computed areas and of the synthesized rectangles are stated over
    it.  The sign of zero is not modelled: a zero divisor counts as [+0],
    as the zero of a difference [x - x] is.

    Arrays.  A polygon is a list of slots; a slot is empty where an
    out-of-range write left a hole.  The rooms of a list are distinct
    objects.

    React.  A state setter that receives the previous value keeps the
    state and runs no effect; any other value causes a render, after which
    the effects whose dependencies changed run. *)

From Stdlib Require Import String.
From Stdlib Require Import ZArith QArith Qround Qabs Qminmax Qpower Lqa Lia.
From Stdlib Require Import List Bool.
Import ListNotations.

Open Scope Q_scope.

(** ** JavaScript numbers and values *)

Module JS.

Inductive num : Type :=
| NaN
| PInf
| NInf
| Fin (q : Q).

Definition isNaN (a : num) : bool :=
  match a with NaN => true | _ => false end.

(** Sign of a number that is not [NaN]: [-1], [0] or [1]. *)
Definition sign (a : num) : Z :=
  match a with
  | NaN => 0
  | PInf => 1
  | NInf => (-1)
  | Fin q => Z.sgn (Qnum q)
  end.

Definition neg (a : num) : num :=
  match a with
  | NaN => NaN
  | PInf => NInf
  | NInf => PInf
  | Fin q => Fin (- q)
  end.

(** [a + b] *)
Definition add (a b : num) : num :=
  match a, b with
  | Fin x, Fin y => Fin (x + y)
  | NaN, _ | _, NaN => NaN
  | PInf, NInf | NInf, PInf => NaN
  | PInf, _ | _, PInf => PInf
  | NInf, _ | _, NInf => NInf
  end.

(** [a - b] *)
Definition sub (a b : num) : num :=
  match a, b with
  | Fin x, Fin y => Fin (x - y)
  | _, _ => add a (neg b)
  end.

Definition of_sign (s : Z) : num :=
  match s with
  | Z0 => NaN
  | Zpos _ => PInf
  | Zneg _ => NInf
  end.

(** [a * b]; zero times an infinity is [NaN]. *)
Definition mul (a b : num) : num :=
  match a, b with
  | Fin x, Fin y => Fin (x * y)
  | NaN, _ | _, NaN => NaN
  | _, _ => of_sign (sign a * sign b)
  end.

(** [a / b]; a finite value over zero is an infinity of the sign of the
    numerator, zero over zero is [NaN]. *)
Definition div (a b : num) : num :=
  match a, b with
  | NaN, _ | _, NaN => NaN
  | Fin x, Fin y =>
      if Qeq_bool y 0 then of_sign (sign a) else Fin (x / y)
  | Fin _, _ => Fin 0
  | _, Fin y => if Qle_bool 0 y then a else neg a
  | _, _ => NaN
  end.

(** Three-way comparison; [None] when an operand is [NaN]. *)
Definition cmp (a b : num) : option comparison :=
  match a, b with
  | NaN, _ | _, NaN => None
  | Fin x, Fin y => Some (x ?= y)
  | PInf, PInf | NInf, NInf => Some Eq
  | PInf, _ | _, NInf => Some Gt
  | NInf, _ | _, PInf => Some Lt
  end.

(** [a < b] *)
Definition ltb (a b : num) : bool :=
  match cmp a b with Some Lt => true | _ => false end.

(** [a <= b] *)
Definition leb (a b : num) : bool :=
  match cmp a b with Some Lt | Some Eq => true | _ => false end.

(** [a > b] *)
Definition gtb (a b : num) : bool := ltb b a.

(** [a === b] on numbers *)
Definition strict_eq (a b : num) : bool :=
  match cmp a b with Some Eq => true | _ => false end.

(** [Math.abs] *)
Definition abs (a : num) : num :=
  match a with
  | NaN => NaN
  | PInf | NInf => PInf
  | Fin q => Fin (Qabs q)
  end.

(** [Math.round]: the nearest integer, ties towards [+Infinity]. *)
Definition round (a : num) : num :=
  match a with
  | Fin q => Fin (inject_Z (Qfloor (q + (1 # 2))))
  | _ => a
  end.

(** [Math.max(a, b)] *)
Definition max (a b : num) : num :=
  if isNaN a || isNaN b then NaN
  else if ltb a b then b else a.

(** [Math.min(a, b)] and [Math.min(a, b, c)] *)
Definition min (a b : num) : num :=
  if isNaN a || isNaN b then NaN
  else if ltb b a then b else a.

Definition min3 (a b c : num) : num := min (min a b) c.

(** Truthiness of a number: every number but [0] and [NaN]. *)
Definition truthy (a : num) : bool :=
  negb (isNaN a || strict_eq a (Fin 0)).

(** [a || b] on numbers *)
Definition or_else (a b : num) : num := if truthy a then a else b.

(** The values a JSON-sourced numeric property can hold. *)
Inductive value : Type :=
| VUndefined
| VNull
| VNum (n : num).

(** [typeof v === 'number'] *)
Definition is_number (v : value) : bool :=
  match v with VNum _ => true | _ => false end.

(** Numeric coercion applied by the arithmetic operators. *)
Definition to_number (v : value) : num :=
  match v with
  | VUndefined => NaN
  | VNull => Fin 0
  | VNum n => n
  end.

Definition truthy_value (v : value) : bool :=
  match v with
  | VNum n => truthy n
  | _ => false
  end.

(** [v === n] for a number [n] *)
Definition value_strict_eq (v : value) (n : num) : bool :=
  match v with
  | VNum m => strict_eq m n
  | _ => false
  end.

(** What [JSON.parse(JSON.stringify(v))] returns: non-finite numbers are
    written as [null]. *)
Definition json_roundtrip (v : value) : value :=
  match v with
  | VNum (Fin q) => VNum (Fin q)
  | VNum _ => VNull
  | VNull => VNull
  | VUndefined => VUndefined
  end.

(** Equality of model values: finite numbers are compared as rationals. *)
Definition num_eq (a b : num) : Prop :=
  match a, b with
  | NaN, NaN | PInf, PInf | NInf, NInf => True
  | Fin x, Fin y => x == y
  | _, _ => False
  end.

(** [Math.sqrt]; its value on a non-negative rational is the parameter
    [Math_sqrt] of the model, the host's square root. *)
Definition sqrt (Math_sqrt : Q -> Q) (a : num) : num :=
  match a with
  | NaN | NInf => NaN
  | PInf => PInf
  | Fin q => if Qle_bool 0 q then Fin (Math_sqrt q) else NaN
  end.

(** An array index or count as a number. *)
Definition of_nat (n : nat) : num := Fin (inject_Z (Z.of_nat n)).

End JS.

Declare Scope js_scope.
Delimit Scope js_scope with js.
Infix "+" := JS.add : js_scope.
Infix "-" := JS.sub : js_scope.
Infix "*" := JS.mul : js_scope.
Infix "/" := JS.div : js_scope.
Infix "<" := JS.ltb : js_scope.
Infix "<=" := JS.leb : js_scope.
Infix ">" := JS.gtb : js_scope.
Infix "===" := JS.strict_eq (at level 70, no associativity) : js_scope.
Infix "|||" := JS.or_else (at level 50, left associativity) : js_scope.

(** ** Binary64 arithmetic

    An operation of IEEE 754 returns the exact result rounded to the
    nearest number of the format.  For binary64 that is 53 significant
    bits, a last place no lower than [2 ^ -1074], and an infinity when
    the rounded magnitude reaches [2 ^ 1024]. *)

Module Double.

(** The largest [k] with [2 ^ k <= |q|], for a [q] other than 0. *)
Definition ilog2 (q : Q) : Z :=
  let k := (Z.log2 (Z.abs (Qnum q)) - Z.log2 (Zpos (Qden q)))%Z in
  if Qle_bool (2 ^ k) (Qabs q) then k else (k - 1)%Z.

(** The nearest integer, a tie going to the even one. *)
Definition rne (t : Q) : Z :=
  let f := Qfloor t in
  match Qcompare (t - inject_Z f) (1 # 2) with
  | Lt => f
  | Gt => (f + 1)%Z
  | Eq => if Z.even f then f else (f + 1)%Z
  end.

(** The exponent of the last place of the binary64 numbers around [q]:
    53 significant bits, and no place below [2 ^ -1074]. *)
Definition ulp_exp (q : Q) : Z := Z.max (ilog2 q - 52) (-1074).

(** The binary64 number nearest to the exact value [q] (ties to even),
    an infinity from [2 ^ 1024] on. *)
Definition round (q : Q) : JS.num :=
  if Qeq_bool q 0 then JS.Fin 0
  else
    let e := ulp_exp q in
    let v := inject_Z (rne (q / 2 ^ e)) * 2 ^ e in
    if Qle_bool (2 ^ 1024) (Qabs v)
    then (if Qle_bool 0 q then JS.PInf else JS.NInf)
    else JS.Fin (Qred v).

Definition rnd (a : JS.num) : JS.num :=
  match a with
  | JS.Fin q => round q
  | _ => a
  end.

Definition add (a b : JS.num) : JS.num := rnd (JS.add a b).
Definition sub (a b : JS.num) : JS.num := rnd (JS.sub a b).
Definition mul (a b : JS.num) : JS.num := rnd (JS.mul a b).
Definition div (a b : JS.num) : JS.num := rnd (JS.div a b).

(** [Math.sqrt]: the binary64 number nearest to the square root. *)
Definition sqrt (a : JS.num) : JS.num :=
  match a with
  | JS.NaN | JS.NInf => JS.NaN
  | JS.PInf => JS.PInf
  | JS.Fin q =>
      if Qeq_bool q 0 then JS.Fin 0
      else if Qle_bool q 0 then JS.NaN
      else
        let e := ((ilog2 q - 104) / 2)%Z in
        let t := q / 2 ^ (2 * e) in
        let m0 := Z.sqrt (Qfloor t) in
        let h := inject_Z m0 + (1 # 2) in
        let m := match Qcompare t (h * h) with
                 | Lt => m0
                 | Gt => (m0 + 1)%Z
                 | Eq => if Z.even m0 then m0 else (m0 + 1)%Z
                 end in
        JS.Fin (Qred (inject_Z m * 2 ^ e))
  end.

End Double.

Declare Scope f64_scope.
Delimit Scope f64_scope with f64.
Infix "+" := Double.add : f64_scope.
Infix "-" := Double.sub : f64_scope.
Infix "*" := Double.mul : f64_scope.
Infix "/" := Double.div : f64_scope.

(** ** The data model ([types/api.ts]) *)

Module Api.

(** A point [[x, y]]. *)
Definition Point : Type := (JS.num * JS.num)%type.

(** A polygon is an array of points; [None] is an empty slot of a sparse
    array (JSON input has none, an out-of-range write creates them). *)
Definition Polygon : Type := list (option Point).

Record Dimensions : Type := {
  width_ft : JS.value;
  length_ft : JS.value
}.

(** [polygon] and [dimensions] are [None] when the property is absent or
    [null]; [id] is read by the editor through [(r as any).id].  The
    properties no modelled function reads ([insights], [furniture]) are left
    out. *)
Record RoomMetadata : Type := {
  id : JS.value;
  type : string;
  polygon : option Polygon;
  area_sqft : JS.value;
  dimensions : option Dimensions;
  floor : JS.value
}.

Record FloorPlanMetadata : Type := {
  total_area_sqft : JS.num;
  rooms : list RoomMetadata;
  num_bedrooms : JS.num;
  num_bathrooms : JS.num
}.

End Api.

(** ** The editor ([FloorPlanEditor]) *)

Module FloorPlanEditor.

Import Api.

(** [points[k]] used as an operand of arithmetic: an index outside the array
    reads [undefined], which the operators coerce to [NaN]. *)
Definition at_index (points : list JS.num) (k : Z) : JS.num :=
  if (k <? 0)%Z then JS.NaN else nth (Z.to_nat k) points JS.NaN.

(** The values [0, 2, 4, ...] below [len] taken by the loop variable [i]. *)
Definition loop_indices (len : nat) : list Z :=
  map (fun k => (2 * Z.of_nat k)%Z) (seq 0 (Nat.div2 (S len))).

(** One iteration of the loop of [calculatePolygonArea], on the pair
    [(area, j)]. *)
Definition area_step (points : list JS.num) (st : JS.num * Z) (i : Z)
  : JS.num * Z :=
  let (area, j) := st in
  ((area + (at_index points j + at_index points i)
           * (at_index points (j + 1) - at_index points (i + 1)))%js,
   i).

(** [calculatePolygonArea]: the shoelace formula on a flattened array. *)
Definition calculatePolygonArea (points : list JS.num) : JS.num :=
  let len := Z.of_nat (length points) in
  let (area, _) :=
    fold_left (area_step points) (loop_indices (length points))
              (JS.Fin 0, (len - 2)%Z) in
  JS.abs (area / JS.Fin 2)%js.

(** [polygon.reduce((acc, point) => [...acc, point[0], point[1]], [])];
    [reduce] skips the empty slots of a sparse array. *)
Definition flatten (polygon : Polygon) : list JS.num :=
  fold_left
    (fun acc slot =>
       match slot with
       | Some point => acc ++ [fst point; snd point]
       | None => acc
       end)
    polygon [].

(** *** The normalizer effect *)

Section Normalizer.

Variable Math_sqrt : Q -> Q.

(** [!room.polygon || room.polygon.length < 3] *)
Definition needs_polygon (room : RoomMetadata) : bool :=
  match polygon room with
  | None => true
  | Some p => (length p <? 3)%nat
  end.

Definition safeArea (room : RoomMetadata) : JS.num :=
  if JS.is_number (area_sqft room)
     && (JS.to_number (area_sqft room) > JS.Fin 0)%js
  then JS.to_number (area_sqft room)
  else JS.Fin 100.

(** [room.dimensions?.width_ft] and [room.dimensions?.length_ft] *)
Definition dim_width (room : RoomMetadata) : JS.value :=
  match dimensions room with
  | None => JS.VUndefined
  | Some d => width_ft d
  end.

Definition dim_length (room : RoomMetadata) : JS.value :=
  match dimensions room with
  | None => JS.VUndefined
  | Some d => length_ft d
  end.

(** [w] and [l] as first assigned, before the two guards. *)
Definition raw_w (room : RoomMetadata) : JS.num :=
  if JS.truthy_value (dim_width room)
  then (JS.to_number (dim_width room) * JS.Fin 15)%js
  else (JS.sqrt Math_sqrt (safeArea room) * JS.Fin 15)%js.

Definition raw_l (room : RoomMetadata) : JS.num :=
  if JS.truthy_value (dim_length room)
  then (JS.to_number (dim_length room) * JS.Fin 15)%js
  else (safeArea room / (raw_w room / JS.Fin 15) * JS.Fin 15)%js.

(** [if (isNaN(v) || v <= 0) v = 150] *)
Definition guard (v : JS.num) : JS.num :=
  if JS.isNaN v || (v <= JS.Fin 0)%js then JS.Fin 150 else v.

Definition fallback_w (room : RoomMetadata) : JS.num := guard (raw_w room).
Definition fallback_l (room : RoomMetadata) : JS.num := guard (raw_l room).

Definition fallback_polygon (currentOffset w l : JS.num) : Polygon :=
  [ Some (currentOffset, JS.Fin 0);
    Some ((currentOffset + w)%js, JS.Fin 0);
    Some ((currentOffset + w)%js, l);
    Some (currentOffset, l) ].

(** The body of [clonedRooms.forEach]: the room after the call and the new
    value of [currentOffset]. *)
Definition normalize_room (currentOffset : JS.num) (room : RoomMetadata)
  : RoomMetadata * JS.num :=
  if needs_polygon room then
    let w := fallback_w room in
    let l := fallback_l room in
    ({| id := id room;
        type := type room;
        polygon := Some (fallback_polygon currentOffset w l);
        area_sqft := area_sqft room;
        dimensions := dimensions room;
        floor := floor room |},
     (currentOffset + (w + JS.Fin 20))%js)
  else (room, currentOffset).

Fixpoint normalize_from (currentOffset : JS.num) (rooms : list RoomMetadata)
  : list RoomMetadata :=
  match rooms with
  | [] => []
  | room :: rest =>
      let (room', offset') := normalize_room currentOffset room in
      room' :: normalize_from offset' rest
  end.

(** [JSON.parse(JSON.stringify(metadata.rooms))] on the numeric properties.
    Polygon entries are taken to be JSON data already (finite coordinates,
    no empty slot), on which the round trip is the identity. *)
Definition clone_dimensions (d : Dimensions) : Dimensions :=
  {| width_ft := JS.json_roundtrip (width_ft d);
     length_ft := JS.json_roundtrip (length_ft d) |}.

Definition clone_room (room : RoomMetadata) : RoomMetadata :=
  {| id := JS.json_roundtrip (id room);
     type := type room;
     polygon := polygon room;
     area_sqft := JS.json_roundtrip (area_sqft room);
     dimensions := option_map clone_dimensions (dimensions room);
     floor := JS.json_roundtrip (floor room) |}.

(** The room list the effect passes to [setRooms]. *)
Definition normalize (metadata : FloorPlanMetadata) : list RoomMetadata :=
  normalize_from (JS.Fin 0) (map clone_room (rooms metadata)).

End Normalizer.

(** *** The stage auto-scaling effect *)

(** The [dimensions] state: the size of the canvas. *)
Record Size : Type := {
  width : JS.num;
  height : JS.num
}.

Record StageConfig : Type := {
  scale : JS.num;
  x : JS.num;
  y : JS.num
}.

Record Bounds : Type := {
  minX : JS.num;
  maxX : JS.num;
  minY : JS.num;
  maxY : JS.num
}.

(** The four tests made on one point [p]. *)
Definition bounds_point (b : Bounds) (p : Point) : Bounds :=
  {| minX := if (fst p < minX b)%js then fst p else minX b;
     maxX := if (fst p > maxX b)%js then fst p else maxX b;
     minY := if (snd p < minY b)%js then snd p else minY b;
     maxY := if (snd p > maxY b)%js then snd p else maxY b |}.

(** [room.polygon.forEach]; [forEach] skips empty slots. *)
Definition bounds_polygon (b : Bounds) (p : Polygon) : Bounds :=
  fold_left
    (fun b slot =>
       match slot with
       | Some point => bounds_point b point
       | None => b
       end)
    p b.

Definition bounds_rooms (rooms : list RoomMetadata) : Bounds :=
  fold_left
    (fun b room =>
       match polygon room with
       | Some p => bounds_polygon b p
       | None => b
       end)
    rooms
    {| minX := JS.PInf; maxX := JS.NInf; minY := JS.PInf; maxY := JS.NInf |}.

(** The effect on [[rooms, dimensions]]: the argument of [setStageConfig],
    or [None] when the effect returns without calling it. *)
Definition autoScale (rooms : list RoomMetadata) (dimensions : Size)
  : option StageConfig :=
  if negb (JS.truthy (width dimensions)) || (length rooms =? 0)%nat then None
  else
    let b := bounds_rooms rooms in
    if negb (minX b === JS.PInf)%js then
      let contentWidth := (maxX b - minX b)%js in
      let contentHeight := (maxY b - minY b)%js in
      let padding := JS.Fin 40 in
      let scaleX :=
        ((width dimensions - padding * JS.Fin 2)
         / (contentWidth ||| JS.Fin 1))%js in
      let scaleY :=
        ((height dimensions - padding * JS.Fin 2)
         / (contentHeight ||| JS.Fin 1))%js in
      let scale := JS.min3 scaleX scaleY (JS.Fin 2) in
      Some
        {| scale := scale;
           x := ((width dimensions - contentWidth * scale) / JS.Fin 2
                 - minX b * scale)%js;
           y := ((height dimensions - contentHeight * scale) / JS.Fin 2
                 - minY b * scale)%js |}
    else None.

(** *** Dragging a vertex *)

(** [Array.prototype.findIndex], with the index passed to the predicate;
    [-1] when no element satisfies it. *)
Fixpoint findIndex_from {A : Type} (pred : A -> nat -> bool) (i : nat)
  (l : list A) : Z :=
  match l with
  | [] => (-1)%Z
  | a :: rest =>
      if pred a i then Z.of_nat i else findIndex_from pred (S i) rest
  end.

Definition findIndex {A : Type} (pred : A -> nat -> bool) (l : list A) : Z :=
  findIndex_from pred 0 l.

(** [(r as any).id === roomId || updatedRooms.indexOf(r) === roomId], for the
    room [r] at index [i]; the rooms of the list are distinct objects, so
    [indexOf(r)] is [i]. *)
Definition room_matches (roomId : JS.num) (r : RoomMetadata) (i : nat)
  : bool :=
  JS.value_strict_eq (id r) roomId || (JS.of_nat i === roomId)%js.

(** [newPolygon[vertexIndex] = v]: inside the array the element is replaced,
    at its end the array grows by one, beyond the end it grows and the
    slots in between stay empty; a negative index names a property and
    leaves the elements alone. *)
Definition array_set (p : Polygon) (vertexIndex : Z) (v : Point) : Polygon :=
  if (vertexIndex <? 0)%Z then p
  else
    let i := Z.to_nat vertexIndex in
    if (i <? length p)%nat
    then firstn i p ++ Some v :: skipn (S i) p
    else p ++ repeat None (i - length p) ++ [Some v].

(** The copy [[...newRoom.polygon]] reads an empty slot as [undefined]; the
    [reduce] callback then raises a [TypeError] on [point[0]] unless that
    slot is the one the write fills. *)
Definition reads_undefined (p : Polygon) (vertexIndex : Z) : bool :=
  existsb
    (fun k =>
       match nth_error p k with
       | Some None => negb (Z.of_nat k =? vertexIndex)%Z
       | _ => false
       end)
    (seq 0 (length p)).

(** [updatedRooms[roomIndex] = newRoom], for an index inside the array. *)
Fixpoint rooms_set (rooms : list RoomMetadata) (roomIndex : nat)
  (newRoom : RoomMetadata) : list RoomMetadata :=
  match rooms, roomIndex with
  | [], _ => []
  | _ :: rest, O => newRoom :: rest
  | r :: rest, S k => r :: rooms_set rest k newRoom
  end.

(** [rooms.reduce((sum, r) => sum + r.area_sqft, 0)] *)
Definition sum_area_sqft (rooms : list RoomMetadata) : JS.num :=
  fold_left (fun sum r => (sum + JS.to_number (area_sqft r))%js)
            rooms (JS.Fin 0).

(** What the updater given to [setRooms] does: it returns [prevRooms]
    itself and notifies nobody, or returns a new array after passing a new
    aggregate to [onMetadataChange], or raises. *)
Inductive Outcome : Type :=
| Unchanged
| Updated (updatedRooms : list RoomMetadata) (emitted : FloorPlanMetadata)
| TypeError.

Definition new_area_sqft (oldPolygon newPolygon : Polygon)
  (old_area_sqft : JS.value) : JS.num :=
  let flatPoints := flatten newPolygon in
  let areaPixels := calculatePolygonArea flatPoints in
  let oldFlat := flatten oldPolygon in
  let oldAreaPixels := (calculatePolygonArea oldFlat ||| JS.Fin 1)%js in
  let ratio := (JS.to_number old_area_sqft / oldAreaPixels)%js in
  JS.round (JS.max (JS.Fin 10) (areaPixels * ratio)%js).

(** The room built from [updatedRooms[roomIndex]]: a copy with the new
    polygon and the recomputed [area_sqft]. *)
Definition newRoom (room : RoomMetadata) (oldPolygon : Polygon)
  (vertexIndex : Z) (newPos : Point) : RoomMetadata :=
  let newPolygon := array_set oldPolygon vertexIndex newPos in
  {| id := id room;
     type := type room;
     polygon := Some newPolygon;
     area_sqft :=
       JS.VNum (new_area_sqft oldPolygon newPolygon (area_sqft room));
     dimensions := dimensions room;
     floor := floor room |}.

Definition handleDragVertex (metadata : FloorPlanMetadata)
  (prevRooms : list RoomMetadata) (roomId : JS.num) (vertexIndex : Z)
  (newPos : Point) : Outcome :=
  let roomIndex := findIndex (room_matches roomId) prevRooms in
  if (roomIndex =? -1)%Z then Unchanged
  else
    match nth_error prevRooms (Z.to_nat roomIndex) with
    | None => TypeError
    | Some room =>
        match polygon room with
        | None => TypeError
        | Some oldPolygon =>
            if reads_undefined oldPolygon vertexIndex then TypeError
            else
              let updatedRooms :=
                rooms_set prevRooms (Z.to_nat roomIndex)
                          (newRoom room oldPolygon vertexIndex newPos) in
              let newTotalSqft := sum_area_sqft updatedRooms in
              Updated updatedRooms
                {| total_area_sqft := newTotalSqft;
                   rooms := updatedRooms;
                   num_bedrooms := num_bedrooms metadata;
                   num_bathrooms := num_bathrooms metadata |}
        end
    end.

(** *** The component state *)

(** The state the two effects and the drag handler work on. *)
Module State.
Record t : Type := {
  rooms : list RoomMetadata;
  dimensions : Size;
  stageConfig : StageConfig
}.
End State.

(** The auto-scaling effect run on a state. *)
Definition run_autoScale (st : State.t) : State.t :=
  match autoScale (State.rooms st) (State.dimensions st) with
  | Some c =>
      {| State.rooms := State.rooms st;
         State.dimensions := State.dimensions st;
         State.stageConfig := c |}
  | None => st
  end.

(** The result of handling one event: the next state and the aggregate
    passed to [onMetadataChange], if any; or an uncaught exception. *)
Inductive Step : Type :=
| Next (st : State.t) (emitted : option FloorPlanMetadata)
| Raised.

(** One [onDragMove] event, in the component alone.  When the updater
    returns [prevRooms] React keeps the state and runs no effect; when it
    returns a new array the component renders again and the effect on
    [[rooms, dimensions]] runs. *)
Definition dragVertex (metadata : FloorPlanMetadata) (st : State.t)
  (roomId : JS.num) (vertexIndex : Z) (newPos : Point) : Step :=
  match handleDragVertex metadata (State.rooms st) roomId vertexIndex newPos
  with
  | Unchanged => Next st None
  | Updated updatedRooms emitted =>
      Next
        (run_autoScale
           {| State.rooms := updatedRooms;
              State.dimensions := State.dimensions st;
              State.stageConfig := State.stageConfig st |})
        (Some emitted)
  | TypeError => Raised
  end.

(** One [resize] event on a container of width [offsetWidth]. *)
Definition handleResize (st : State.t) (offsetWidth : JS.num) : State.t :=
  run_autoScale
    {| State.rooms := State.rooms st;
       State.dimensions := {| width := offsetWidth; height := JS.Fin 500 |};
       State.stageConfig := State.stageConfig st |}.

Section Gesture.

Variable Math_sqrt : Q -> Q.

(** The width of the container during the gesture. *)
Variable offsetWidth : JS.num.



End Gesture.

End FloorPlanEditor.

(** ** The 3D view ([FloorPlan3D]) *)

Module FloorPlan3D.

Import Api.

Record Vector3 : Type := {
  x : JS.num;
  y : JS.num;
  z : JS.num
}.

Definition wallHeight : JS.num := JS.Fin 8.

(** What the [Room] component mounts: the position of its [group] and the
    [depth] of the extrusion.  The meshes are rotated by a quarter turn
    about the x axis, so the extrusion runs along the vertical axis [y],
    from the [y] of the group upwards. *)
Record Shell : Type := {
  position : Vector3;
  depth : JS.num
}.

(** The [Room] component: [<group position={[offset.x, 0, offset.z]}>] and
    [extrudeSettings.depth]. *)
Definition Room (room : RoomMetadata) (offset : Vector3) : Shell :=
  {| position := {| x := x offset; y := JS.Fin 0; z := z offset |};
     depth := wallHeight |}.

Definition shell_bottom (s : Shell) : JS.num := y (position s).

Section Projector.

Variable Math_sqrt : Q -> Q.

(** [room.dimensions?.width_ft || Math.sqrt(room.area_sqft)] *)
Definition fallback_width (room : RoomMetadata) : JS.num :=
  let v := match dimensions room with
           | None => JS.VUndefined
           | Some d => width_ft d
           end in
  if JS.truthy_value v then JS.to_number v
  else JS.sqrt Math_sqrt (JS.to_number (area_sqft room)).

(** [room.dimensions?.length_ft || room.area_sqft / width] *)
Definition fallback_length (room : RoomMetadata) : JS.num :=
  let v := match dimensions room with
           | None => JS.VUndefined
           | Some d => length_ft d
           end in
  if JS.truthy_value v then JS.to_number v
  else (JS.to_number (area_sqft room) / fallback_width room)%js.

(** [!room.polygon || room.polygon.length === 0] *)
Definition lacks_polygon (room : RoomMetadata) : bool :=
  match polygon room with
  | None => true
  | Some p => (length p =? 0)%nat
  end.

(** The body of [rooms.map((room, i) => ...)]: the [roomOffset] handed to
    [<Room>].  [offset] is the centring offset of the layout, computed
    once from the bounding box of the scene. *)
Definition roomOffset (offset : Vector3) (room : RoomMetadata) (i : nat)
  : Vector3 :=
  let placed :=
    if lacks_polygon room then
      let cols := 3%nat in
      let row := JS.of_nat (i / cols) in
      let col := JS.of_nat (i mod cols) in
      let gap := JS.Fin 2 in
      {| x := (x offset + col * (fallback_width room + gap))%js;
         y := JS.Fin 0;
         z := (z offset + row * (fallback_length room + gap))%js |}
    else {| x := x offset; y := y offset; z := z offset |} in
  let floorIndex :=
    if JS.truthy_value (floor room)
    then (JS.to_number (floor room) - JS.Fin 1)%js
    else JS.Fin 0 in
  {| x := x placed; y := (floorIndex * wallHeight)%js; z := z placed |}.

Fixpoint shells_from (offset : Vector3) (i : nat) (rooms : list RoomMetadata)
  : list Shell :=
  match rooms with
  | [] => []
  | room :: rest =>
      Room room (roomOffset offset room i) :: shells_from offset (S i) rest
  end.

(** The shells of the scene, one per room, in the order of the list. *)
Definition shells (offset : Vector3) (rooms : list RoomMetadata)
  : list Shell :=
  shells_from offset 0 rooms.

End Projector.

End FloorPlan3D.

(** ** Room colours ([getRoomColor], in the editor and in the 3D view) *)

Module RoomColor.

(** [toLowerCase] on ASCII text: the letters [A] to [Z] move to [a] to
    [z], every other character stays.  Room types are taken to be ASCII. *)
Definition lower (c : Ascii.ascii) : Ascii.ascii :=
  let n := Ascii.nat_of_ascii c in
  if (65 <=? n)%nat && (n <=? 90)%nat then Ascii.ascii_of_nat (n + 32) else c.

Fixpoint toLowerCase (s : string) : string :=
  match s with
  | EmptyString => EmptyString
  | String c rest => String (lower c) (toLowerCase rest)
  end.

(** [hay.includes(needle)] *)
Fixpoint includes (hay needle : string) : bool :=
  if String.prefix needle hay then true
  else
    match hay with
    | EmptyString => false
    | String _ rest => includes rest needle
    end.

(** The entries of [ROOM_COLORS], in insertion order. *)
Definition ROOM_COLORS : list (string * string) :=
  [ ("bedroom", "#6b8cae");
    ("bathroom", "#7aadba");
    ("kitchen", "#c8956c");
    ("living", "#a3b18a");
    ("hall", "#b8a9c9");
    ("dining", "#d4a574");
    ("balcony", "#8fb996");
    ("corridor", "#9e9e9e");
    ("default", "#888888") ]%string.

(** The loop over [Object.entries(ROOM_COLORS)]: the colour of the first
    key that [lower] includes. *)
Fixpoint first_color (lower : string) (entries : list (string * string))
  : option string :=
  match entries with
  | [] => None
  | (key, color) :: rest =>
      if includes lower key then Some color else first_color lower rest
  end.

Definition getRoomColor (type : string) : string :=
  match first_color (toLowerCase type) ROOM_COLORS with
  | Some color => color
  | None => "#888888"%string
  end.

End RoomColor.

(** ** What the editor draws *)

Module EditorView.

Import Api.
Import FloorPlanEditor.

(** [points[k]] as a value: [undefined] outside the array. *)
Definition element (points : list JS.num) (k : Z) : JS.value :=
  if (k <? 0)%Z then JS.VUndefined
  else
    match nth_error points (Z.to_nat k) with
    | Some n => JS.VNum n
    | None => JS.VUndefined
    end.

(** [unflattenPoints]: the pairs [[points[i], points[i + 1]]] for
    [i = 0, 2, 4, ...]. *)
Definition unflattenPoints (points : list JS.num)
  : list (JS.value * JS.value) :=
  map (fun i => (element points i, element points (i + 1)%Z))
      (loop_indices (length points)).

(** [(room as any).id || i] *)
Definition roomId (room : RoomMetadata) (i : nat) : JS.num :=
  if JS.truthy_value (id room) then JS.to_number (id room) else JS.of_nat i.

(** A room is drawn unless [!room.polygon || room.polygon.length < 3]. *)
Definition drawn (room : RoomMetadata) : bool := negb (needs_polygon room).



End EditorView.

(** ** The history store ([useHistoryStore]) *)

Module HistoryStore.

Import Api.

Record HistoryEntry : Type := {
  jobId : string;
  imageUrl : string;
  metadata : option FloorPlanMetadata;
  createdAt : string;
  constraint : option string
}.

(** [current.some(e => e.jobId === entry.jobId)] *)
Definition has (id : string) (entries : list HistoryEntry) : bool :=
  existsb (fun e => String.eqb (jobId e) id) entries.

(** The three actions, as functions from the [entries] they read to the
    [entries] they set; each writes the same list to the storage first,
    and [addEntry] on a known [jobId] returns before either. *)
Definition addEntry (entry : HistoryEntry) (current : list HistoryEntry)
  : list HistoryEntry :=
  if has (jobId entry) current then current
  else firstn 50 (entry :: current).

Definition removeEntry (id : string) (entries : list HistoryEntry)
  : list HistoryEntry :=
  filter (fun e => negb (String.eqb (jobId e) id)) entries.

Definition clearHistory (entries : list HistoryEntry) : list HistoryEntry :=
  [].

Inductive Action : Type :=
| AddEntry (entry : HistoryEntry)
| RemoveEntry (id : string)
| ClearHistory.

Definition dispatch (entries : list HistoryEntry) (a : Action)
  : list HistoryEntry :=
  match a with
  | AddEntry entry => addEntry entry entries
  | RemoveEntry id => removeEntry id entries
  | ClearHistory => clearHistory entries
  end.

End HistoryStore.

(** ** The progress tracker ([ProgressTracker]) *)

Module ProgressTracker.

Definition STAGES : list (string * string) :=
  [ ("pending", "PREPARING");
    ("download", "DOWNLOADING IMAGE");
    ("feature_extraction", "ANALYZING EXTERIOR");
    ("layout_generation", "GENERATING LAYOUT");
    ("post_processing", "REFINING DETAILS");
    ("upload", "FINALIZING") ]%string.

(** [STAGES.findIndex(s => s.name === currentStage)] *)
Definition currentIndex (currentStage : string) : Z :=
  FloorPlanEditor.findIndex
    (fun (s : string * string) (_ : nat) => String.eqb (fst s) currentStage)
    STAGES.

(** [Math.round(progress * 100)] *)
Definition percent (progress : JS.num) : JS.num :=
  JS.round (progress * JS.Fin 100)%js.

Record StageView : Type := {
  name : string;
  isCompleted : bool;
  isCurrent : bool;
  isPending : bool
}.

(** The body of [STAGES.map((stage, index) => ...)]. *)
Definition stageView (currentStage : string) (index : nat)
  (stage : string * string) : StageView :=
  {| name := fst stage;
     isCompleted := (Z.of_nat index <? currentIndex currentStage)%Z;
     isCurrent := (Z.of_nat index =? currentIndex currentStage)%Z;
     isPending := (Z.of_nat index >? currentIndex currentStage)%Z |}.

Definition stageViews (currentStage : string) : list StageView :=
  map (fun ix => stageView currentStage (fst ix) (snd ix))
      (combine (seq 0 (length STAGES)) STAGES).

End ProgressTracker.

(** ** The cost estimator ([CostEstimator]) *)

Module CostEstimator.

Import Api.

Inductive TierKey : Type := economy | standard | luxury.

Record Tier : Type := {
  basePerSqft : JS.num;
  kitchenAddon : JS.num;
  bathAddon : JS.num
}.

Definition TIERS (k : TierKey) : Tier :=
  match k with
  | economy =>
      {| basePerSqft := JS.Fin 1500;
         kitchenAddon := JS.Fin 150000;
         bathAddon := JS.Fin 80000 |}
  | standard =>
      {| basePerSqft := JS.Fin 2500;
         kitchenAddon := JS.Fin 300000;
         bathAddon := JS.Fin 150000 |}
  | luxury =>
      {| basePerSqft := JS.Fin 4000;
         kitchenAddon := JS.Fin 650000;
         bathAddon := JS.Fin 300000 |}
  end.

Record Estimate : Type := {
  numKitchens : JS.num;
  numBaths : JS.num;
  baseCost : JS.num;
  kitchenCost : JS.num;
  bathCost : JS.num;
  totalCost : JS.num
}.

(** The figures the component shows, [None] where it returns [null]. *)
Definition estimate (selectedTier : TierKey) (metadata : FloorPlanMetadata)
  : option Estimate :=
  if negb (JS.truthy (total_area_sqft metadata)) then None
  else
    let tier := TIERS selectedTier in
    let totalSqft := total_area_sqft metadata in
    let numKitchens :=
      (JS.of_nat
         (length
            (filter
               (fun r =>
                  RoomColor.includes (RoomColor.toLowerCase (type r))
                                     "kitchen")
               (rooms metadata)))
       ||| JS.Fin 1)%js in
    let numBaths := (num_bathrooms metadata ||| JS.Fin 1)%js in
    let baseCost := (totalSqft * basePerSqft tier)%js in
    let kitchenCost := (numKitchens * kitchenAddon tier)%js in
    let bathCost := (numBaths * bathAddon tier)%js in
    Some {| numKitchens := numKitchens;
            numBaths := numBaths;
            baseCost := baseCost;
            kitchenCost := kitchenCost;
            bathCost := bathCost;
            totalCost := (baseCost + kitchenCost + bathCost)%js |}.

End CostEstimator.

(** ** The zoom of the 2D view ([FloorPlanViewer]) *)

Module FloorPlanViewer.

(** [useState(1)] *)
Definition initialZoom : JS.num := JS.Fin 1.

(** [z => Math.max(0.5, z - 0.25)] and [z => Math.min(3, z + 0.25)] *)
Definition zoomOut (z : JS.num) : JS.num :=
  JS.max (JS.Fin (1 # 2)) (z - JS.Fin (1 # 4))%js.

Definition zoomIn (z : JS.num) : JS.num :=
  JS.min (JS.Fin 3) (z + JS.Fin (1 # 4))%js.

(** The label between the two buttons: [Math.round(zoom * 100)]. *)
Definition zoomPercent (zoom : JS.num) : JS.num :=
  JS.round (zoom * JS.Fin 100)%js.

Inductive Click : Type := ZoomOut | ZoomIn.

Definition click (zoom : JS.num) (c : Click) : JS.num :=
  match c with
  | ZoomOut => zoomOut zoom
  | ZoomIn => zoomIn zoom
  end.

End FloorPlanViewer.

(** ** The room shapes of the 3D view ([createRoomShape]) *)

Module RoomShape.

Import Api.

(** The polygon as [room.polygon.map(p => ...)] and the loop read it:
    [None] when a slot is empty, on which [points[i].x] raises. *)
Fixpoint points_of (p : Polygon) : option (list Point) :=
  match p with
  | [] => Some []
  | None :: _ => None
  | Some pt :: rest => option_map (cons pt) (points_of rest)
  end.

(** [new THREE.Vector2(p[0] * 0.05, p[1] * 0.05)] *)
Definition worldUnits (p : Point) : Point :=
  ((fst p * JS.Fin (1 # 20))%js, (snd p * JS.Fin (1 # 20))%js).

Section Shape.

Variable Math_sqrt : Q -> Q.

(** The path of the [THREE.Shape]: the point of [moveTo] and the points of
    the [lineTo] calls, in order; [None] when the function raises. *)
Definition createRoomShape (room : RoomMetadata) : option (list Point) :=
  match polygon room with
  | Some p =>
      if (2 <? length p)%nat then
        match points_of p with
        | Some (first :: rest) =>
            Some (map worldUnits (first :: rest) ++ [worldUnits first])
        | _ => None
        end
      else
        let width := FloorPlan3D.fallback_width Math_sqrt room in
        let length := FloorPlan3D.fallback_length Math_sqrt room in
        Some [ (JS.Fin 0, JS.Fin 0); (width, JS.Fin 0); (width, length);
               (JS.Fin 0, length); (JS.Fin 0, JS.Fin 0) ]
  | None =>
      let width := FloorPlan3D.fallback_width Math_sqrt room in
      let length := FloorPlan3D.fallback_length Math_sqrt room in
      Some [ (JS.Fin 0, JS.Fin 0); (width, JS.Fin 0); (width, length);
             (JS.Fin 0, length); (JS.Fin 0, JS.Fin 0) ]
  end.

End Shape.

End RoomShape.

(** ** The editor's arithmetic in binary64 *)

Module Editor64.

Import Api.
Import FloorPlanEditor.

(** One iteration of the loop of [calculatePolygonArea]. *)
Definition area_step (points : list JS.num) (st : JS.num * Z) (i : Z)
  : JS.num * Z :=
  let (area, j) := st in
  ((area + (at_index points j + at_index points i)
           * (at_index points (j + 1) - at_index points (i + 1)))%f64,
   i).

Definition calculatePolygonArea (points : list JS.num) : JS.num :=
  let len := Z.of_nat (length points) in
  let (area, _) :=
    fold_left (area_step points) (loop_indices (length points))
              (JS.Fin 0, (len - 2)%Z) in
  JS.abs (area / JS.Fin 2)%f64.

(** [Math.round(Math.max(10, areaPixels * ratio))]; [Math.max] and
    [Math.round] return a binary64 number exactly. *)
Definition new_area_sqft (oldPolygon newPolygon : Polygon)
  (old_area_sqft : JS.value) : JS.num :=
  let flatPoints := flatten newPolygon in
  let areaPixels := calculatePolygonArea flatPoints in
  let oldFlat := flatten oldPolygon in
  let oldAreaPixels := (calculatePolygonArea oldFlat ||| JS.Fin 1)%js in
  let ratio := (JS.to_number old_area_sqft / oldAreaPixels)%f64 in
  JS.round (JS.max (JS.Fin 10) (areaPixels * ratio)%f64).

Definition newRoom (room : RoomMetadata) (oldPolygon : Polygon)
  (vertexIndex : Z) (newPos : Point) : RoomMetadata :=
  let newPolygon := array_set oldPolygon vertexIndex newPos in
  {| id := id room;
     type := type room;
     polygon := Some newPolygon;
     area_sqft :=
       JS.VNum (new_area_sqft oldPolygon newPolygon (area_sqft room));
     dimensions := dimensions room;
     floor := floor room |}.

(** [rooms.reduce((sum, r) => sum + r.area_sqft, 0)] *)
Definition sum_area_sqft (rooms : list RoomMetadata) : JS.num :=
  fold_left (fun sum r => (sum + JS.to_number (area_sqft r))%f64)
            rooms (JS.Fin 0).

Definition handleDragVertex (metadata : FloorPlanMetadata)
  (prevRooms : list RoomMetadata) (roomId : JS.num) (vertexIndex : Z)
  (newPos : Point) : Outcome :=
  let roomIndex := findIndex (room_matches roomId) prevRooms in
  if (roomIndex =? -1)%Z then Unchanged
  else
    match nth_error prevRooms (Z.to_nat roomIndex) with
    | None => TypeError
    | Some room =>
        match polygon room with
        | None => TypeError
        | Some oldPolygon =>
            if reads_undefined oldPolygon vertexIndex then TypeError
            else
              let updatedRooms :=
                rooms_set prevRooms (Z.to_nat roomIndex)
                          (newRoom room oldPolygon vertexIndex newPos) in
              let newTotalSqft := sum_area_sqft updatedRooms in
              Updated updatedRooms
                {| total_area_sqft := newTotalSqft;
                   rooms := updatedRooms;
                   num_bedrooms := num_bedrooms metadata;
                   num_bathrooms := num_bathrooms metadata |}
        end
    end.

(** The normalizer: [w] and [l] as first assigned. *)
Definition raw_w (room : RoomMetadata) : JS.num :=
  if JS.truthy_value (dim_width room)
  then (JS.to_number (dim_width room) * JS.Fin 15)%f64
  else (Double.sqrt (safeArea room) * JS.Fin 15)%f64.

Definition raw_l (room : RoomMetadata) : JS.num :=
  if JS.truthy_value (dim_length room)
  then (JS.to_number (dim_length room) * JS.Fin 15)%f64
  else (safeArea room / (raw_w room / JS.Fin 15) * JS.Fin 15)%f64.

Definition fallback_w (room : RoomMetadata) : JS.num := guard (raw_w room).
Definition fallback_l (room : RoomMetadata) : JS.num := guard (raw_l room).

Definition fallback_polygon (currentOffset w l : JS.num) : Polygon :=
  [ Some (currentOffset, JS.Fin 0);
    Some ((currentOffset + w)%f64, JS.Fin 0);
    Some ((currentOffset + w)%f64, l);
    Some (currentOffset, l) ].

Definition normalize_room (currentOffset : JS.num) (room : RoomMetadata)
  : RoomMetadata * JS.num :=
  if needs_polygon room then
    let w := fallback_w room in
    let l := fallback_l room in
    ({| id := id room;
        type := type room;
        polygon := Some (fallback_polygon currentOffset w l);
        area_sqft := area_sqft room;
        dimensions := dimensions room;
        floor := floor room |},
     (currentOffset + (w + JS.Fin 20))%f64)
  else (room, currentOffset).

Fixpoint normalize_from (currentOffset : JS.num) (rooms : list RoomMetadata)
  : list RoomMetadata :=
  match rooms with
  | [] => []
  | room :: rest =>
      let (room', offset') := normalize_room currentOffset room in
      room' :: normalize_from offset' rest
  end.

Definition normalize (metadata : FloorPlanMetadata) : list RoomMetadata :=
  normalize_from (JS.Fin 0) (map clone_room (rooms metadata)).

End Editor64.

(** ** Definitions used to state the properties *)

Import Api.
Import FloorPlanEditor.

(** A polygon with finite coordinates and no empty slot, given by its
    points as pairs of rationals. *)
Definition fin_point (p : Q * Q) : Point := (JS.Fin (fst p), JS.Fin (snd p)).

Definition fin_polygon (pts : list (Q * Q)) : Polygon :=
  map (fun p => Some (fin_point p)) pts.

(** The flattened coordinate sequence [x0, y0, x1, y1, ...]. *)
Definition flat_points (pts : list (Q * Q)) : list JS.num :=
  flat_map (fun p => [JS.Fin (fst p); JS.Fin (snd p)]) pts.

(** The index before [i] on a cycle of [n] indices. *)
Definition prev (n i : nat) : nat :=
  if (i =? 0)%nat then (n - 1)%nat else (i - 1)%nat.

(** [(x[j] + x[i]) * (y[j] - y[i])] *)
Definition term_at (pts : list (Q * Q)) (j i : nat) : Q :=
  (fst (nth j pts (0, 0)) + fst (nth i pts (0, 0)))
  * (snd (nth j pts (0, 0)) - snd (nth i pts (0, 0))).

(** The sum of the terms in the order the loop adds them up. *)
Definition loop_sum (pts : list (Q * Q)) : Q :=
  fold_left (fun acc i => acc + term_at pts (prev (length pts) i) i)
            (seq 0 (length pts)) 0.

(** The area formula as the specification words it:
    [|sum_i (x[j] + x[i]) * (y[j] - y[i])| / 2] with [j] the index before
    [i], wrapping around. *)
Fixpoint Qsum (l : list Q) : Q :=
  match l with
  | [] => 0
  | a :: rest => a + Qsum rest
  end.

Definition shoelace_spec (pts : list (Q * Q)) : Q :=
  Qabs (Qsum (map (fun i => term_at pts (prev (length pts) i) i)
                  (seq 0 (length pts)))) / 2.

(** The axis-aligned rectangle with a corner at [(x0, y0)], width [w] and
    height [h]. *)
Definition rectangle (x0 y0 w h : Q) : list (Q * Q) :=
  [ (x0, y0); (x0 + w, y0); (x0 + w, y0 + h); (x0, y0 + h) ].

(** Points on the line through [(x0, y0)] with direction [(dx, dy)], at
    the parameters [ts]. *)
Definition on_line (x0 y0 dx dy : Q) (ts : list Q) : list (Q * Q) :=
  map (fun t => (x0 + t * dx, y0 + t * dy)) ts.

(** Whether some room of the list is addressed by [roomId], through its
    [id] or through its position. *)
Definition addressed (roomId : JS.num) (rooms : list RoomMetadata) : bool :=
  existsb (fun ir => room_matches roomId (snd ir) (fst ir))
          (combine (seq 0 (length rooms)) rooms).

(** The points [pts] with the point at index [i] replaced by [p]. *)
Definition set_point (pts : list (Q * Q)) (i : nat) (p : Q * Q)
  : list (Q * Q) :=
  firstn i pts ++ p :: skipn (S i) pts.

(** Rounding to the nearest integer, ties upwards. *)
Definition Qround (q : Q) : Q := inject_Z (Qfloor (q + (1 # 2))).

(** The area rule of the specification:
    [max(10, round(newPixelArea * ratio))] with
    [ratio = previous area_sqft / oldPixelArea], a zero [oldPixelArea]
    counting as 1. *)
Definition area_rule (previous oldPixelArea newPixelArea : Q) : Q :=
  Qmax 10
       (Qround (newPixelArea
                * (previous
                   / (if Qeq_bool oldPixelArea 0 then 1 else oldPixelArea)))).

(** The sum of the [area_sqft] of the rooms, written as a sum over the
    list. *)
Fixpoint total_of (rooms : list RoomMetadata) : JS.num :=
  match rooms with
  | [] => JS.Fin 0
  | r :: rest => (JS.to_number (area_sqft r) + total_of rest)%js
  end.

(** Sample data: a room whose polygon is the rectangle [rectangle 0 0 w h]
    and whose [area_sqft] is [a], and an aggregate of such rooms. *)
Definition sample_room (w h a : Q) : RoomMetadata :=
  {| id := JS.VUndefined;
     type := "bedroom";
     polygon := Some (fin_polygon (rectangle 0 0 w h));
     area_sqft := JS.VNum (JS.Fin a);
     dimensions := None;
     floor := JS.VNum (JS.Fin 1) |}.

Definition sample_metadata (rooms : list RoomMetadata) (total : Q)
  : FloorPlanMetadata :=
  {| total_area_sqft := JS.Fin total;
     rooms := rooms;
     num_bedrooms := JS.Fin 1;
     num_bathrooms := JS.Fin 0 |}.

Definition sample_state (rooms : list RoomMetadata) : State.t :=
  {| State.rooms := rooms;
     State.dimensions := {| width := JS.Fin 400; height := JS.Fin 500 |};
     State.stageConfig :=
       {| scale := JS.Fin 1; x := JS.Fin 0; y := JS.Fin 0 |} |}.





(** A room whose polygon is given by its points. *)
Definition polygon_room (pts : list (Q * Q)) (a : Q) : RoomMetadata :=
  {| id := JS.VUndefined;
     type := "hall";
     polygon := Some (fin_polygon pts);
     area_sqft := JS.VNum (JS.Fin a);
     dimensions := None;
     floor := JS.VNum (JS.Fin 1) |}.

(** A room without polygon, as the inference pipeline may deliver it. *)
Definition bare_room (a : JS.value) (d : option Dimensions) (f : JS.value)
  : RoomMetadata :=
  {| id := JS.VUndefined;
     type := "bedroom";
     polygon := None;
     area_sqft := a;
     dimensions := d;
     floor := f |}.

(** The corners of the rectangle the normalizer lays out at the horizontal
    offset [off], of width [w] and length [l]. *)
Definition footprint (off w l : Q) : list (Q * Q) :=
  [ (off, 0); (off + w, 0); (off + w, l); (off, l) ].

(** The rooms of [output] whose counterpart in [input] lacked a polygon. *)
Definition synthesized (input output : list RoomMetadata)
  : list RoomMetadata :=
  map snd (filter (fun io => needs_polygon (fst io)) (combine input output)).

(** The rooms [synth] are rectangles of positive width and length laid out
    from the offset [off] on, each starting where the one before ends plus
    a gap of 20. *)
Fixpoint placed_from (off : Q) (synth : list RoomMetadata) : Prop :=
  match synth with
  | [] => True
  | s :: rest =>
      exists w l,
        0 < w /\ 0 < l
        /\ polygon s = Some (fin_polygon (footprint off w l))
        /\ placed_from (off + (w + 20)) rest
  end.

(** A square root on rationals, exact on the squares of rationals in
    lowest terms and positive on positive arguments; it stands for
    [Math.sqrt] in the examples. *)
Definition rational_sqrt (q : Q) : Q :=
  inject_Z (Z.sqrt (Qnum q)) / inject_Z (Z.sqrt (Zpos (Qden q))).

(** A room of 100 by 100 on the storey [f]. *)
Definition storey_room (f : Q) : RoomMetadata :=
  {| id := JS.VUndefined;
     type := "bedroom";
     polygon := Some (fin_polygon (rectangle 0 0 100 100));
     area_sqft := JS.VNum (JS.Fin 100);
     dimensions := None;
     floor := JS.VNum (JS.Fin f) |}.

(** [toUpperCase] on ASCII text. *)
Definition upper (c : Ascii.ascii) : Ascii.ascii :=
  let n := Ascii.nat_of_ascii c in
  if (97 <=? n)%nat && (n <=? 122)%nat then Ascii.ascii_of_nat (n - 32) else c.

Fixpoint toUpperCase (s : string) : string :=
  match s with
  | EmptyString => EmptyString
  | String c rest => String (upper c) (toUpperCase rest)
  end.

(** The image of the points under the similarity
    [(x, y) -> (k * x + dx, k * y + dy)]. *)
Definition similar (k dx dy : Q) (pts : list (Q * Q)) : list (Q * Q) :=
  map (fun p => (k * fst p + dx, k * snd p + dy)) pts.

(** The room [r] with the polygon [p] in place of its own. *)
Definition with_polygon (r : RoomMetadata) (p : Polygon) : RoomMetadata :=
  {| id := id r;
     type := type r;
     polygon := Some p;
     area_sqft := area_sqft r;
     dimensions := dimensions r;
     floor := floor r |}.

(** [q] is a binary64 number: at most 53 significant bits, the last one
    no lower than [2 ^ -1074], and a magnitude below [2 ^ 1024]. *)
Definition representable (q : Q) : Prop :=
  exists m k,
    q == inject_Z m * 2 ^ k
    /\ (Z.abs m < 2 ^ 53)%Z /\ (-1074 <= k <= 971)%Z.

(** Points with whole-number coordinates, as pixels are. *)
Definition int_points (zs : list (Z * Z)) : list (Q * Q) :=
  map (fun p => (inject_Z (fst p), inject_Z (snd p))) zs.

(** The coordinates of [zs] are at most [B] in magnitude. *)
Definition within (B : Z) (zs : list (Z * Z)) : Prop :=
  Forall (fun p => (Z.abs (fst p) <= B)%Z /\ (Z.abs (snd p) <= B)%Z) zs.

(** The decimal literal [q] as JavaScript reads it. *)
Definition literal (q : Q) : JS.num := Double.round q.

(** [(x[j] + x[i]) * (y[j] - y[i])] on whole numbers, and the sum of
    these terms in the order of the loop. *)
Definition zterm (zs : list (Z * Z)) (j i : nat) : Z :=
  ((fst (nth j zs (0, 0)) + fst (nth i zs (0, 0)))
   * (snd (nth j zs (0, 0)) - snd (nth i zs (0, 0))))%Z.

Definition zsum_from (zs : list (Z * Z)) (l : list nat) (acc : Z) : Z :=
  fold_left (fun a i => (a + zterm zs (prev (length zs) i) i)%Z) l acc.




(** [y] is [x] up to [k] relative rounding errors of [2 ^ -52], the
    spacing of the binary64 numbers. *)
Definition ulps (k : Z) (y x : Q) : Prop :=
  Qabs (y - x) <= inject_Z k * x * (1 # 4503599627370496).

(** The numbers the normalizer reads from [room] are moderate: a dimension
    other than zero has a magnitude between [2 ^ -10] and [2 ^ 20] feet, a
    positive area lies between [2 ^ -20] and [2 ^ 40] sq ft. *)
Definition moderate (room : RoomMetadata) : Prop :=
  (forall q, dim_width room = JS.VNum (JS.Fin q) -> ~ q == 0 ->
             2 ^ (-10) <= Qabs q /\ Qabs q <= 2 ^ 20)
  /\ (forall q, dim_length room = JS.VNum (JS.Fin q) -> ~ q == 0 ->
                2 ^ (-10) <= Qabs q /\ Qabs q <= 2 ^ 20)
  /\ (forall q, area_sqft room = JS.VNum (JS.Fin q) -> 0 < q ->
                2 ^ (-20) <= q /\ q <= 2 ^ 40).

(** The corners of the rectangle between the abscissas [x0] and [x1], of
    length [l], in the order the normalizer stores them. *)
Definition box (x0 x1 l : Q) : list (Q * Q) :=
  [ (x0, 0); (x1, 0); (x1, l); (x0, l) ].

(** The rooms [synth] are rectangles of positive width and length, the
    first one starting at [off] and each next one 20 to the right of the
    one before, up to the rounding of the additions. *)
Fixpoint laid_out (off : Q) (synth : list RoomMetadata) : Prop :=
  match synth with
  | [] => True
  | s :: rest =>
      exists x1 l off',
        off < x1 /\ 0 < l
        /\ polygon s = Some (fin_polygon (box off x1 l))
        /\ Qabs (off' - (x1 + 20)) <= 1 # 1024
        /\ laid_out off' rest
  end.

(** The image of the pixels under the similarity
    [(x, y) -> (k * x + dx, k * y + dy)], on whole numbers. *)
Definition similar_pixels (k dx dy : Z) (zs : list (Z * Z))
  : list (Z * Z) :=
  map (fun p => (k * fst p + dx, k * snd p + dy)%Z) zs.

(** ** Numbers *)

Lemma Qfloor_half_int (z : Z) : Qfloor (inject_Z z + (1 # 2)) = z.
Proof.
  apply Z.le_antisymm.
  - apply Z.lt_succ_r. rewrite Zlt_Qlt.
    eapply Qle_lt_trans; [apply Qfloor_le|].
    rewrite <- Z.add_1_r, inject_Z_plus. change (inject_Z 1) with 1. lra.
  - rewrite <- (Qfloor_Z z) at 1. apply Qfloor_resp_le. lra.
Qed.

Lemma round_max_10 (a : JS.num) :
  JS.round (JS.max (JS.Fin 10) a) = JS.max (JS.Fin 10) (JS.round a).
Proof.
  destruct a as [| | |q]; try reflexivity.
  unfold JS.max, JS.ltb, JS.cmp, JS.round. cbn [JS.isNaN orb].
  destruct (10 ?= q) eqn:Hc.
  - apply Qeq_alt in Hc.
    assert (Hz : Qfloor (q + (1 # 2)) = 10%Z).
    { rewrite <- Hc. reflexivity. }
    rewrite Hz. reflexivity.
  - apply Qlt_alt in Hc.
    assert (Hz : (10 <= Qfloor (q + (1 # 2)))%Z).
    { change 10%Z with (Qfloor (10 + (1 # 2))). apply Qfloor_resp_le. lra. }
    destruct (10 ?= inject_Z (Qfloor (q + (1 # 2)))) eqn:Hc2.
    + apply Qeq_alt in Hc2.
      change 10 with (inject_Z 10) in Hc2. rewrite inject_Z_injective in Hc2.
      rewrite <- Hc2. reflexivity.
    + reflexivity.
    + apply Qgt_alt in Hc2. change 10 with (inject_Z 10) in Hc2.
      rewrite <- Zlt_Qlt in Hc2. lia.
  - apply Qgt_alt in Hc.
    assert (Hz : (Qfloor (q + (1 # 2)) <= 10)%Z).
    { change 10%Z with (Qfloor (10 + (1 # 2))). apply Qfloor_resp_le. lra. }
    destruct (10 ?= inject_Z (Qfloor (q + (1 # 2)))) eqn:Hc2.
    + reflexivity.
    + apply Qlt_alt in Hc2. change 10 with (inject_Z 10) in Hc2.
      rewrite <- Zlt_Qlt in Hc2. lia.
    + reflexivity.
Qed.

(** ** The area calculator *)

Lemma flatten_acc (p : Polygon) (acc : list JS.num) :
  fold_left
    (fun acc slot =>
       match slot with
       | Some point => acc ++ [fst point; snd point]
       | None => acc
       end) p acc
  = acc ++ flatten p.
Proof.
  unfold flatten. revert acc.
  induction p as [|[pt|] p IH]; intro acc; cbn [fold_left].
  - now rewrite app_nil_r.
  - rewrite IH, (IH ([] ++ _)). now rewrite app_assoc.
  - apply IH.
Qed.

Lemma flatten_cons_some (pt : Point) (p : Polygon) :
  flatten (Some pt :: p) = fst pt :: snd pt :: flatten p.
Proof. unfold flatten at 1. cbn [fold_left]. now rewrite flatten_acc. Qed.

Lemma flatten_fin (pts : list (Q * Q)) :
  flatten (fin_polygon pts) = flat_points pts.
Proof.
  induction pts as [|pt pts IH]; [reflexivity|].
  cbn [fin_polygon map]. rewrite flatten_cons_some. cbn. f_equal. f_equal.
  exact IH.
Qed.

Lemma length_flat_points (pts : list (Q * Q)) :
  length (flat_points pts) = (2 * length pts)%nat.
Proof.
  induction pts as [|pt pts IH]; [reflexivity|].
  change (flat_points (pt :: pts))
    with (JS.Fin (fst pt) :: JS.Fin (snd pt) :: flat_points pts).
  cbn [length]. rewrite IH. lia.
Qed.

Lemma nth_flat_even (pts : list (Q * Q)) (i : nat) :
  (i < length pts)%nat ->
  nth (2 * i) (flat_points pts) JS.NaN = JS.Fin (fst (nth i pts (0, 0))).
Proof.
  revert i. induction pts as [|pt pts IH]; intros i Hi; cbn in Hi; [lia|].
  destruct i as [|i]; [reflexivity|].
  replace (2 * S i)%nat with (S (S (2 * i))) by lia.
  cbn. apply IH. lia.
Qed.

Lemma nth_flat_odd (pts : list (Q * Q)) (i : nat) :
  (i < length pts)%nat ->
  nth (S (2 * i)) (flat_points pts) JS.NaN = JS.Fin (snd (nth i pts (0, 0))).
Proof.
  revert i. induction pts as [|pt pts IH]; intros i Hi; cbn in Hi; [lia|].
  destruct i as [|i]; [reflexivity|].
  replace (S (2 * S i))%nat with (S (S (S (2 * i)))) by lia.
  cbn. apply IH. lia.
Qed.

Lemma at_index_even (pts : list (Q * Q)) (i : nat) :
  (i < length pts)%nat ->
  at_index (flat_points pts) (2 * Z.of_nat i)
  = JS.Fin (fst (nth i pts (0, 0))).
Proof.
  intro Hi. unfold at_index.
  destruct (2 * Z.of_nat i <? 0)%Z eqn:E; [apply Z.ltb_lt in E; lia|].
  replace (Z.to_nat (2 * Z.of_nat i)) with (2 * i)%nat by lia.
  now apply nth_flat_even.
Qed.

Lemma at_index_odd (pts : list (Q * Q)) (i : nat) :
  (i < length pts)%nat ->
  at_index (flat_points pts) (2 * Z.of_nat i + 1)
  = JS.Fin (snd (nth i pts (0, 0))).
Proof.
  intro Hi. unfold at_index.
  destruct (2 * Z.of_nat i + 1 <? 0)%Z eqn:E; [apply Z.ltb_lt in E; lia|].
  replace (Z.to_nat (2 * Z.of_nat i + 1)) with (S (2 * i))%nat by lia.
  now apply nth_flat_odd.
Qed.

Lemma area_step_fin (pts : list (Q * Q)) (acc : Q) (j i : nat) :
  (j < length pts)%nat -> (i < length pts)%nat ->
  area_step (flat_points pts) (JS.Fin acc, (2 * Z.of_nat j)%Z)
            (2 * Z.of_nat i)%Z
  = (JS.Fin (acc + term_at pts j i), (2 * Z.of_nat i)%Z).
Proof.
  intros Hj Hi. unfold area_step.
  rewrite !at_index_even, !at_index_odd by assumption.
  reflexivity.
Qed.

Lemma prev_S (n k : nat) : prev n (S k) = k.
Proof. unfold prev. cbn. apply Nat.sub_0_r. Qed.

Lemma area_loop_fin (pts : list (Q * Q)) (m k : nat) (acc : Q) :
  (k + m <= length pts)%nat -> (0 < length pts)%nat ->
  fold_left (area_step (flat_points pts))
            (map (fun k => (2 * Z.of_nat k)%Z) (seq k m))
            (JS.Fin acc, (2 * Z.of_nat (prev (length pts) k))%Z)
  = (JS.Fin (fold_left
               (fun a i => a + term_at pts (prev (length pts) i) i)
               (seq k m) acc),
     (2 * Z.of_nat (prev (length pts) (k + m)))%Z).
Proof.
  revert k acc. induction m as [|m IH]; intros k acc Hk Hn.
  - now rewrite Nat.add_0_r.
  - cbn [seq map fold_left].
    rewrite area_step_fin.
    + pose proof (IH (S k) (acc + term_at pts (prev (length pts) k) k)
                      ltac:(lia) Hn) as H.
      rewrite prev_S in H. rewrite H. now rewrite Nat.add_succ_comm.
    + unfold prev. destruct (k =? 0)%nat; lia.
    + lia.
Qed.

Lemma calculatePolygonArea_fin (pts : list (Q * Q)) :
  calculatePolygonArea (flatten (fin_polygon pts))
  = JS.Fin (Qabs (loop_sum pts / 2)).
Proof.
  rewrite flatten_fin. unfold calculatePolygonArea, loop_indices.
  rewrite length_flat_points, Nat.div2_succ_double.
  destruct (Nat.eq_dec (length pts) 0) as [E|E].
  - destruct pts; [reflexivity|discriminate].
  - replace (Z.of_nat (2 * length pts) - 2)%Z
      with (2 * Z.of_nat (prev (length pts) 0))%Z
      by (change (prev (length pts) 0) with (length pts - 1)%nat; lia).
    rewrite area_loop_fin by lia. reflexivity.
Qed.

Lemma fold_left_Qsum (f : nat -> Q) (l : list nat) (acc : Q) :
  fold_left (fun a i => a + f i) l acc == acc + Qsum (map f l).
Proof.
  revert acc. induction l as [|i l IH]; intro acc; cbn [fold_left map Qsum].
  - ring.
  - rewrite IH. ring.
Qed.

Lemma loop_sum_Qsum (pts : list (Q * Q)) :
  loop_sum pts
  == Qsum (map (fun i => term_at pts (prev (length pts) i) i)
               (seq 0 (length pts))).
Proof. unfold loop_sum. rewrite fold_left_Qsum. ring. Qed.

Lemma Qabs_half (a : Q) : Qabs (a / 2) == Qabs a / 2.
Proof.
  unfold Qdiv. rewrite Qabs_Qmult. reflexivity.
Qed.


Lemma nth_on_line (x0 y0 dx dy : Q) (ts : list Q) (i : nat) :
  (i < length ts)%nat ->
  nth i (on_line x0 y0 dx dy ts) (0, 0)
  = (x0 + nth i ts 0 * dx, y0 + nth i ts 0 * dy).
Proof.
  revert i. induction ts as [|t ts IH]; intros i Hi; cbn in Hi; [lia|].
  destruct i as [|i]; [reflexivity|]. cbn. apply IH. lia.
Qed.

Lemma term_at_on_line (x0 y0 dx dy : Q) (ts : list Q) (i j : nat) :
  (i < length ts)%nat -> (j < length ts)%nat ->
  term_at (on_line x0 y0 dx dy ts) j i
  == (2 * x0 * dy * nth j ts 0 + dx * dy * (nth j ts 0 * nth j ts 0))
     - (2 * x0 * dy * nth i ts 0 + dx * dy * (nth i ts 0 * nth i ts 0)).
Proof.
  intros Hi Hj. unfold term_at.
  rewrite !nth_on_line by assumption. cbn [fst snd]. ring.
Qed.

(** ** The drag handler *)

Lemma findIndex_from_unaddressed (roomId : JS.num) (rooms : list RoomMetadata)
  (i : nat) :
  existsb (fun ir => room_matches roomId (snd ir) (fst ir))
          (combine (seq i (length rooms)) rooms) = false ->
  findIndex_from (room_matches roomId) i rooms = (-1)%Z.
Proof.
  revert i. induction rooms as [|r rooms IH]; intros i H; [reflexivity|].
  cbn [length seq combine existsb fst snd] in H.
  apply orb_false_iff in H as [Hr Hrest].
  cbn [findIndex_from]. rewrite Hr. now apply IH.
Qed.

Lemma handleDragVertex_unaddressed (metadata : FloorPlanMetadata)
  (prevRooms : list RoomMetadata) (roomId : JS.num) (vertexIndex : Z)
  (newPos : Point) :
  addressed roomId prevRooms = false ->
  handleDragVertex metadata prevRooms roomId vertexIndex newPos = Unchanged.
Proof.
  intro H. unfold handleDragVertex, findIndex.
  now rewrite (findIndex_from_unaddressed _ _ _ H).
Qed.

(** C2 (as the code has it): when [roomId] addresses no room of the list,
    neither by [id] nor by position, the edit does nothing: the updater
    returns the room list it was given, the state of the editor is the one
    before, and nothing is passed to [onMetadataChange]; this for every
    vertex index and every position. *)
Theorem unaddressed_room_is_noop (metadata : FloorPlanMetadata)
  (st : State.t) (roomId : JS.num) (vertexIndex : Z) (newPos : Point) :
  addressed roomId (State.rooms st) = false ->
  handleDragVertex metadata (State.rooms st) roomId vertexIndex newPos
  = Unchanged
  /\ dragVertex metadata st roomId vertexIndex newPos = Next st None.
Proof.
  intro H. unfold dragVertex.
  rewrite (handleDragVertex_unaddressed _ _ _ _ _ H). split; reflexivity.
Qed.

Lemma unaddressed_room_is_noop_witness :
  addressed (JS.Fin 7) [sample_room 100 100 100] = false
  /\ dragVertex (sample_metadata [sample_room 100 100 100] 100)
                (sample_state [sample_room 100 100 100])
                (JS.Fin 7) 0 (fin_point (5, 5))
     = Next (sample_state [sample_room 100 100 100]) None.
Proof.
  split; [reflexivity|].
  apply (unaddressed_room_is_noop
           (sample_metadata [sample_room 100 100 100] 100)
           (sample_state [sample_room 100 100 100])).
  reflexivity.
Defined.

(** C2, as stated, fails for an out-of-range vertex index: on a room with
    a four-point polygon, index 4 appends a fifth vertex, the room list and
    the [area_sqft] of the room change, and a new aggregate is emitted. *)
Lemma out_of_range_index_is_not_noop :
  let room := sample_room 100 100 100 in
  let metadata := sample_metadata [room] 100 in
  match handleDragVertex metadata [room] (JS.Fin 0) 4 (fin_point (-50, 50))
  with
  | Updated [room'] emitted =>
      option_map (@length _) (polygon room) = Some 4%nat
      /\ option_map (@length _) (polygon room') = Some 5%nat
      /\ area_sqft room = JS.VNum (JS.Fin 100)
      /\ area_sqft room' = JS.VNum (JS.Fin 125)
      /\ total_area_sqft emitted = JS.Fin 125
  | _ => False
  end.
Proof. vm_compute. repeat split. Qed.

(** ** The aggregate *)

Lemma num_eq_refl (a : JS.num) : JS.num_eq a a.
Proof. destruct a; cbn; [exact I..|reflexivity]. Qed.

Lemma num_eq_sym (a b : JS.num) : JS.num_eq a b -> JS.num_eq b a.
Proof. destruct a, b; cbn; try tauto. intro H. now symmetry. Qed.

Lemma num_eq_trans (a b c : JS.num) :
  JS.num_eq a b -> JS.num_eq b c -> JS.num_eq a c.
Proof.
  destruct a, b, c; cbn; try tauto. intros H1 H2. now rewrite H1.
Qed.

Lemma add_comm (a b : JS.num) : JS.num_eq (a + b)%js (b + a)%js.
Proof. destruct a, b; cbn; try exact I. ring. Qed.




Lemma handleDragVertex_emitted (metadata : FloorPlanMetadata)
  (prevRooms : list RoomMetadata) (roomId : JS.num) (vertexIndex : Z)
  (newPos : Point) (updatedRooms : list RoomMetadata)
  (emitted : FloorPlanMetadata) :
  handleDragVertex metadata prevRooms roomId vertexIndex newPos
  = Updated updatedRooms emitted ->
  emitted = {| total_area_sqft := sum_area_sqft updatedRooms;
               rooms := updatedRooms;
               num_bedrooms := num_bedrooms metadata;
               num_bathrooms := num_bathrooms metadata |}.
Proof.
  unfold handleDragVertex.
  destruct (findIndex (room_matches roomId) prevRooms =? -1)%Z;
    [discriminate|].
  destruct (nth_error prevRooms _) as [room|]; [|discriminate].
  destruct (polygon room) as [oldPolygon|]; [|discriminate].
  destruct (reads_undefined oldPolygon vertexIndex); [discriminate|].
  intro H. injection H as <- <-. reflexivity.
Qed.




(** ** A valid edit *)

Lemma findIndex_from_first (roomId : JS.num) (k : nat) :
  forall (rooms : list RoomMetadata) (i : nat) (r : RoomMetadata),
    nth_error rooms k = Some r ->
    room_matches roomId r (i + k) = true ->
    existsb (fun ir => room_matches roomId (snd ir) (fst ir))
            (combine (seq i k) (firstn k rooms)) = false ->
    findIndex_from (room_matches roomId) i rooms = Z.of_nat (i + k).
Proof.
  induction k as [|k IH]; intros rooms i r Hnth Hm Hbefore.
  - destruct rooms as [|r0 rooms]; [discriminate|].
    injection Hnth as ->. rewrite Nat.add_0_r in *.
    cbn [findIndex_from]. now rewrite Hm.
  - destruct rooms as [|r0 rooms]; [discriminate|].
    cbn [nth_error] in Hnth.
    cbn [firstn seq combine existsb fst snd] in Hbefore.
    apply orb_false_iff in Hbefore as [H0 Hrest].
    cbn [findIndex_from]. rewrite H0.
    rewrite (IH rooms (S i) r Hnth); [f_equal; lia| |exact Hrest].
    now replace (S i + k)%nat with (i + S k)%nat by lia.
Qed.

Lemma findIndex_first (roomId : JS.num) (rooms : list RoomMetadata)
  (k : nat) (r : RoomMetadata) :
  nth_error rooms k = Some r ->
  room_matches roomId r k = true ->
  addressed roomId (firstn k rooms) = false ->
  findIndex (room_matches roomId) rooms = Z.of_nat k.
Proof.
  intros Hnth Hm Hbefore. unfold findIndex.
  apply (findIndex_from_first roomId k rooms 0 r Hnth Hm).
  unfold addressed in Hbefore.
  rewrite firstn_length_le in Hbefore; [exact Hbefore|].
  apply Nat.lt_le_incl, nth_error_Some. congruence.
Qed.

Lemma handleDragVertex_found (metadata : FloorPlanMetadata)
  (prevRooms : list RoomMetadata) (roomId : JS.num) (vertexIndex : Z)
  (newPos : Point) (k : nat) (r : RoomMetadata) (p : Polygon) :
  findIndex (room_matches roomId) prevRooms = Z.of_nat k ->
  nth_error prevRooms k = Some r ->
  polygon r = Some p ->
  reads_undefined p vertexIndex = false ->
  handleDragVertex metadata prevRooms roomId vertexIndex newPos
  = Updated
      (rooms_set prevRooms k (newRoom r p vertexIndex newPos))
      {| total_area_sqft :=
           sum_area_sqft
             (rooms_set prevRooms k (newRoom r p vertexIndex newPos));
         rooms := rooms_set prevRooms k (newRoom r p vertexIndex newPos);
         num_bedrooms := num_bedrooms metadata;
         num_bathrooms := num_bathrooms metadata |}.
Proof.
  intros Hk Hnth Hp Hu. unfold handleDragVertex. rewrite Hk.
  destruct (Z.of_nat k =? -1)%Z eqn:E; [apply Z.eqb_eq in E; lia|].
  rewrite Nat2Z.id, Hnth, Hp, Hu. reflexivity.
Qed.

Lemma nth_error_rooms_set (rooms : list RoomMetadata) (k : nat)
  (r r' : RoomMetadata) :
  nth_error rooms k = Some r ->
  nth_error (rooms_set rooms k r') k = Some r'.
Proof.
  revert k. induction rooms as [|r0 rooms IH]; intros [|k] H;
    try discriminate; cbn in *; auto.
Qed.



Lemma strict_eq_fin (a b : Q) :
  (JS.Fin a === JS.Fin b)%js = Qeq_bool a b.
Proof.
  unfold JS.strict_eq, JS.cmp. symmetry. destruct (a ?= b) eqn:E.
  - apply Qeq_bool_iff. now apply Qeq_alt.
  - apply not_true_is_false. intro H. apply Qeq_bool_iff, Qeq_alt in H.
    congruence.
  - apply not_true_is_false. intro H. apply Qeq_bool_iff, Qeq_alt in H.
    congruence.
Qed.


Lemma div_fin (a b : Q) :
  ~ b == 0 -> (JS.Fin a / JS.Fin b)%js = JS.Fin (a / b).
Proof.
  intro Hb. cbn [JS.div]. destruct (Qeq_bool b 0) eqn:E; [|reflexivity].
  now apply Qeq_bool_iff in E.
Qed.



Lemma Qround_wd (a b : Q) : a == b -> Qround a = Qround b.
Proof. intro H. unfold Qround. now rewrite H. Qed.

Lemma Qround_le (a b : Q) : a <= b -> Qround a <= Qround b.
Proof.
  intro H. unfold Qround. rewrite <- Zle_Qle. apply Qfloor_resp_le. lra.
Qed.



Lemma shoelace_spec_loop_sum (pts : list (Q * Q)) :
  Qabs (loop_sum pts / 2) == shoelace_spec pts.
Proof.
  unfold shoelace_spec. now rewrite Qabs_half, loop_sum_Qsum.
Qed.

Lemma area_rule_wd (a b c b' c' : Q) :
  b == b' -> c == c' -> area_rule a b c == area_rule a b' c'.
Proof.
  intros Hb Hc. unfold area_rule.
  rewrite (Qeqb_comp b b' Hb 0 0 (Qeq_refl 0)).
  apply Q.max_compat; [reflexivity|].
  assert (E : c * (a / (if Qeq_bool b' 0 then 1 else b))
              == c' * (a / (if Qeq_bool b' 0 then 1 else b'))).
  { destruct (Qeq_bool b' 0); rewrite Hc; [|rewrite Hb]; reflexivity. }
  rewrite (Qround_wd _ _ E). reflexivity.
Qed.

Lemma Qround_below (x : Q) : x < 21 # 2 -> Qround x <= 10.
Proof.
  intro H. unfold Qround. change 10 with (inject_Z 10).
  rewrite <- Zle_Qle. apply Z.lt_succ_r. rewrite Zlt_Qlt.
  eapply Qle_lt_trans; [apply Qfloor_le|].
  change (inject_Z (Z.succ 10)) with 11. lra.
Qed.

(** ** Re-applying an edit *)

Lemma set_point_same (pts : list (Q * Q)) (i : nat) :
  (i < length pts)%nat -> set_point pts i (nth i pts (0, 0)) = pts.
Proof.
  revert i. induction pts as [|pt pts IH]; intros i Hi; cbn in Hi; [lia|].
  destruct i as [|i]; [reflexivity|].
  unfold set_point in *. cbn. f_equal. apply IH. lia.
Qed.

Lemma set_point_twice (pts : list (Q * Q)) (i : nat) (p : Q * Q) :
  (i < length pts)%nat ->
  set_point (set_point pts i p) i p = set_point pts i p.
Proof.
  revert i. induction pts as [|pt pts IH]; intros i Hi; cbn in Hi; [lia|].
  destruct i as [|i]; [reflexivity|].
  unfold set_point in *. cbn. f_equal. apply IH. lia.
Qed.




Lemma Qround_int (z : Z) : Qround (inject_Z z) = inject_Z z.
Proof. unfold Qround. now rewrite Qfloor_half_int. Qed.

Lemma Qround_Qround (a : Q) : Qround (Qround a) = Qround a.
Proof. unfold Qround at 2 3. apply Qround_int. Qed.


Lemma reapply_Qround (A x m1 m2 : Q) :
  m1 == Qmax 10 (A * x) ->
  m2 == Qmax 10 (A * (Qround m1 / (if Qeq_bool A 0 then 1 else A))) ->
  Qround m2 = Qround m1.
Proof.
  intros E1 E2. destruct (Qeq_bool A 0) eqn:E.
  - apply Qeq_bool_iff in E.
    assert (H1 : m1 == 10).
    { rewrite E1, E. apply Q.max_l. lra. }
    assert (H2 : m2 == 10).
    { rewrite E2, E. apply Q.max_l. lra. }
    now rewrite (Qround_wd _ _ H1), (Qround_wd _ _ H2).
  - apply Qeq_bool_neq in E.
    assert (H1 : 10 <= Qround m1).
    { change 10 with (Qround 10). apply Qround_le. rewrite E1.
      apply Q.le_max_l. }
    assert (H2 : m2 == Qround m1).
    { rewrite E2. rewrite Q.max_r.
      - field. exact E.
      - setoid_replace (A * (Qround m1 / A)) with (Qround m1)
          by (field; exact E).
        exact H1. }
    rewrite (Qround_wd _ _ H2). apply Qround_Qround.
Qed.

Lemma add_fin_inv (a b : JS.num) (t : Q) :
  JS.num_eq (a + b)%js (JS.Fin t) ->
  exists x y, a = JS.Fin x /\ b = JS.Fin y /\ x + y == t.
Proof.
  destruct a as [| | |x], b as [| | |y]; cbn; try contradiction.
  intro H. now exists x, y.
Qed.

Lemma total_of_rooms_set (rooms : list RoomMetadata) :
  forall (k : nat) (r r' : RoomMetadata) (a q t : Q),
    nth_error rooms k = Some r ->
    area_sqft r = JS.VNum (JS.Fin a) ->
    area_sqft r' = JS.VNum (JS.Fin q) ->
    JS.num_eq (total_of rooms) (JS.Fin t) ->
    JS.num_eq (total_of (rooms_set rooms k r')) (JS.Fin (t - a + q)).
Proof.
  induction rooms as [|r0 rooms IH]; intros k r r' a q t Hnth Ha Hq Ht;
    [destruct k; discriminate|].
  cbn [total_of] in Ht.
  apply add_fin_inv in Ht as (x & y & Hx & Hy & Hxy).
  destruct k as [|k]; cbn [nth_error] in Hnth.
  - injection Hnth as ->. cbn [rooms_set total_of].
    rewrite Hq, Hy. rewrite Ha in Hx. cbn in Hx. injection Hx as <-.
    cbn. lra.
  - cbn [rooms_set total_of]. rewrite Hx.
    assert (Hrest : JS.num_eq (total_of rooms) (JS.Fin y))
      by (rewrite Hy; apply Qeq_refl).
    pose proof (IH k r r' a q y Hnth Ha Hq Hrest) as H.
    destruct (total_of (rooms_set rooms k r')); cbn in H; try contradiction.
    cbn. lra.
Qed.

(** ** The view frame *)

Lemma length_rooms_set (rooms : list RoomMetadata) (k : nat)
  (r' : RoomMetadata) :
  length (rooms_set rooms k r') = length rooms.
Proof.
  revert k. induction rooms as [|r0 rooms IH]; intros [|k]; cbn;
    try reflexivity. f_equal. apply IH.
Qed.

Lemma handleDragVertex_updated (metadata : FloorPlanMetadata)
  (prevRooms : list RoomMetadata) (roomId : JS.num) (vertexIndex : Z)
  (newPos : Point) (updatedRooms : list RoomMetadata)
  (emitted : FloorPlanMetadata) :
  handleDragVertex metadata prevRooms roomId vertexIndex newPos
  = Updated updatedRooms emitted ->
  exists k r', updatedRooms = rooms_set prevRooms k r'.
Proof.
  unfold handleDragVertex.
  destruct (findIndex (room_matches roomId) prevRooms =? -1)%Z;
    [discriminate|].
  destruct (nth_error prevRooms _) as [room|]; [|discriminate].
  destruct (polygon room) as [oldPolygon|]; [|discriminate].
  destruct (reads_undefined oldPolygon vertexIndex); [discriminate|].
  intro H. injection H as <- _. eexists _, _. reflexivity.
Qed.

Lemma autoScale_bounds (rooms rooms' : list RoomMetadata) (d : Size) :
  length rooms' = length rooms ->
  bounds_rooms rooms' = bounds_rooms rooms ->
  autoScale rooms' d = autoScale rooms d.
Proof. intros Hl Hb. unfold autoScale. now rewrite Hl, Hb. Qed.

(** C1 (as the code has it): a drag that addresses no room leaves the whole
    state of the editor, the fit included, as it was and emits nothing. A
    drag that edits a room replaces the room list, and the effect on
    [[rooms, dimensions]] then sets the fit to the one computed from the new
    room list and the unchanged viewport size (keeping the previous fit only
    where the effect returns early); the fit is therefore the same after the
    edit when the fit before was the one of the rooms before and the edit
    leaves the bounding box of all vertices as it was. *)
Theorem drag_refits_the_stage (metadata : FloorPlanMetadata) (st : State.t)
  (roomId : JS.num) (vertexIndex : Z) (newPos : Point) (st' : State.t)
  (emitted : option FloorPlanMetadata) :
  dragVertex metadata st roomId vertexIndex newPos = Next st' emitted ->
  match emitted with
  | None => st' = st
  | Some m =>
      State.rooms st' = rooms m
      /\ State.dimensions st' = State.dimensions st
      /\ State.stageConfig st'
         = match autoScale (rooms m) (State.dimensions st) with
           | Some c => c
           | None => State.stageConfig st
           end
      /\ (run_autoScale st = st ->
          bounds_rooms (rooms m) = bounds_rooms (State.rooms st) ->
          State.stageConfig st' = State.stageConfig st)
  end.
Proof.
  unfold dragVertex.
  destruct (handleDragVertex metadata (State.rooms st) roomId vertexIndex
                             newPos) as [|updatedRooms m|] eqn:E;
    [| |discriminate].
  - intro H. injection H as <- <-. reflexivity.
  - intro H. injection H as <- <-.
    pose proof (handleDragVertex_emitted _ _ _ _ _ _ _ E) as Em.
    assert (Hr : rooms m = updatedRooms) by (subst m; reflexivity).
    rewrite Hr.
    assert (Hfit : State.stageConfig
                     (run_autoScale
                        {| State.rooms := updatedRooms;
                           State.dimensions := State.dimensions st;
                           State.stageConfig := State.stageConfig st |})
                   = match autoScale updatedRooms (State.dimensions st) with
                     | Some c => c
                     | None => State.stageConfig st
                     end).
    { unfold run_autoScale. cbn [State.rooms State.dimensions].
      now destruct (autoScale updatedRooms (State.dimensions st)). }
    split; [|split; [|split]].
    + unfold run_autoScale. cbn [State.rooms State.dimensions].
      now destruct (autoScale updatedRooms (State.dimensions st)).
    + unfold run_autoScale. cbn [State.rooms State.dimensions].
      now destruct (autoScale updatedRooms (State.dimensions st)).
    + exact Hfit.
    + intros Hfixed Hb. rewrite Hfit.
      destruct (handleDragVertex_updated _ _ _ _ _ _ _ E) as (k & r' & ->).
      rewrite (autoScale_bounds (State.rooms st) _ _
                                (length_rooms_set _ _ _) Hb).
      unfold run_autoScale in Hfixed.
      destruct (autoScale (State.rooms st) (State.dimensions st));
        [|reflexivity].
      now rewrite <- Hfixed.
Qed.

Lemma drag_refits_the_stage_witness :
  let room :=
    polygon_room [(0, 0); (100, 0); (100, 100); (50, 60); (0, 100)] 100 in
  let st := run_autoScale (sample_state [room]) in
  exists st' m,
    dragVertex (sample_metadata [room] 100) st (JS.Fin 0) 3
               (fin_point (50, 40))
    = Next st' (Some m)
    /\ run_autoScale st = st
    /\ bounds_rooms (rooms m) = bounds_rooms (State.rooms st)
    /\ nth_error (State.rooms st') 0 <> nth_error (State.rooms st) 0
    /\ State.stageConfig st' = State.stageConfig st.
Proof.
  cbv zeta.
  destruct (dragVertex
              (sample_metadata
                 [polygon_room
                    [(0, 0); (100, 0); (100, 100); (50, 60); (0, 100)] 100]
                 100)
              (run_autoScale
                 (sample_state
                    [polygon_room
                       [(0, 0); (100, 0); (100, 100); (50, 60); (0, 100)]
                       100]))
              (JS.Fin 0) 3 (fin_point (50, 40)))
    as [st' [m|]|] eqn:E; try (vm_compute in E; discriminate E).
  exists st', m. split; [reflexivity|].
  pose proof (drag_refits_the_stage _ _ _ _ _ _ _ E) as (_ & _ & _ & Hsame).
  assert (Hfixed :
            run_autoScale
              (run_autoScale
                 (sample_state
                    [polygon_room
                       [(0, 0); (100, 0); (100, 100); (50, 60); (0, 100)]
                       100]))
            = run_autoScale
                (sample_state
                   [polygon_room
                      [(0, 0); (100, 0); (100, 100); (50, 60); (0, 100)]
                      100])) by reflexivity.
  assert (Hbox :
            bounds_rooms (rooms m)
            = bounds_rooms
                (State.rooms
                   (run_autoScale
                      (sample_state
                         [polygon_room
                            [(0, 0); (100, 0); (100, 100); (50, 60);
                             (0, 100)] 100])))).
  { vm_compute in E. injection E as _ <-. reflexivity. }
  split; [exact Hfixed|]. split; [exact Hbox|].
  split; [|exact (Hsame Hfixed Hbox)].
  vm_compute in E. injection E as <- _. discriminate.
Defined.

(** C1, as stated, fails: on a canvas of 400 by 500 showing one room of
    100 by 100 at scale 2, dragging a corner out to (300, 300) makes the
    effect set the scale to 16/15 and move the origin of the stage. *)
Lemma drag_changes_the_fit :
  let st := run_autoScale (sample_state [sample_room 100 100 100]) in
  match dragVertex (sample_metadata [sample_room 100 100 100] 100) st
                   (JS.Fin 0) 2 (fin_point (300, 300))
  with
  | Next st' (Some _) =>
      State.dimensions st' = State.dimensions st
      /\ JS.num_eq (scale (State.stageConfig st)) (JS.Fin 2)
      /\ JS.num_eq (x (State.stageConfig st)) (JS.Fin 100)
      /\ JS.num_eq (y (State.stageConfig st)) (JS.Fin 150)
      /\ JS.num_eq (scale (State.stageConfig st')) (JS.Fin (16 # 15))
      /\ JS.num_eq (x (State.stageConfig st')) (JS.Fin 40)
      /\ JS.num_eq (y (State.stageConfig st')) (JS.Fin 90)
      /\ ~ JS.num_eq (scale (State.stageConfig st'))
                     (scale (State.stageConfig st))
  | _ => False
  end.
Proof.
  vm_compute. repeat split. discriminate.
Qed.

(** ** The viewport fit *)








Lemma min_fin (a b : Q) :
  exists m, JS.min (JS.Fin a) (JS.Fin b) = JS.Fin m /\ m == Qmin a b.
Proof.
  unfold JS.min, JS.ltb, JS.cmp. cbn [JS.isNaN orb].
  destruct (b ?= a) eqn:E.
  - apply Qeq_alt in E. exists a. split; [reflexivity|].
    symmetry. apply Q.min_l. rewrite E. apply Qle_refl.
  - apply Qlt_alt in E. exists b. split; [reflexivity|].
    symmetry. apply Q.min_r. now apply Qlt_le_weak.
  - apply Qgt_alt in E. exists a. split; [reflexivity|].
    symmetry. apply Q.min_l. now apply Qlt_le_weak.
Qed.


Lemma truthy_fin (v : Q) : ~ v == 0 -> JS.truthy (JS.Fin v) = true.
Proof.
  intro H. unfold JS.truthy. cbn [JS.isNaN orb]. rewrite strict_eq_fin.
  destruct (Qeq_bool v 0) eqn:E; [|reflexivity].
  now apply Qeq_bool_iff in E.
Qed.




(** ** The normalizer *)


Lemma footprint_area (off w l : Q) :
  0 < w -> 0 < l ->
  exists A,
    calculatePolygonArea (flatten (fin_polygon (footprint off w l)))
    = JS.Fin A
    /\ A == w * l /\ 0 < A.
Proof.
  intros Hw Hl. rewrite calculatePolygonArea_fin. eexists. split; [reflexivity|].
  assert (E : Qabs (loop_sum (footprint off w l) / 2) == w * l).
  { assert (Hpos : 0 <= w * l) by (apply Qmult_le_0_compat; lra).
    rewrite <- (Qabs_pos (w * l)) by exact Hpos.
    rewrite <- (Qabs_opp (w * l)). apply Qabs_wd.
    unfold loop_sum, footprint, term_at, prev.
    cbn [length seq fold_left nth Nat.eqb Nat.sub fst snd]. field. }
  split; [exact E|]. rewrite E.
  apply Qmult_lt_0_compat; assumption.
Qed.

Lemma guard_fin (v : Q) :
  exists w,
    guard (JS.Fin v) = JS.Fin w
    /\ 0 < w /\ (0 < v -> w = v) /\ (v <= 0 -> w = 150).
Proof.
  unfold guard, JS.leb, JS.cmp. cbn [JS.isNaN orb].
  destruct (v ?= 0) eqn:E.
  - apply Qeq_alt in E. exists 150. repeat split; auto; lra.
  - apply Qlt_alt in E. exists 150. repeat split; auto; lra.
  - apply Qgt_alt in E. exists v. repeat split; auto; lra.
Qed.

Lemma guard_substitutes (v : JS.num) :
  JS.isNaN v = true \/ (v <= JS.Fin 0)%js = true -> guard v = JS.Fin 150.
Proof.
  unfold guard. intros [-> | ->]; [reflexivity|]. now rewrite orb_true_r.
Qed.

Lemma safeArea_clone (room : RoomMetadata) :
  exists a,
    safeArea (clone_room room) = JS.Fin a
    /\ 0 < a
    /\ (forall q, area_sqft room = JS.VNum (JS.Fin q) -> 0 < q -> a = q)
    /\ ((forall q, area_sqft room = JS.VNum (JS.Fin q) -> ~ 0 < q) ->
        a = 100).
Proof.
  assert (Hdefault :
            (forall q, area_sqft room = JS.VNum (JS.Fin q) -> ~ 0 < q) ->
            exists a,
              JS.Fin 100 = JS.Fin a
              /\ 0 < a
              /\ (forall q, area_sqft room = JS.VNum (JS.Fin q) -> 0 < q ->
                            a = q)
              /\ ((forall q, area_sqft room = JS.VNum (JS.Fin q) -> ~ 0 < q) ->
                  a = 100)).
  { intro Hno. exists 100. split; [reflexivity|]. split; [lra|]. split.
    - intros q Hq Hpos. exfalso. exact (Hno q Hq Hpos).
    - reflexivity. }
  unfold safeArea, clone_room. cbn [area_sqft].
  destruct (area_sqft room) as [| |[| | |q]] eqn:Ea;
    cbn [JS.json_roundtrip JS.is_number JS.to_number andb];
    try (apply Hdefault; discriminate).
  unfold JS.gtb, JS.ltb, JS.cmp. destruct (0 ?= q) eqn:E.
  - apply Qeq_alt in E. apply Hdefault. intros q' H. injection H as <-. lra.
  - apply Qlt_alt in E. exists q. split; [reflexivity|]. split; [exact E|].
    split.
    + intros q' H _. now injection H as <-.
    + intro H. exfalso. exact (H q eq_refl E).
  - apply Qgt_alt in E. apply Hdefault. intros q' H. injection H as <-. lra.
Qed.

Lemma dim_width_clone (room : RoomMetadata) :
  dim_width (clone_room room) = JS.json_roundtrip (dim_width room).
Proof. unfold dim_width, clone_room. cbn. now destruct (dimensions room). Qed.

Lemma dim_length_clone (room : RoomMetadata) :
  dim_length (clone_room room) = JS.json_roundtrip (dim_length room).
Proof. unfold dim_length, clone_room. cbn. now destruct (dimensions room). Qed.

(** After the round trip a dimension is truthy exactly when it is a finite
    number other than zero. *)
Lemma truthy_roundtrip (v : JS.value) :
  (exists q, v = JS.VNum (JS.Fin q) /\ ~ q == 0
             /\ JS.truthy_value (JS.json_roundtrip v) = true
             /\ JS.to_number (JS.json_roundtrip v) = JS.Fin q)
  \/ (JS.truthy_value (JS.json_roundtrip v) = false
      /\ forall q, v = JS.VNum (JS.Fin q) -> q == 0).
Proof.
  destruct v as [| |[| | |q]]; cbn [JS.json_roundtrip JS.truthy_value];
    try (right; split; [reflexivity|discriminate]).
  unfold JS.truthy. cbn [JS.isNaN orb]. rewrite strict_eq_fin.
  destruct (Qeq_bool q 0) eqn:E.
  - right. split; [reflexivity|]. intros q' H. injection H as <-.
    now apply Qeq_bool_iff.
  - left. exists q. apply Qeq_bool_neq in E. repeat split; auto.
Qed.

Lemma pos_nonzero (q : Q) : 0 < q -> ~ q == 0.
Proof. intros H E. rewrite E in H. exact (Qlt_irrefl 0 H). Qed.

Section NormalizerProofs.

Variable Math_sqrt : Q -> Q.
Hypothesis Math_sqrt_pos : forall q, 0 < q -> 0 < Math_sqrt q.

Lemma raw_w_clone (room : RoomMetadata) (a : Q) :
  safeArea (clone_room room) = JS.Fin a -> 0 < a ->
  exists v,
    raw_w Math_sqrt (clone_room room) = JS.Fin v
    /\ ~ v == 0
    /\ (forall q, dim_width room = JS.VNum (JS.Fin q) -> ~ q == 0 ->
                  v = q * 15)
    /\ (JS.truthy_value (dim_width room) = false -> v = Math_sqrt a * 15).
Proof.
  intros Ha Hpos. unfold raw_w. rewrite dim_width_clone, Ha.
  destruct (truthy_roundtrip (dim_width room))
    as [(q & Hq & Hnz & -> & ->)|(-> & Hz)].
  - exists (q * 15). cbn [JS.mul]. repeat split.
    + intro H. apply Hnz. lra.
    + intros q' H. rewrite Hq in H. now injection H as <-.
    + rewrite Hq. cbn [JS.truthy_value]. unfold JS.truthy.
      cbn [JS.isNaN orb]. rewrite strict_eq_fin.
      destruct (Qeq_bool q 0) eqn:E; [|discriminate].
      apply Qeq_bool_iff in E. contradiction.
  - exists (Math_sqrt a * 15). unfold JS.sqrt.
    destruct (Qle_bool 0 a) eqn:E.
    + cbn [JS.mul]. pose proof (Math_sqrt_pos a Hpos). repeat split.
      * intro H0. lra.
      * intros q Hq Hnz. exfalso. apply Hnz. now apply Hz.
    + assert (Qle_bool 0 a = true) by (apply Qle_bool_iff; lra). congruence.
Qed.


Lemma raw_l_clone (room : RoomMetadata) (a v : Q) :
  safeArea (clone_room room) = JS.Fin a ->
  raw_w Math_sqrt (clone_room room) = JS.Fin v ->
  ~ v == 0 ->
  exists u,
    raw_l Math_sqrt (clone_room room) = JS.Fin u
    /\ (forall q, dim_length room = JS.VNum (JS.Fin q) -> ~ q == 0 ->
                  u = q * 15)
    /\ (JS.truthy_value (dim_length room) = false ->
        u = a / (v / 15) * 15).
Proof.
  intros Ha Hv Hnz. unfold raw_l. rewrite dim_length_clone, Ha, Hv.
  destruct (truthy_roundtrip (dim_length room))
    as [(q & Hq & Hqnz & -> & ->)|(-> & Hz)].
  - exists (q * 15). cbn [JS.mul]. repeat split.
    + intros q' H. rewrite Hq in H. now injection H as <-.
    + rewrite Hq. cbn [JS.truthy_value]. unfold JS.truthy.
      cbn [JS.isNaN orb]. rewrite strict_eq_fin.
      destruct (Qeq_bool q 0) eqn:E; [|discriminate].
      apply Qeq_bool_iff in E. contradiction.
  - exists (a / (v / 15) * 15).
    rewrite (div_fin v 15) by discriminate.
    rewrite div_fin.
    + cbn [JS.mul]. repeat split.
      intros q Hq Hqnz. exfalso. apply Hqnz. now apply Hz.
    + intro H. apply Hnz.
      setoid_replace v with (v / 15 * 15) by (field; discriminate).
      rewrite H. ring.
Qed.

(** What the loop body does to a cloned room that lacks a polygon: [a] is
    the safe area, [v] the width as first computed, [w] and [l] the width
    and length after the guards. *)
Lemma normalize_room_synth (off : Q) (room : RoomMetadata) :
  needs_polygon room = true ->
  exists a v w l,
    safeArea (clone_room room) = JS.Fin a /\ 0 < a
    /\ 0 < w /\ 0 < l
    /\ polygon (fst (normalize_room Math_sqrt (JS.Fin off) (clone_room room)))
       = Some (fin_polygon (footprint off w l))
    /\ snd (normalize_room Math_sqrt (JS.Fin off) (clone_room room))
       = JS.Fin (off + (w + 20))
    /\ (forall q, area_sqft room = JS.VNum (JS.Fin q) -> 0 < q -> a = q)
    /\ (0 < v -> w = v)
    /\ (forall q, dim_width room = JS.VNum (JS.Fin q) -> 0 < q -> v = q * 15)
    /\ (JS.truthy_value (dim_width room) = false -> v = Math_sqrt a * 15)
    /\ (forall q, dim_length room = JS.VNum (JS.Fin q) -> 0 < q ->
                  l = q * 15)
    /\ (JS.truthy_value (dim_length room) = false -> 0 < v ->
        l = a / (v / 15) * 15).
Proof.
  intro Hneeds.
  destruct (safeArea_clone room) as (a & Ha & Hpos & Ha1 & _).
  destruct (raw_w_clone room a Ha Hpos) as (v & Hv & Hvnz & Hv1 & Hv2).
  destruct (raw_l_clone room a v Ha Hv Hvnz) as (u & Hu & Hu1 & Hu2).
  destruct (guard_fin v) as (w & Hw & Hwpos & Hw1 & Hw2).
  destruct (guard_fin u) as (l & Hl & Hlpos & Hl1 & Hl2).
  assert (Hneeds' : needs_polygon (clone_room room) = true) by exact Hneeds.
  exists a, v, w, l.
  split; [exact Ha|]. split; [exact Hpos|].
  split; [exact Hwpos|]. split; [exact Hlpos|].
  unfold normalize_room. rewrite Hneeds'. unfold fallback_w, fallback_l.
  rewrite Hv, Hu, Hw, Hl. cbn [fst snd polygon].
  split; [reflexivity|]. split; [reflexivity|].
  split; [exact Ha1|]. split; [exact Hw1|].
  split; [|split; [|split]].
  - intros q Hq Hqpos. apply Hv1; [exact Hq|]. now apply pos_nonzero.
  - exact Hv2.
  - intros q Hq Hqpos.
    pose proof (Hu1 q Hq (pos_nonzero q Hqpos)) as Eu.
    rewrite Hl1; [exact Eu|]. rewrite Eu. lra.
  - intros Hf Hvpos. rewrite <- (Hu2 Hf). apply Hl1. rewrite (Hu2 Hf).
    apply Qmult_lt_0_compat; [|lra].
    assert (H15 : 0 < v / 15) by (apply Qlt_shift_div_l; lra).
    apply Qlt_shift_div_l; [exact H15|]. now rewrite Qmult_0_l.
Qed.


Lemma normalize_from_placed (rooms : list RoomMetadata) :
  forall off,
    placed_from off
      (synthesized rooms
         (normalize_from Math_sqrt (JS.Fin off) (map clone_room rooms))).
Proof.
  induction rooms as [|room rooms IH]; intro off; [exact I|].
  cbn [map normalize_from].
  destruct (normalize_room Math_sqrt (JS.Fin off) (clone_room room))
    as [room' off'] eqn:E.
  unfold synthesized. cbn [combine filter fst].
  destruct (needs_polygon room) eqn:Hneeds.
  - destruct (normalize_room_synth off room Hneeds)
      as (a & v & w & l & _ & _ & Hw & Hl & Hp & Ho & _).
    rewrite E in Hp, Ho. cbn [fst snd] in Hp, Ho. subst off'.
    cbn [map snd placed_from]. exists w, l.
    split; [exact Hw|]. split; [exact Hl|]. split; [exact Hp|]. apply IH.
  - unfold normalize_room in E.
    change (needs_polygon (clone_room room)) with (needs_polygon room) in E.
    rewrite Hneeds in E. injection E as <- <-. apply IH.
Qed.


Lemma placed_from_Forall (synth : list RoomMetadata) :
  forall off,
    placed_from off synth ->
    Forall (fun s => exists o w l,
                0 < w /\ 0 < l
                /\ polygon s = Some (fin_polygon (footprint o w l)))
           synth.
Proof.
  induction synth as [|s synth IH]; intros off H; [constructor|].
  cbn [placed_from] in H. destruct H as (w & l & Hw & Hl & Hp & Hrest).
  constructor; [now exists off, w, l|]. now apply (IH (off + (w + 20))).
Qed.

Lemma footprint_shoelace (off w l : Q) :
  0 < w -> 0 < l -> shoelace_spec (footprint off w l) == w * l.
Proof.
  intros Hw Hl. destruct (footprint_area off w l Hw Hl) as (A & HA & EA & _).
  rewrite calculatePolygonArea_fin in HA. injection HA as <-.
  now rewrite <- shoelace_spec_loop_sum.
Qed.

End NormalizerProofs.

(** ** The 3D view *)

(** C9 fails on the code.  The offset computed for a room has the height
    [(floor - 1) * 8], so the offsets of a room on floor 1 and of a room
    on floor 2 differ by one wall height; but [Room] mounts its group at
    height 0 whatever the offset, so every shell of the scene stands on
    the ground, and the shells of those two rooms are at the same height. *)
Theorem shells_ignore_the_floor (Math_sqrt : Q -> Q)
  (offset : FloorPlan3D.Vector3) :
  (forall rooms,
      Forall (fun s => FloorPlan3D.shell_bottom s = JS.Fin 0
                       /\ FloorPlan3D.depth s = FloorPlan3D.wallHeight)
             (FloorPlan3D.shells Math_sqrt offset rooms))
  /\ JS.num_eq
       (FloorPlan3D.y (FloorPlan3D.roomOffset Math_sqrt offset
                                              (storey_room 1) 0))
       (JS.Fin 0)
  /\ JS.num_eq
       (FloorPlan3D.y (FloorPlan3D.roomOffset Math_sqrt offset
                                              (storey_room 2) 1))
       (JS.Fin 8)
  /\ map FloorPlan3D.shell_bottom
         (FloorPlan3D.shells Math_sqrt offset
                             [storey_room 1; storey_room 2])
     = [JS.Fin 0; JS.Fin 0].
Proof.
  split; [|split; [|split]]; try reflexivity.
  intro rooms. unfold FloorPlan3D.shells. generalize 0%nat.
  induction rooms as [|room rooms IH]; intro i; cbn; constructor.
  - split; reflexivity.
  - apply IH.
Qed.

(** ** Room colours *)

Lemma lower_lower (c : Ascii.ascii) :
  RoomColor.lower (RoomColor.lower c) = RoomColor.lower c.
Proof. destruct c as [[] [] [] [] [] [] [] []]; reflexivity. Qed.

Lemma lower_upper (c : Ascii.ascii) :
  RoomColor.lower (upper c) = RoomColor.lower c.
Proof. destruct c as [[] [] [] [] [] [] [] []]; reflexivity. Qed.

Lemma toLowerCase_idem (s : string) :
  RoomColor.toLowerCase (RoomColor.toLowerCase s) = RoomColor.toLowerCase s.
Proof.
  induction s as [|c s IH]; [reflexivity|].
  cbn. now rewrite lower_lower, IH.
Qed.

Lemma toLowerCase_upper (s : string) :
  RoomColor.toLowerCase (toUpperCase s) = RoomColor.toLowerCase s.
Proof.
  induction s as [|c s IH]; [reflexivity|].
  cbn. now rewrite lower_upper, IH.
Qed.

Lemma toLowerCase_app (a b : string) :
  RoomColor.toLowerCase (a ++ b)
  = (RoomColor.toLowerCase a ++ RoomColor.toLowerCase b)%string.
Proof.
  induction a as [|c a IH]; [reflexivity|]. cbn. now rewrite IH.
Qed.

Lemma prefix_app (k post : string) : String.prefix k (k ++ post) = true.
Proof.
  induction k as [|c k IH]; [now destruct post|].
  cbn. destruct (Ascii.ascii_dec c c) as [_|H]; [exact IH|now elim H].
Qed.

Lemma includes_app (pre k post : string) :
  RoomColor.includes (pre ++ k ++ post) k = true.
Proof.
  induction pre as [|c pre IH].
  - cbn [String.append]. destruct (k ++ post)%string eqn:E;
      cbn [RoomColor.includes]; rewrite <- E, prefix_app; reflexivity.
  - cbn [String.append RoomColor.includes]. rewrite IH.
    now destruct (String.prefix k _).
Qed.

Lemma first_color_first (lower : string) :
  forall before key color after,
    RoomColor.includes lower key = true ->
    (forall k c, In (k, c) before -> RoomColor.includes lower k = false) ->
    RoomColor.first_color lower (before ++ (key, color) :: after)
    = Some color.
Proof.
  induction before as [|[k c] before IH]; intros key color after Hk Hb.
  - cbn. now rewrite Hk.
  - cbn. rewrite (Hb k c (or_introl eq_refl)).
    apply IH; [exact Hk|]. intros k' c' Hin. apply (Hb k' c'). now right.
Qed.

(** X1: the first keyword of the table that the lower-cased type contains
    decides the colour, whatever later keywords it contains as well. *)
Theorem getRoomColor_first_match (type key color : string)
  (before after : list (string * string)) :
  RoomColor.ROOM_COLORS = before ++ (key, color) :: after ->
  RoomColor.includes (RoomColor.toLowerCase type) key = true ->
  (forall k c,
      In (k, c) before ->
      RoomColor.includes (RoomColor.toLowerCase type) k = false) ->
  RoomColor.getRoomColor type = color.
Proof.
  intros Htable Hk Hb. unfold RoomColor.getRoomColor. rewrite Htable.
  now rewrite (first_color_first _ before key color after Hk Hb).
Qed.

Lemma getRoomColor_first_match_witness :
  RoomColor.getRoomColor "Open Kitchen / Dining" = "#c8956c"%string.
Proof.
  apply (getRoomColor_first_match
           "Open Kitchen / Dining" "kitchen" "#c8956c"
           [("bedroom", "#6b8cae"); ("bathroom", "#7aadba")]%string
           [("living", "#a3b18a"); ("hall", "#b8a9c9"); ("dining", "#d4a574");
            ("balcony", "#8fb996"); ("corridor", "#9e9e9e");
            ("default", "#888888")]%string).
  - reflexivity.
  - reflexivity.
  - intros k c [H|[H|[]]]; injection H as <- _; reflexivity.
Defined.

(** X2: the colour does not depend on the case of the letters of the
    type. *)
Theorem getRoomColor_ignores_case (type : string) :
  RoomColor.getRoomColor (RoomColor.toLowerCase type)
  = RoomColor.getRoomColor type
  /\ RoomColor.getRoomColor (toUpperCase type) = RoomColor.getRoomColor type.
Proof.
  unfold RoomColor.getRoomColor.
  now rewrite toLowerCase_idem, toLowerCase_upper.
Qed.

(** X3: a type that contains the word bedroom, in any mix of upper and
    lower case and with anything before and after it, gets the colour of
    bedrooms. *)
Theorem getRoomColor_bedroom (pre word post : string) :
  RoomColor.toLowerCase word = "bedroom"%string ->
  RoomColor.getRoomColor (pre ++ word ++ post) = "#6b8cae"%string.
Proof.
  intro Hw. unfold RoomColor.getRoomColor.
  rewrite !toLowerCase_app, Hw. cbn [RoomColor.ROOM_COLORS RoomColor.first_color].
  now rewrite includes_app.
Qed.

Lemma getRoomColor_bedroom_witness :
  RoomColor.getRoomColor ("Master " ++ "BedRoom" ++ " with bathroom")
  = "#6b8cae"%string.
Proof. apply getRoomColor_bedroom. reflexivity. Defined.

(** X4: the result is always one of the nine colours of the table, and it
    is the default grey exactly when the lower-cased type contains none of
    the eight room keywords. *)
Theorem getRoomColor_default (type : string) :
  In (RoomColor.getRoomColor type) (map snd RoomColor.ROOM_COLORS)
  /\ (RoomColor.getRoomColor type = "#888888"%string
      <-> forall key,
            In key ["bedroom"; "bathroom"; "kitchen"; "living"; "hall";
                    "dining"; "balcony"; "corridor"]%string ->
            RoomColor.includes (RoomColor.toLowerCase type) key = false).
Proof.
  unfold RoomColor.getRoomColor.
  cbn [RoomColor.ROOM_COLORS RoomColor.first_color map snd].
  set (l := RoomColor.toLowerCase type).
  destruct (RoomColor.includes l "bedroom") eqn:E1;
    [split; [cbn; tauto|split; [discriminate|
       intro H; rewrite H in E1 by (cbn; tauto); discriminate]]|].
  destruct (RoomColor.includes l "bathroom") eqn:E2;
    [split; [cbn; tauto|split; [discriminate|
       intro H; rewrite H in E2 by (cbn; tauto); discriminate]]|].
  destruct (RoomColor.includes l "kitchen") eqn:E3;
    [split; [cbn; tauto|split; [discriminate|
       intro H; rewrite H in E3 by (cbn; tauto); discriminate]]|].
  destruct (RoomColor.includes l "living") eqn:E4;
    [split; [cbn; tauto|split; [discriminate|
       intro H; rewrite H in E4 by (cbn; tauto); discriminate]]|].
  destruct (RoomColor.includes l "hall") eqn:E5;
    [split; [cbn; tauto|split; [discriminate|
       intro H; rewrite H in E5 by (cbn; tauto); discriminate]]|].
  destruct (RoomColor.includes l "dining") eqn:E6;
    [split; [cbn; tauto|split; [discriminate|
       intro H; rewrite H in E6 by (cbn; tauto); discriminate]]|].
  destruct (RoomColor.includes l "balcony") eqn:E7;
    [split; [cbn; tauto|split; [discriminate|
       intro H; rewrite H in E7 by (cbn; tauto); discriminate]]|].
  destruct (RoomColor.includes l "corridor") eqn:E8;
    [split; [cbn; tauto|split; [discriminate|
       intro H; rewrite H in E8 by (cbn; tauto); discriminate]]|].
  split.
  - destruct (RoomColor.includes l "default"); cbn; tauto.
  - split.
    + intros _ key Hin. cbn in Hin.
      repeat (destruct Hin as [<-|Hin]; [assumption|]). contradiction.
    + intros _. now destruct (RoomColor.includes l "default").
Qed.

(** ** More on the area calculator *)

Lemma Qsum_map_ext (f g : nat -> Q) (l : list nat) :
  (forall i, In i l -> f i == g i) ->
  Qsum (map f l) == Qsum (map g l).
Proof.
  induction l as [|i l IH]; intro H; cbn [map Qsum]; [reflexivity|].
  rewrite (H i (or_introl eq_refl)), IH; [reflexivity|].
  intros j Hj. apply H. now right.
Qed.

Lemma Qsum_map_linear (a b : Q) (f g : nat -> Q) (l : list nat) :
  Qsum (map (fun i => a * f i + b * g i) l)
  == a * Qsum (map f l) + b * Qsum (map g l).
Proof.
  induction l as [|i l IH]; cbn [map Qsum]; [ring|]. rewrite IH. ring.
Qed.

Lemma Qsum_telescope (n : nat) (g : nat -> Q) :
  Qsum (map (fun i => g (prev n i) - g i) (seq 0 n)) == 0.
Proof.
  assert (H : forall m k,
             Qsum (map (fun i => g (prev n i) - g i) (seq k m))
             == g (prev n k) - g (prev n (k + m))).
  { induction m as [|m IH]; intro k.
    - rewrite Nat.add_0_r. cbn [seq map Qsum]. ring.
    - cbn [seq map Qsum]. rewrite IH, prev_S, Nat.add_succ_comm. ring. }
  rewrite H. cbn [Nat.add].
  replace (prev n n) with (prev n 0); [ring|].
  unfold prev. destruct n; [reflexivity|]. cbn. lia.
Qed.

Lemma nth_similar (k dx dy : Q) (pts : list (Q * Q)) (i : nat) :
  (i < length pts)%nat ->
  nth i (similar k dx dy pts) (0, 0)
  = (k * fst (nth i pts (0, 0)) + dx, k * snd (nth i pts (0, 0)) + dy).
Proof.
  revert i. induction pts as [|p pts IH]; intros i Hi; cbn in Hi; [lia|].
  destruct i as [|i]; [reflexivity|]. cbn. apply IH. lia.
Qed.

Lemma loop_sum_similar (k dx dy : Q) (pts : list (Q * Q)) :
  loop_sum (similar k dx dy pts) == k * k * loop_sum pts.
Proof.
  rewrite !loop_sum_Qsum. unfold similar at 2 3. rewrite length_map.
  set (n := length pts).
  rewrite (Qsum_map_ext _
             (fun i => k * k * term_at pts (prev n i) i
                       + 2 * k * dx
                         * (snd (nth (prev n i) pts (0, 0))
                            - snd (nth i pts (0, 0))))).
  - rewrite Qsum_map_linear.
    rewrite (Qsum_telescope n (fun i => snd (nth i pts (0, 0)))). ring.
  - intros i Hi. apply in_seq in Hi.
    assert (Hp : (prev n i < n)%nat)
      by (unfold prev; destruct (i =? 0)%nat; lia).
    unfold term_at. rewrite !nth_similar by (fold n; lia).
    cbn [fst snd]. ring.
Qed.

(** ** What the editor draws *)

Lemma flatten_some (pts : list Point) :
  flatten (map Some pts) = flat_map (fun p => [fst p; snd p]) pts.
Proof.
  induction pts as [|p pts IH]; [reflexivity|].
  cbn [map flat_map]. rewrite flatten_cons_some, IH. reflexivity.
Qed.

Lemma map_seq_nth {A : Type} (l : list A) (d : A) :
  map (fun k => nth k l d) (seq 0 (length l)) = l.
Proof.
  induction l as [|a l IH]; [reflexivity|].
  cbn [length seq map nth]. f_equal.
  rewrite <- seq_shift, map_map. exact IH.
Qed.

Lemma nth_error_flat_pair (pts : list Point) (d : Point) (i : nat) :
  (i < length pts)%nat ->
  nth_error (flat_map (fun p => [fst p; snd p]) pts) (2 * i)
  = Some (fst (nth i pts d))
  /\ nth_error (flat_map (fun p => [fst p; snd p]) pts) (S (2 * i))
     = Some (snd (nth i pts d)).
Proof.
  revert i. induction pts as [|p pts IH]; intros i Hi; cbn in Hi; [lia|].
  destruct i as [|i]; [split; reflexivity|].
  replace (2 * S i)%nat with (S (S (2 * i))) by lia.
  cbn [flat_map app nth_error nth]. apply IH. lia.
Qed.

Lemma length_flat_pair (pts : list Point) :
  length (flat_map (fun p => [fst p; snd p]) pts) = (2 * length pts)%nat.
Proof.
  induction pts as [|p pts IH]; [reflexivity|].
  cbn [flat_map app length]. rewrite IH. lia.
Qed.

(** X6: [unflattenPoints] undoes the flattening the editor applies to a
    polygon without empty slot: it gives the points back, in order, as
    pairs of numbers. *)
Theorem unflattenPoints_flatten (pts : list Point) :
  EditorView.unflattenPoints (flatten (map Some pts))
  = map (fun p => (JS.VNum (fst p), JS.VNum (snd p))) pts.
Proof.
  rewrite flatten_some. unfold EditorView.unflattenPoints, loop_indices.
  rewrite length_flat_pair, Nat.div2_succ_double, map_map.
  transitivity
    (map (fun p : Point => (JS.VNum (fst p), JS.VNum (snd p)))
         (map (fun k => nth k pts (JS.NaN, JS.NaN)) (seq 0 (length pts))));
    [|now rewrite map_seq_nth].
  rewrite map_map. apply map_ext_in. intros i Hi. apply in_seq in Hi.
  destruct (nth_error_flat_pair pts (JS.NaN, JS.NaN) i ltac:(lia))
    as [He Ho].
  unfold EditorView.element.
  destruct (2 * Z.of_nat i <? 0)%Z eqn:E1; [apply Z.ltb_lt in E1; lia|].
  destruct (2 * Z.of_nat i + 1 <? 0)%Z eqn:E2; [apply Z.ltb_lt in E2; lia|].
  replace (Z.to_nat (2 * Z.of_nat i)) with (2 * i)%nat by lia.
  replace (Z.to_nat (2 * Z.of_nat i + 1)) with (S (2 * i)) by lia.
  now rewrite He, Ho.
Qed.

Lemma max_fin (a b : Q) :
  exists m, JS.max (JS.Fin a) (JS.Fin b) = JS.Fin m /\ m == Qmax a b.
Proof.
  unfold JS.max, JS.ltb, JS.cmp. cbn [JS.isNaN orb].
  destruct (a ?= b) eqn:E.
  - exists a. split; [reflexivity|]. apply Qeq_alt in E.
    symmetry. apply Q.max_l. rewrite E. apply Qle_refl.
  - exists b. split; [reflexivity|]. apply Qlt_alt in E.
    symmetry. apply Q.max_r. now apply Qlt_le_weak.
  - exists a. split; [reflexivity|]. apply Qgt_alt in E.
    symmetry. apply Q.max_l. now apply Qlt_le_weak.
Qed.






(** ** What an edit leaves alone *)

Lemma of_nat_strict_eq (j i : nat) :
  (JS.of_nat j === JS.of_nat i)%js = (j =? i)%nat.
Proof.
  unfold JS.of_nat. rewrite strict_eq_fin.
  destruct (j =? i)%nat eqn:E.
  - apply Nat.eqb_eq in E. subst. apply Qeq_bool_refl.
  - apply Nat.eqb_neq in E. apply not_true_is_false. intro H.
    apply Qeq_bool_iff in H. rewrite inject_Z_injective in H. lia.
Qed.

Lemma falsy_id_no_match (v : JS.value) (i : nat) :
  JS.truthy_value v = false -> (0 < i)%nat ->
  JS.value_strict_eq v (JS.of_nat i) = false.
Proof.
  intros Hv Hi. destruct v as [| |[| | |q]]; try reflexivity;
    try discriminate Hv.
  cbn in Hv. unfold JS.truthy in Hv. cbn [JS.isNaN orb] in Hv.
  apply negb_false_iff in Hv. rewrite strict_eq_fin in Hv.
  apply Qeq_bool_iff in Hv.
  cbn [JS.value_strict_eq]. unfold JS.of_nat. rewrite strict_eq_fin.
  apply not_true_is_false. intro H. apply Qeq_bool_iff in H.
  rewrite Hv in H. change 0 with (inject_Z 0) in H.
  rewrite inject_Z_injective in H. lia.
Qed.

Lemma reads_undefined_some (pts : list Point) (vertexIndex : Z) :
  reads_undefined (map Some pts) vertexIndex = false.
Proof.
  unfold reads_undefined. apply not_true_is_false. intro H.
  apply existsb_exists in H as (k & _ & Hk).
  rewrite nth_error_map in Hk. destruct (nth_error pts k); discriminate.
Qed.

Lemma findIndex_own_position (rooms : list RoomMetadata) (i : nat)
  (r : RoomMetadata) :
  Forall (fun r => JS.truthy_value (id r) = false) rooms ->
  nth_error rooms i = Some r ->
  findIndex (room_matches (EditorView.roomId r i)) rooms = Z.of_nat i.
Proof.
  intros Hids Hnth.
  assert (Hr : JS.truthy_value (id r) = false).
  { rewrite Forall_forall in Hids. apply Hids.
    eapply nth_error_In; eassumption. }
  unfold EditorView.roomId. rewrite Hr.
  apply (findIndex_first _ _ _ r Hnth).
  - unfold room_matches. rewrite of_nat_strict_eq, Nat.eqb_refl.
    apply orb_true_r.
  - unfold addressed. apply not_true_is_false. intro H.
    apply existsb_exists in H as ([j rj] & Hin & Hm). cbn [fst snd] in Hm.
    pose proof (in_combine_l _ _ _ _ Hin) as Hj.
    pose proof (in_combine_r _ _ _ _ Hin) as Hrj.
    apply in_seq in Hj. rewrite length_firstn in Hj.
    assert (Hrj' : In rj rooms)
      by (rewrite <- (firstn_skipn i rooms); apply in_or_app; now left).
    rewrite Forall_forall in Hids. pose proof (Hids rj Hrj') as Hfalsy.
    unfold room_matches in Hm.
    rewrite (falsy_id_no_match _ i Hfalsy) in Hm by lia.
    rewrite of_nat_strict_eq in Hm. cbn [orb] in Hm.
    apply Nat.eqb_eq in Hm. lia.
Qed.

(** X9: when no room carries a truthy [id] (the declared room type has
    none), the identifier the editor gives the room drawn at position [i]
    makes the drag handler edit that very room: dragging an anchor of a
    polygon without empty slot always updates the room list at [i] and
    emits an aggregate. *)
Theorem anchor_drag_edits_its_room (metadata : FloorPlanMetadata)
  (rooms : list RoomMetadata) (i : nat) (r : RoomMetadata)
  (pts : list Point) (pIndex : Z) (newPos : Point) :
  Forall (fun r => JS.truthy_value (id r) = false) rooms ->
  nth_error rooms i = Some r ->
  polygon r = Some (map Some pts) ->
  exists emitted,
    handleDragVertex metadata rooms (EditorView.roomId r i) pIndex newPos
    = Updated (rooms_set rooms i (newRoom r (map Some pts) pIndex newPos))
              emitted.
Proof.
  intros Hids Hnth Hp.
  pose proof (findIndex_own_position rooms i r Hids Hnth) as Hk.
  rewrite (handleDragVertex_found metadata rooms _ pIndex newPos i r
             (map Some pts) Hk Hnth Hp (reads_undefined_some _ _)).
  eexists. reflexivity.
Qed.

Lemma anchor_drag_edits_its_room_witness :
  exists emitted,
    handleDragVertex (sample_metadata
                        [sample_room 100 100 100; sample_room 30 40 120] 220)
                     [sample_room 100 100 100; sample_room 30 40 120]
                     (EditorView.roomId (sample_room 30 40 120) 1) 3
                     (fin_point (0, 50))
    = Updated
        (rooms_set [sample_room 100 100 100; sample_room 30 40 120] 1
           (newRoom (sample_room 30 40 120)
                    (map Some (map fin_point (rectangle 0 0 30 40))) 3
                    (fin_point (0, 50))))
        emitted.
Proof.
  apply (anchor_drag_edits_its_room _ _ 1 (sample_room 30 40 120)
           (map fin_point (rectangle 0 0 30 40))).
  - repeat constructor.
  - reflexivity.
  - reflexivity.
Defined.

Lemma nth_error_rooms_set_other (rooms : list RoomMetadata) (k j : nat)
  (r' : RoomMetadata) :
  j <> k -> nth_error (rooms_set rooms k r') j = nth_error rooms j.
Proof.
  revert k j. induction rooms as [|r0 rooms IH]; intros [|k] [|j] H;
    cbn; try reflexivity; try lia. apply IH. lia.
Qed.

Lemma array_set_in_range (p : Polygon) (i : nat) (v : Point) :
  (i < length p)%nat ->
  length (array_set p (Z.of_nat i) v) = length p
  /\ nth_error (array_set p (Z.of_nat i) v) i = Some (Some v)
  /\ forall j, j <> i ->
               nth_error (array_set p (Z.of_nat i) v) j = nth_error p j.
Proof.
  intro Hi. unfold array_set.
  destruct (Z.of_nat i <? 0)%Z eqn:E; [apply Z.ltb_lt in E; lia|].
  rewrite Nat2Z.id.
  destruct (i <? length p)%nat eqn:E2; [|apply Nat.ltb_ge in E2; lia].
  clear E E2. revert i Hi.
  induction p as [|s p IH]; intros i Hi; cbn in Hi; [lia|].
  destruct i as [|i].
  - cbn. split; [reflexivity|]. split; [reflexivity|].
    intros [|j] Hj; [lia|reflexivity].
  - destruct (IH i ltac:(lia)) as (Hl & Hn & Ho).
    cbn [firstn skipn app length nth_error] in *.
    split; [now rewrite Hl|]. split; [exact Hn|].
    intros [|j] Hj; [reflexivity|]. cbn [nth_error]. apply Ho. lia.
Qed.

(** X10: a valid edit touches one vertex of one room.  The room list keeps
    its length and every other room; the edited room keeps its [id],
    [type], [dimensions] and [floor]; its polygon keeps its length and all
    vertices but the dragged one, which is at the new position; and the
    aggregate keeps the bedroom and bathroom counts. *)
Theorem edit_frame (metadata : FloorPlanMetadata)
  (prevRooms : list RoomMetadata) (roomId : JS.num) (k : nat)
  (r : RoomMetadata) (p : Polygon) (i : nat) (newPos : Point) :
  nth_error prevRooms k = Some r ->
  room_matches roomId r k = true ->
  addressed roomId (firstn k prevRooms) = false ->
  polygon r = Some p ->
  reads_undefined p (Z.of_nat i) = false ->
  (i < length p)%nat ->
  exists updatedRooms r' p' emitted,
    handleDragVertex metadata prevRooms roomId (Z.of_nat i) newPos
    = Updated updatedRooms emitted
    /\ length updatedRooms = length prevRooms
    /\ nth_error updatedRooms k = Some r'
    /\ (forall j, j <> k -> nth_error updatedRooms j = nth_error prevRooms j)
    /\ id r' = id r /\ type r' = type r
    /\ dimensions r' = dimensions r /\ floor r' = floor r
    /\ polygon r' = Some p'
    /\ length p' = length p
    /\ nth_error p' i = Some (Some newPos)
    /\ (forall j, j <> i -> nth_error p' j = nth_error p j)
    /\ rooms emitted = updatedRooms
    /\ num_bedrooms emitted = num_bedrooms metadata
    /\ num_bathrooms emitted = num_bathrooms metadata.
Proof.
  intros Hnth Hm Hfirst Hp Hu Hi.
  pose proof (findIndex_first _ _ _ _ Hnth Hm Hfirst) as Hk.
  pose proof (handleDragVertex_found metadata _ _ (Z.of_nat i) newPos
                _ _ _ Hk Hnth Hp Hu) as H.
  destruct (array_set_in_range p i newPos Hi) as (Hl & Hn & Ho).
  eexists _, _, (array_set p (Z.of_nat i) newPos), _.
  split; [exact H|].
  split; [apply length_rooms_set|].
  split; [now apply (nth_error_rooms_set _ _ r)|].
  split; [intros j Hj; now apply nth_error_rooms_set_other|].
  repeat (split; [reflexivity|]).
  split; [exact Hl|]. split; [exact Hn|]. split; [exact Ho|].
  repeat split; reflexivity.
Qed.

Lemma edit_frame_witness :
  exists updatedRooms emitted,
    handleDragVertex (sample_metadata
                        [sample_room 100 100 100; sample_room 30 40 120] 220)
                     [sample_room 100 100 100; sample_room 30 40 120]
                     (JS.Fin 1) (Z.of_nat 2) (fin_point (60, 40))
    = Updated updatedRooms emitted
    /\ nth_error updatedRooms 0 = Some (sample_room 100 100 100).
Proof.
  destruct (edit_frame
              (sample_metadata
                 [sample_room 100 100 100; sample_room 30 40 120] 220)
              [sample_room 100 100 100; sample_room 30 40 120]
              (JS.Fin 1) 1 (sample_room 30 40 120)
              (fin_polygon (rectangle 0 0 30 40)) 2 (fin_point (60, 40))
              eq_refl eq_refl eq_refl eq_refl eq_refl ltac:(cbn; lia))
    as (rs & r' & p' & m & H & _ & _ & Hother & _).
  exists rs, m. split; [exact H|]. apply (Hother 0%nat). discriminate.
Defined.

(** ** The fit keeps the rooms on the canvas *)






(** ** The normalizer on its own output *)





Section NormalizerOutput.

Variable Math_sqrt : Q -> Q.













End NormalizerOutput.


(** ** A room without an area *)

Lemma findIndex_from_range {A : Type} (pred : A -> nat -> bool)
  (l : list A) :
  forall i,
    findIndex_from pred i l = (-1)%Z
    \/ exists j, findIndex_from pred i l = Z.of_nat j.
Proof.
  induction l as [|a l IH]; intro i; [now left|].
  cbn [findIndex_from]. destruct (pred a i); [right; now exists i|apply IH].
Qed.

Lemma handleDragVertex_inv (metadata : FloorPlanMetadata)
  (prevRooms : list RoomMetadata) (roomId : JS.num) (vertexIndex : Z)
  (newPos : Point) (updatedRooms : list RoomMetadata)
  (emitted : FloorPlanMetadata) :
  handleDragVertex metadata prevRooms roomId vertexIndex newPos
  = Updated updatedRooms emitted ->
  exists k room oldPolygon,
    findIndex (room_matches roomId) prevRooms = Z.of_nat k
    /\ nth_error prevRooms k = Some room
    /\ polygon room = Some oldPolygon
    /\ updatedRooms
       = rooms_set prevRooms k (newRoom room oldPolygon vertexIndex newPos).
Proof.
  unfold handleDragVertex.
  destruct (findIndex (room_matches roomId) prevRooms =? -1)%Z eqn:Hidx;
    [discriminate|].
  destruct (findIndex_from_range (room_matches roomId) prevRooms 0)
    as [H|(k & Hk)].
  { unfold findIndex in Hidx. rewrite H in Hidx. discriminate. }
  unfold findIndex. rewrite Hk, Nat2Z.id.
  destruct (nth_error prevRooms k) as [room|] eqn:Hroom; [|discriminate].
  destruct (polygon room) as [oldPolygon|] eqn:Hp; [|discriminate].
  destruct (reads_undefined oldPolygon vertexIndex); [discriminate|].
  intro H. injection H as <- _.
  now exists k, room, oldPolygon.
Qed.

Lemma new_area_sqft_NaN (oldPolygon newPolygon : Polygon) (a : JS.value) :
  JS.to_number a = JS.NaN ->
  new_area_sqft oldPolygon newPolygon a = JS.NaN.
Proof.
  intro H. unfold new_area_sqft. rewrite H.
  destruct (calculatePolygonArea (flatten oldPolygon) ||| JS.Fin 1)%js;
    destruct (calculatePolygonArea (flatten newPolygon)); reflexivity.
Qed.

Lemma add_NaN_l (b : JS.num) : (JS.NaN + b)%js = JS.NaN.
Proof. now destruct b. Qed.

Lemma add_NaN_r (a : JS.num) : (a + JS.NaN)%js = JS.NaN.
Proof. now destruct a. Qed.

Lemma sum_from_NaN (rooms : list RoomMetadata) :
  fold_left (fun sum r => (sum + JS.to_number (area_sqft r))%js)
            rooms JS.NaN = JS.NaN.
Proof.
  induction rooms as [|r rooms IH]; [reflexivity|].
  cbn [fold_left]. now rewrite add_NaN_l.
Qed.

Lemma sum_area_sqft_NaN (rooms : list RoomMetadata) :
  Exists (fun s => JS.to_number (area_sqft s) = JS.NaN) rooms ->
  sum_area_sqft rooms = JS.NaN.
Proof.
  unfold sum_area_sqft. generalize (JS.Fin 0).
  induction rooms as [|r rooms IH]; intros acc H; [inversion H|].
  cbn [fold_left]. inversion H as [? ? Hr|? ? Hrest]; subst.
  - rewrite Hr, add_NaN_r. apply sum_from_NaN.
  - now apply IH.
Qed.

Lemma Exists_rooms_set (P : RoomMetadata -> Prop)
  (rooms : list RoomMetadata) :
  forall k r r',
    nth_error rooms k = Some r -> (P r -> P r') ->
    Exists P rooms -> Exists P (rooms_set rooms k r').
Proof.
  induction rooms as [|r0 rooms IH]; intros k r r' Hk Hr H; [inversion H|].
  destruct k as [|k]; cbn [rooms_set nth_error] in *.
  - injection Hk as ->. inversion H; subst.
    + apply Exists_cons_hd. auto.
    + now apply Exists_cons_tl.
  - inversion H; subst.
    + now apply Exists_cons_hd.
    + apply Exists_cons_tl. eapply IH; eauto.
Qed.

(** X15: a room whose [area_sqft] is missing or [NaN] poisons the figures.
    Every edit that goes through, of whichever room, then emits a total of
    [NaN], and the room list keeps a room whose area is not a number.  The
    edit replaces the room at the index the handler found and no other;
    when that room is one without an area, the area written to it is
    [NaN] rather than the minimum of 10. *)
Theorem missing_area_poisons_the_total (metadata : FloorPlanMetadata)
  (prevRooms : list RoomMetadata) (roomId : JS.num) (vertexIndex : Z)
  (newPos : Point) (updatedRooms : list RoomMetadata)
  (emitted : FloorPlanMetadata) :
  Exists (fun s => JS.to_number (area_sqft s) = JS.NaN) prevRooms ->
  handleDragVertex metadata prevRooms roomId vertexIndex newPos
  = Updated updatedRooms emitted ->
  total_area_sqft emitted = JS.NaN
  /\ Exists (fun s => JS.to_number (area_sqft s) = JS.NaN) updatedRooms
  /\ exists k room room',
       findIndex (room_matches roomId) prevRooms = Z.of_nat k
       /\ nth_error prevRooms k = Some room
       /\ nth_error updatedRooms k = Some room'
       /\ (forall j, j <> k ->
                     nth_error updatedRooms j = nth_error prevRooms j)
       /\ (JS.to_number (area_sqft room) = JS.NaN ->
           area_sqft room' = JS.VNum JS.NaN).
Proof.
  intros Hex Hedit.
  destruct (handleDragVertex_inv _ _ _ _ _ _ _ Hedit)
    as (k & room & oldPolygon & Hidx & Hk & Hp & Hup).
  assert (Harea : JS.to_number (area_sqft room) = JS.NaN ->
                  area_sqft (newRoom room oldPolygon vertexIndex newPos)
                  = JS.VNum JS.NaN).
  { intro H. unfold newRoom. cbn [area_sqft].
    now rewrite new_area_sqft_NaN. }
  assert (Hex' : Exists (fun s => JS.to_number (area_sqft s) = JS.NaN)
                        updatedRooms).
  { subst updatedRooms. eapply Exists_rooms_set; [exact Hk| |exact Hex].
    intro H. now rewrite (Harea H). }
  split; [|split; [exact Hex'|]].
  - rewrite (handleDragVertex_emitted _ _ _ _ _ _ _ Hedit).
    cbn [total_area_sqft]. now apply sum_area_sqft_NaN.
  - exists k, room, (newRoom room oldPolygon vertexIndex newPos).
    split; [exact Hidx|]. split; [exact Hk|].
    subst updatedRooms. split; [eapply nth_error_rooms_set; exact Hk|].
    split; [|exact Harea].
    intros j Hj. now apply nth_error_rooms_set_other.
Qed.

Lemma missing_area_poisons_the_total_witness :
  exists updatedRooms emitted,
    handleDragVertex
      (sample_metadata
         [sample_room 100 100 100;
          with_polygon (bare_room JS.VUndefined None (JS.VNum (JS.Fin 1)))
                       (fin_polygon (rectangle 200 0 50 50))]
         100)
      [sample_room 100 100 100;
       with_polygon (bare_room JS.VUndefined None (JS.VNum (JS.Fin 1)))
                    (fin_polygon (rectangle 200 0 50 50))]
      (JS.Fin 1) 2 (fin_point (260, 60))
    = Updated updatedRooms emitted
    /\ total_area_sqft emitted = JS.NaN
    /\ exists room',
         nth_error updatedRooms 1 = Some room'
         /\ area_sqft room' = JS.VNum JS.NaN.
Proof.
  eexists _, _. split; [reflexivity|].
  destruct (missing_area_poisons_the_total
              (sample_metadata
                 [sample_room 100 100 100;
                  with_polygon
                    (bare_room JS.VUndefined None (JS.VNum (JS.Fin 1)))
                    (fin_polygon (rectangle 200 0 50 50))]
                 100)
              [sample_room 100 100 100;
               with_polygon
                 (bare_room JS.VUndefined None (JS.VNum (JS.Fin 1)))
                 (fin_polygon (rectangle 200 0 50 50))]
              (JS.Fin 1) 2%Z (fin_point (260, 60)) _ _
              ltac:(apply Exists_cons_tl, Exists_cons_hd; reflexivity)
              eq_refl)
    as (Htotal & _ & k & room & room' & Hidx & Hk & Hk' & _ & Harea).
  split; [exact Htotal|].
  assert (Hone : Z.of_nat k = 1%Z) by (rewrite <- Hidx; reflexivity).
  assert (k = 1%nat) by lia. subst k.
  exists room'. split; [exact Hk'|]. apply Harea.
  cbn in Hk. injection Hk as <-. reflexivity.
Defined.

(** ** The history store *)

Lemma has_In (id : string) (entries : list HistoryStore.HistoryEntry) :
  HistoryStore.has id entries = true
  <-> In id (map HistoryStore.jobId entries).
Proof.
  unfold HistoryStore.has. rewrite existsb_exists, in_map_iff.
  split; intros (e & H1 & H2); exists e.
  - apply String.eqb_eq in H2. now split.
  - split; [exact H2|]. now apply String.eqb_eq.
Qed.

Lemma has_false (id : string) (entries : list HistoryStore.HistoryEntry) :
  HistoryStore.has id entries = false
  <-> ~ In id (map HistoryStore.jobId entries).
Proof.
  rewrite <- has_In. destruct (HistoryStore.has id entries); split;
    congruence.
Qed.

Lemma NoDup_firstn {A : Type} (n : nat) (l : list A) :
  NoDup l -> NoDup (firstn n l).
Proof.
  intro H. rewrite <- (firstn_skipn n l) in H.
  now apply NoDup_app_remove_r in H.
Qed.

Lemma removeEntry_jobIds (id : string)
  (entries : list HistoryStore.HistoryEntry) :
  incl (map HistoryStore.jobId (HistoryStore.removeEntry id entries))
       (map HistoryStore.jobId entries).
Proof.
  intros j Hj. apply in_map_iff in Hj as (e & <- & He).
  apply filter_In in He as [He _]. now apply in_map.
Qed.

Lemma removeEntry_distinct (id : string)
  (entries : list HistoryStore.HistoryEntry) :
  NoDup (map HistoryStore.jobId entries) ->
  NoDup (map HistoryStore.jobId (HistoryStore.removeEntry id entries)).
Proof.
  induction entries as [|e entries IH]; intro Hnd; [constructor|].
  apply NoDup_cons_iff in Hnd as [Hfresh Hrest].
  unfold HistoryStore.removeEntry in *. cbn [filter].
  destruct (negb (String.eqb (HistoryStore.jobId e) id)); [|now apply IH].
  cbn [map]. apply NoDup_cons; [|now apply IH].
  intro Hin. apply Hfresh. now apply (removeEntry_jobIds id entries).
Qed.

Lemma length_filter_le {A : Type} (p : A -> bool) (l : list A) :
  (length (filter p l) <= length l)%nat.
Proof.
  induction l as [|a l IH]; [reflexivity|].
  cbn [filter]. destruct (p a); cbn [length]; lia.
Qed.

(** X16: the store keeps its entries in order: if the entries have
    pairwise distinct [jobId]s and are at most 50, the same holds after
    any of the three actions. *)
Theorem history_stays_distinct_and_bounded
  (entries : list HistoryStore.HistoryEntry) (a : HistoryStore.Action) :
  NoDup (map HistoryStore.jobId entries) ->
  (length entries <= 50)%nat ->
  NoDup (map HistoryStore.jobId (HistoryStore.dispatch entries a))
  /\ (length (HistoryStore.dispatch entries a) <= 50)%nat.
Proof.
  intros Hnd Hlen. destruct a as [entry|id|]; cbn [HistoryStore.dispatch].
  - unfold HistoryStore.addEntry.
    destruct (HistoryStore.has (HistoryStore.jobId entry) entries) eqn:E;
      [now split|].
    split.
    + rewrite <- firstn_map. apply NoDup_firstn. cbn [map].
      constructor; [now apply has_false|exact Hnd].
    + rewrite length_firstn. apply Nat.le_min_l.
  - split.
    + now apply removeEntry_distinct.
    + etransitivity; [apply length_filter_le|exact Hlen].
  - split; [constructor|cbn; lia].
Qed.

(** X17: after [addEntry] the store has an entry for the [jobId], and a
    second [addEntry] for that [jobId], whatever the rest of the entry,
    changes nothing: a job already listed is neither updated nor moved. *)
Theorem addEntry_once (entry entry' : HistoryStore.HistoryEntry)
  (entries : list HistoryStore.HistoryEntry) :
  HistoryStore.has (HistoryStore.jobId entry)
                   (HistoryStore.addEntry entry entries) = true
  /\ HistoryStore.addEntry
       {| HistoryStore.jobId := HistoryStore.jobId entry;
          HistoryStore.imageUrl := HistoryStore.imageUrl entry';
          HistoryStore.metadata := HistoryStore.metadata entry';
          HistoryStore.createdAt := HistoryStore.createdAt entry';
          HistoryStore.constraint := HistoryStore.constraint entry' |}
       (HistoryStore.addEntry entry entries)
     = HistoryStore.addEntry entry entries.
Proof.
  assert (H : HistoryStore.has (HistoryStore.jobId entry)
                (HistoryStore.addEntry entry entries) = true).
  { unfold HistoryStore.addEntry.
    destruct (HistoryStore.has (HistoryStore.jobId entry) entries) eqn:E;
      [exact E|].
    cbn [firstn HistoryStore.has existsb]. now rewrite String.eqb_refl. }
  split; [exact H|].
  unfold HistoryStore.addEntry at 1. cbn [HistoryStore.jobId].
  now rewrite H.
Qed.

Lemma firstn_removelast {A : Type} (l : list A) (n : nat) :
  length l = S n -> firstn n l = removelast l.
Proof.
  revert n. induction l as [|a l IH]; intros n H; [discriminate|].
  cbn [length] in H. injection H as H.
  destruct l as [|b l].
  - cbn in H. subst n. reflexivity.
  - destruct n as [|n]; [discriminate|].
    cbn [firstn]. rewrite (IH n H). reflexivity.
Qed.

(** X18: a new job goes to the front; the list grows by one until it holds
    50 entries, and on a full list the last entry, the oldest, is dropped
    to make room. *)
Theorem addEntry_evicts_the_oldest (entry : HistoryStore.HistoryEntry)
  (entries : list HistoryStore.HistoryEntry) :
  HistoryStore.has (HistoryStore.jobId entry) entries = false ->
  ((length entries < 50)%nat ->
   HistoryStore.addEntry entry entries = entry :: entries)
  /\ (length entries = 50%nat ->
      HistoryStore.addEntry entry entries = entry :: removelast entries).
Proof.
  intro H. unfold HistoryStore.addEntry. rewrite H. split; intro Hlen.
  - apply firstn_all2. cbn [length]. lia.
  - change (firstn 50 (entry :: entries)) with (entry :: firstn 49 entries).
    f_equal. now apply firstn_removelast.
Qed.

Lemma addEntry_evicts_the_oldest_witness :
  HistoryStore.addEntry
    {| HistoryStore.jobId := "b"; HistoryStore.imageUrl := "u";
       HistoryStore.metadata := None; HistoryStore.createdAt := "t";
       HistoryStore.constraint := None |}
    (repeat {| HistoryStore.jobId := "a"; HistoryStore.imageUrl := "u";
               HistoryStore.metadata := None; HistoryStore.createdAt := "t";
               HistoryStore.constraint := None |} 50)
  = {| HistoryStore.jobId := "b"; HistoryStore.imageUrl := "u";
       HistoryStore.metadata := None; HistoryStore.createdAt := "t";
       HistoryStore.constraint := None |}
    :: removelast
         (repeat {| HistoryStore.jobId := "a"; HistoryStore.imageUrl := "u";
                    HistoryStore.metadata := None;
                    HistoryStore.createdAt := "t";
                    HistoryStore.constraint := None |} 50).
Proof.
  apply (proj2 (addEntry_evicts_the_oldest
                  {| HistoryStore.jobId := "b"; HistoryStore.imageUrl := "u";
                     HistoryStore.metadata := None;
                     HistoryStore.createdAt := "t";
                     HistoryStore.constraint := None |}
                  (repeat {| HistoryStore.jobId := "a";
                             HistoryStore.imageUrl := "u";
                             HistoryStore.metadata := None;
                             HistoryStore.createdAt := "t";
                             HistoryStore.constraint := None |} 50)
                  eq_refl)).
  reflexivity.
Defined.

Lemma history_stays_distinct_and_bounded_witness :
  NoDup (map HistoryStore.jobId
           (HistoryStore.dispatch
              [ {| HistoryStore.jobId := "a"; HistoryStore.imageUrl := "u";
                   HistoryStore.metadata := None;
                   HistoryStore.createdAt := "t";
                   HistoryStore.constraint := None |} ]
              (HistoryStore.RemoveEntry "z")))
  /\ (length
        (HistoryStore.dispatch
           [ {| HistoryStore.jobId := "a"; HistoryStore.imageUrl := "u";
                HistoryStore.metadata := None;
                HistoryStore.createdAt := "t";
                HistoryStore.constraint := None |} ]
           (HistoryStore.RemoveEntry "z")) <= 50)%nat.
Proof.
  apply history_stays_distinct_and_bounded.
  - simpl. constructor; [intros []|constructor].
  - simpl. lia.
Defined.

Lemma has_filter (id id' : string)
  (entries : list HistoryStore.HistoryEntry) :
  HistoryStore.has id' (HistoryStore.removeEntry id entries)
  = negb (String.eqb id' id) && HistoryStore.has id' entries.
Proof.
  induction entries as [|e entries IH].
  - cbn. now rewrite andb_false_r.
  - unfold HistoryStore.removeEntry, HistoryStore.has in *.
    cbn [filter existsb].
    destruct (String.eqb (HistoryStore.jobId e) id) eqn:E; cbn [negb].
    + rewrite IH. apply String.eqb_eq in E.
      destruct (String.eqb (HistoryStore.jobId e) id') eqn:E';
        cbn [orb]; [|reflexivity].
      apply String.eqb_eq in E'.
      assert (Heq : id' = id) by congruence.
      apply String.eqb_eq in Heq. now rewrite Heq.
    + cbn [existsb]. rewrite IH.
      destruct (String.eqb (HistoryStore.jobId e) id') eqn:E';
        cbn [orb]; [|reflexivity].
      apply String.eqb_eq in E'. subst id'. rewrite E. cbn.
      reflexivity.
Qed.

Lemma removeEntry_absent (id : string)
  (entries : list HistoryStore.HistoryEntry) :
  HistoryStore.has id entries = false ->
  HistoryStore.removeEntry id entries = entries.
Proof.
  unfold HistoryStore.removeEntry, HistoryStore.has.
  induction entries as [|e entries IH]; intro H; [reflexivity|].
  cbn [existsb] in H. apply orb_false_iff in H as [H1 H2].
  cbn [filter]. rewrite H1. cbn [negb]. now rewrite IH.
Qed.

(** X19: [removeEntry] removes the entries of that [jobId] and no other:
    afterwards the store has an entry for a [jobId] exactly when it had
    one before and the [jobId] is not the removed one; removing twice is
    removing once. *)
Theorem removeEntry_removes_that_job (id id' : string)
  (entries : list HistoryStore.HistoryEntry) :
  HistoryStore.has id' (HistoryStore.removeEntry id entries)
  = negb (String.eqb id' id) && HistoryStore.has id' entries
  /\ HistoryStore.removeEntry id (HistoryStore.removeEntry id entries)
     = HistoryStore.removeEntry id entries.
Proof.
  split; [apply has_filter|].
  apply removeEntry_absent. rewrite has_filter, String.eqb_refl.
  reflexivity.
Qed.

(** X20: removing a job that was just added to a store that did not know
    it and was not full gives back the entries as they were. *)
Theorem removeEntry_undoes_addEntry (entry : HistoryStore.HistoryEntry)
  (entries : list HistoryStore.HistoryEntry) :
  HistoryStore.has (HistoryStore.jobId entry) entries = false ->
  (length entries < 50)%nat ->
  HistoryStore.removeEntry (HistoryStore.jobId entry)
                           (HistoryStore.addEntry entry entries)
  = entries.
Proof.
  intros H Hlen. unfold HistoryStore.addEntry. rewrite H.
  rewrite firstn_all2 by (cbn [length]; lia).
  unfold HistoryStore.removeEntry at 1. cbn [filter].
  rewrite String.eqb_refl. cbn [negb].
  now apply removeEntry_absent.
Qed.

Lemma removeEntry_undoes_addEntry_witness :
  HistoryStore.removeEntry "b"
    (HistoryStore.addEntry
       {| HistoryStore.jobId := "b"; HistoryStore.imageUrl := "u";
          HistoryStore.metadata := None; HistoryStore.createdAt := "t";
          HistoryStore.constraint := None |}
       [ {| HistoryStore.jobId := "a"; HistoryStore.imageUrl := "u";
            HistoryStore.metadata := None; HistoryStore.createdAt := "t";
            HistoryStore.constraint := None |} ])
  = [ {| HistoryStore.jobId := "a"; HistoryStore.imageUrl := "u";
         HistoryStore.metadata := None; HistoryStore.createdAt := "t";
         HistoryStore.constraint := None |} ].
Proof.
  apply (removeEntry_undoes_addEntry
           {| HistoryStore.jobId := "b"; HistoryStore.imageUrl := "u";
              HistoryStore.metadata := None; HistoryStore.createdAt := "t";
              HistoryStore.constraint := None |}).
  - reflexivity.
  - simpl. lia.
Defined.

(** ** The progress tracker *)

Lemma findIndex_from_none {A : Type} (pred : A -> nat -> bool)
  (l : list A) :
  forall i,
    (forall a j, In a l -> pred a j = false) ->
    findIndex_from pred i l = (-1)%Z.
Proof.
  induction l as [|a l IH]; intros i H; [reflexivity|].
  cbn [findIndex_from]. rewrite (H a i) by now left.
  apply IH. intros b j Hb. apply H. now right.
Qed.

Lemma stageViews_nth (currentStage : string) (i : nat)
  (stage : string * string) :
  nth_error ProgressTracker.STAGES i = Some stage ->
  nth_error (ProgressTracker.stageViews currentStage) i
  = Some (ProgressTracker.stageView currentStage i stage).
Proof.
  intro H. unfold ProgressTracker.stageViews.
  do 6 (destruct i as [|i]; [cbn in H; injection H as <-; reflexivity|]).
  destruct i; discriminate.
Qed.

Lemma Z_nat_ltb (i k : nat) : (Z.of_nat i <? Z.of_nat k)%Z = (i <? k)%nat.
Proof.
  destruct (Z.ltb_spec (Z.of_nat i) (Z.of_nat k));
    destruct (Nat.ltb_spec i k); try reflexivity; lia.
Qed.

Lemma Z_nat_eqb (i k : nat) : (Z.of_nat i =? Z.of_nat k)%Z = (i =? k)%nat.
Proof.
  destruct (Z.eqb_spec (Z.of_nat i) (Z.of_nat k));
    destruct (Nat.eqb_spec i k); try reflexivity; lia.
Qed.

(** X21: for a stage of the table the tracker shows the stages before it
    as completed, the stage itself as current and the stages after it as
    pending: the names of the table are distinct, so the index found is
    the stage's own. *)
Theorem known_stage_splits_the_list (currentStage label : string)
  (k : nat) :
  nth_error ProgressTracker.STAGES k = Some (currentStage, label) ->
  ProgressTracker.currentIndex currentStage = Z.of_nat k
  /\ forall i stage,
       nth_error ProgressTracker.STAGES i = Some stage ->
       exists v,
         nth_error (ProgressTracker.stageViews currentStage) i = Some v
         /\ ProgressTracker.name v = fst stage
         /\ ProgressTracker.isCompleted v = (i <? k)%nat
         /\ ProgressTracker.isCurrent v = (i =? k)%nat
         /\ ProgressTracker.isPending v = (k <? i)%nat.
Proof.
  intro Hk.
  assert (Hidx : ProgressTracker.currentIndex currentStage = Z.of_nat k).
  { do 6 (destruct k as [|k];
          [cbn in Hk; injection Hk as <- _; reflexivity|]).
    destruct k; discriminate. }
  split; [exact Hidx|]. intros i stage Hi.
  exists (ProgressTracker.stageView currentStage i stage).
  split; [now apply stageViews_nth|].
  unfold ProgressTracker.stageView.
  cbn [ProgressTracker.name ProgressTracker.isCompleted
       ProgressTracker.isCurrent ProgressTracker.isPending].
  rewrite Hidx, Z_nat_ltb, Z_nat_eqb, Z.gtb_ltb, Z_nat_ltb.
  repeat split.
Qed.

Lemma known_stage_splits_the_list_witness :
  ProgressTracker.currentIndex "layout_generation" = Z.of_nat 3
  /\ forall i stage,
       nth_error ProgressTracker.STAGES i = Some stage ->
       exists v,
         nth_error (ProgressTracker.stageViews "layout_generation") i
         = Some v
         /\ ProgressTracker.name v = fst stage
         /\ ProgressTracker.isCompleted v = (i <? 3)%nat
         /\ ProgressTracker.isCurrent v = (i =? 3)%nat
         /\ ProgressTracker.isPending v = (3 <? i)%nat.
Proof.
  apply (known_stage_splits_the_list "layout_generation"
                                     "GENERATING LAYOUT" 3).
  reflexivity.
Defined.

(** X22: for a stage that is not in the table (the final stages of a job,
    or a misspelt one) the index is [-1]: the tracker shows none of its
    six stages as current or completed, and every one as pending. *)
Theorem unknown_stage_is_all_pending (currentStage : string) :
  ~ In currentStage (map fst ProgressTracker.STAGES) ->
  ProgressTracker.currentIndex currentStage = (-1)%Z
  /\ length (ProgressTracker.stageViews currentStage) = 6%nat
  /\ Forall (fun v => ProgressTracker.isCompleted v = false
                      /\ ProgressTracker.isCurrent v = false
                      /\ ProgressTracker.isPending v = true)
            (ProgressTracker.stageViews currentStage).
Proof.
  intro Hnot.
  assert (Hidx : ProgressTracker.currentIndex currentStage = (-1)%Z).
  { unfold ProgressTracker.currentIndex, findIndex.
    apply findIndex_from_none. intros a j Ha.
    destruct (String.eqb (fst a) currentStage) eqn:E; [|reflexivity].
    apply String.eqb_eq in E. elim Hnot. rewrite <- E. now apply in_map. }
  split; [exact Hidx|]. split; [reflexivity|].
  unfold ProgressTracker.stageViews. apply Forall_forall.
  intros v Hv. apply in_map_iff in Hv as ([i stage] & <- & Hin).
  unfold ProgressTracker.stageView.
  cbn [ProgressTracker.isCompleted ProgressTracker.isCurrent
       ProgressTracker.isPending fst snd].
  rewrite Hidx.
  repeat split.
  - apply Z.ltb_ge. lia.
  - apply Z.eqb_neq. lia.
  - rewrite Z.gtb_ltb. apply Z.ltb_lt. lia.
Qed.

Lemma unknown_stage_is_all_pending_witness :
  ProgressTracker.currentIndex "completed" = (-1)%Z
  /\ length (ProgressTracker.stageViews "completed") = 6%nat
  /\ Forall (fun v => ProgressTracker.isCompleted v = false
                      /\ ProgressTracker.isCurrent v = false
                      /\ ProgressTracker.isPending v = true)
            (ProgressTracker.stageViews "completed").
Proof.
  apply (unknown_stage_is_all_pending "completed").
  cbn. intros [H|[H|[H|[H|[H|[H|[]]]]]]]; discriminate H.
Defined.

Lemma round_percent (q : Q) :
  0 <= q -> q <= 1 ->
  (0 <= Qfloor (q * 100 + (1 # 2)) <= 100)%Z.
Proof.
  intros H0 H1. split.
  - assert (H : 0 <= q * 100 + (1 # 2)) by lra.
    apply Qfloor_resp_le in H. exact H.
  - assert (H : q * 100 + (1 # 2) <= 100 + (1 # 2)) by lra.
    apply Qfloor_resp_le in H. exact H.
Qed.

(** X23: for a progress between 0 and 1 the percentage shown, which also
    sets the width of the bar, is a whole number between 0 and 100. *)
Theorem percent_in_range (q : Q) :
  0 <= q -> q <= 1 ->
  exists n : Z,
    ProgressTracker.percent (JS.Fin q) = JS.Fin (inject_Z n)
    /\ (0 <= n <= 100)%Z.
Proof.
  intros H0 H1. exists (Qfloor (q * 100 + (1 # 2))).
  split; [reflexivity|]. now apply round_percent.
Qed.

Lemma percent_in_range_witness :
  exists n : Z,
    ProgressTracker.percent (JS.Fin (1 # 3)) = JS.Fin (inject_Z n)
    /\ (0 <= n <= 100)%Z.
Proof.
  apply (percent_in_range (1 # 3)).
  - unfold Qle. cbn. lia.
  - unfold Qle. cbn. lia.
Defined.

(** ** The cost estimator *)





Lemma no_kitchen_count (rooms : list RoomMetadata) :
  Forall (fun r => RoomColor.includes (RoomColor.toLowerCase (type r))
                                      "kitchen" = false) rooms ->
  filter (fun r => RoomColor.includes (RoomColor.toLowerCase (type r))
                                      "kitchen") rooms = [].
Proof.
  induction 1 as [|r rooms Hr _ IH]; [reflexivity|].
  cbn [filter]. now rewrite Hr.
Qed.

(** X25: the estimator never charges for less than one kitchen and one
    bathroom: with no room whose type contains "kitchen" and a bathroom
    count that is 0, missing or [NaN], the figure is the area times the
    base rate plus one kitchen add-on plus one bathroom add-on. *)
Theorem estimate_assumes_a_kitchen_and_a_bathroom
  (tier : CostEstimator.TierKey) (metadata : FloorPlanMetadata) (t : Q) :
  total_area_sqft metadata = JS.Fin t -> ~ t == 0 ->
  Forall (fun r => RoomColor.includes (RoomColor.toLowerCase (type r))
                                      "kitchen" = false)
         (rooms metadata) ->
  JS.truthy (num_bathrooms metadata) = false ->
  exists e,
    CostEstimator.estimate tier metadata = Some e
    /\ CostEstimator.numKitchens e = JS.Fin 1
    /\ CostEstimator.numBaths e = JS.Fin 1
    /\ JS.num_eq
         (CostEstimator.totalCost e)
         (JS.Fin t * CostEstimator.basePerSqft (CostEstimator.TIERS tier)
          + CostEstimator.kitchenAddon (CostEstimator.TIERS tier)
          + CostEstimator.bathAddon (CostEstimator.TIERS tier))%js.
Proof.
  intros Ht Hnz Hk Hb. unfold CostEstimator.estimate.
  rewrite Ht, (truthy_fin t Hnz), (no_kitchen_count _ Hk). cbn [negb length].
  assert (Hbath : (num_bathrooms metadata ||| JS.Fin 1)%js = JS.Fin 1)
    by (unfold JS.or_else; now rewrite Hb).
  rewrite Hbath.
  change (JS.of_nat 0 ||| JS.Fin 1)%js with (JS.Fin 1).
  eexists. split; [reflexivity|].
  cbn [CostEstimator.numKitchens CostEstimator.numBaths
       CostEstimator.totalCost].
  split; [reflexivity|]. split; [reflexivity|].
  destruct tier;
    cbn [CostEstimator.TIERS CostEstimator.basePerSqft
         CostEstimator.kitchenAddon CostEstimator.bathAddon
         JS.mul JS.add JS.num_eq];
    ring.
Qed.

Lemma estimate_assumes_a_kitchen_and_a_bathroom_witness :
  exists e,
    CostEstimator.estimate CostEstimator.standard
      (sample_metadata [sample_room 100 100 100] 100) = Some e
    /\ CostEstimator.numKitchens e = JS.Fin 1
    /\ CostEstimator.numBaths e = JS.Fin 1
    /\ JS.num_eq (CostEstimator.totalCost e) (JS.Fin 700000).
Proof.
  destruct (estimate_assumes_a_kitchen_and_a_bathroom
              CostEstimator.standard
              (sample_metadata [sample_room 100 100 100] 100) 100 eq_refl)
    as (e & He & Hk & Hb & Hc).
  - discriminate.
  - repeat constructor.
  - reflexivity.
  - exists e. split; [exact He|]. split; [exact Hk|]. split; [exact Hb|].
    eapply num_eq_trans; [exact Hc|]. vm_compute. reflexivity.
Defined.

(** ** The zoom of the 2D view *)

Lemma zoomIn_quarters (q : Q) (n : Z) :
  q == inject_Z n / 4 -> (2 <= n <= 12)%Z ->
  exists q',
    FloorPlanViewer.zoomIn (JS.Fin q) = JS.Fin q'
    /\ q' == inject_Z (Z.min 12 (n + 1)) / 4.
Proof.
  intros Hq Hn. unfold FloorPlanViewer.zoomIn. cbn [JS.add].
  destruct (min_fin 3 (q + (1 # 4))) as (m & -> & Em).
  exists m. split; [reflexivity|]. rewrite Em.
  assert (Hq' : q + (1 # 4) == inject_Z (n + 1) / 4).
  { rewrite Hq, inject_Z_plus. change (inject_Z 1) with 1.
    generalize (inject_Z n). intro x. field. }
  destruct (Z.eq_dec n 12) as [->|Hne].
  - rewrite Q.min_l; [reflexivity|]. rewrite Hq'. vm_compute. discriminate.
  - rewrite Z.min_r by lia. rewrite Q.min_r; [exact Hq'|].
    rewrite Hq'. apply Qle_shift_div_r; [reflexivity|].
    assert (H : inject_Z (n + 1) <= inject_Z 12)
      by (rewrite <- Zle_Qle; lia).
    change (inject_Z 12) with 12 in H. lra.
Qed.

Lemma zoomOut_quarters (q : Q) (n : Z) :
  q == inject_Z n / 4 -> (2 <= n <= 12)%Z ->
  exists q',
    FloorPlanViewer.zoomOut (JS.Fin q) = JS.Fin q'
    /\ q' == inject_Z (Z.max 2 (n - 1)) / 4.
Proof.
  intros Hq Hn. unfold FloorPlanViewer.zoomOut. cbn [JS.sub].
  destruct (max_fin (1 # 2) (q - (1 # 4))) as (m & -> & Em).
  exists m. split; [reflexivity|]. rewrite Em.
  assert (Hq' : q - (1 # 4) == inject_Z (n - 1) / 4).
  { rewrite Hq. unfold Z.sub. rewrite inject_Z_plus, inject_Z_opp.
    change (inject_Z 1) with 1.
    generalize (inject_Z n). intro x. field. }
  destruct (Z.eq_dec n 2) as [->|Hne].
  - rewrite Q.max_l; [reflexivity|]. rewrite Hq'. vm_compute. discriminate.
  - rewrite Z.max_r by lia. rewrite Q.max_r; [exact Hq'|].
    rewrite Hq'. apply Qle_shift_div_l; [reflexivity|].
    assert (H : inject_Z 2 <= inject_Z (n - 1)) by (rewrite <- Zle_Qle; lia).
    change (inject_Z 2) with 2 in H. lra.
Qed.

Lemma zoom_reachable (clicks : list FloorPlanViewer.Click) :
  forall (q : Q) (n : Z),
    q == inject_Z n / 4 -> (2 <= n <= 12)%Z ->
    exists q' n',
      fold_left FloorPlanViewer.click clicks (JS.Fin q) = JS.Fin q'
      /\ q' == inject_Z n' / 4 /\ (2 <= n' <= 12)%Z.
Proof.
  induction clicks as [|c clicks IH]; intros q n Hq Hn.
  - now exists q, n.
  - cbn [fold_left]. destruct c; cbn [FloorPlanViewer.click].
    + destruct (zoomOut_quarters q n Hq Hn) as (q1 & -> & H1).
      apply (IH q1 (Z.max 2 (n - 1)) H1). lia.
    + destruct (zoomIn_quarters q n Hq Hn) as (q1 & -> & H1).
      apply (IH q1 (Z.min 12 (n + 1)) H1). lia.
Qed.

(** X26: whatever the sequence of clicks on the two zoom buttons, starting
    from the initial zoom of 1, the zoom is a multiple of a quarter
    between 0.5 and 3, and the label shows the whole percentage 25 times
    that multiple, from 50 to 300. (Quarters in this range are exact in
    binary floating point.) *)
Theorem zoom_stays_in_range (clicks : list FloorPlanViewer.Click) :
  exists (q : Q) (n : Z),
    fold_left FloorPlanViewer.click clicks FloorPlanViewer.initialZoom
    = JS.Fin q
    /\ q == inject_Z n / 4
    /\ (2 <= n <= 12)%Z
    /\ 1 # 2 <= q /\ q <= 3
    /\ FloorPlanViewer.zoomPercent (JS.Fin q) = JS.Fin (inject_Z (25 * n)).
Proof.
  destruct (zoom_reachable clicks 1 4) as (q & n & Hq & En & Hn).
  - reflexivity.
  - lia.
  - exists q, n. split; [exact Hq|]. split; [exact En|]. split; [exact Hn|].
    assert (Hlo : inject_Z 2 <= inject_Z n) by (rewrite <- Zle_Qle; lia).
    assert (Hhi : inject_Z n <= inject_Z 12) by (rewrite <- Zle_Qle; lia).
    change (inject_Z 2) with 2 in Hlo. change (inject_Z 12) with 12 in Hhi.
    split; [rewrite En; apply Qle_shift_div_l; [reflexivity|lra]|].
    split; [rewrite En; apply Qle_shift_div_r; [reflexivity|lra]|].
    unfold FloorPlanViewer.zoomPercent. cbn [JS.mul JS.round].
    do 2 f_equal. rewrite <- (Qfloor_half_int (25 * n)).
    apply Qfloor_comp. rewrite En, inject_Z_mult.
    change (inject_Z 25) with 25.
    generalize (inject_Z n). intro x. field.
Qed.

(** X27: away from the two limits the buttons undo each other: from a zoom
    of at most 2.75 zooming in and then out gives the zoom back, and from
    a zoom of at least 0.75 so does zooming out and then in. *)
Theorem zoom_buttons_undo_each_other (q : Q) :
  3 # 4 <= q -> q <= 11 # 4 ->
  JS.num_eq (FloorPlanViewer.zoomOut (FloorPlanViewer.zoomIn (JS.Fin q)))
            (JS.Fin q)
  /\ JS.num_eq (FloorPlanViewer.zoomIn (FloorPlanViewer.zoomOut (JS.Fin q)))
               (JS.Fin q).
Proof.
  intros Hlo Hhi. split.
  - unfold FloorPlanViewer.zoomIn. cbn [JS.add].
    destruct (min_fin 3 (q + (1 # 4))) as (m & -> & Em).
    rewrite Q.min_r in Em by lra.
    unfold FloorPlanViewer.zoomOut. cbn [JS.sub].
    destruct (max_fin (1 # 2) (m - (1 # 4))) as (m' & -> & Em').
    rewrite Q.max_r in Em' by lra.
    cbn [JS.num_eq]. lra.
  - unfold FloorPlanViewer.zoomOut. cbn [JS.sub].
    destruct (max_fin (1 # 2) (q - (1 # 4))) as (m & -> & Em).
    rewrite Q.max_r in Em by lra.
    unfold FloorPlanViewer.zoomIn. cbn [JS.add].
    destruct (min_fin 3 (m + (1 # 4))) as (m' & -> & Em').
    rewrite Q.min_r in Em' by lra.
    cbn [JS.num_eq]. lra.
Qed.

Lemma zoom_buttons_undo_each_other_witness :
  JS.num_eq (FloorPlanViewer.zoomOut (FloorPlanViewer.zoomIn (JS.Fin 1)))
            (JS.Fin 1)
  /\ JS.num_eq (FloorPlanViewer.zoomIn (FloorPlanViewer.zoomOut (JS.Fin 1)))
               (JS.Fin 1).
Proof.
  apply (zoom_buttons_undo_each_other 1).
  - unfold Qle. cbn. lia.
  - unfold Qle. cbn. lia.
Defined.

(** ** The room shapes of the 3D view *)

Lemma points_of_fin (pts : list (Q * Q)) :
  RoomShape.points_of (fin_polygon pts) = Some (map fin_point pts).
Proof.
  induction pts as [|p pts IH]; [reflexivity|].
  cbn [fin_polygon map RoomShape.points_of] in *.
  unfold fin_polygon in IH. now rewrite IH.
Qed.

(** X28: a room whose polygon has one or two slots is drawn in 3D as the
    fallback box of its dimensions, the polygon being ignored, but it is
    not spread over the grid as the rooms without polygon are: whatever
    its index, its group is mounted at the offset of the scene, so such
    rooms stand on top of each other. *)
Theorem short_polygon_is_boxed_but_not_spread (Math_sqrt : Q -> Q)
  (offset : FloorPlan3D.Vector3) (room : RoomMetadata) (p : Polygon)
  (i : nat) :
  polygon room = Some p ->
  (0 < length p)%nat -> (length p < 3)%nat ->
  RoomShape.createRoomShape Math_sqrt room
  = Some [ (JS.Fin 0, JS.Fin 0);
           (FloorPlan3D.fallback_width Math_sqrt room, JS.Fin 0);
           (FloorPlan3D.fallback_width Math_sqrt room,
            FloorPlan3D.fallback_length Math_sqrt room);
           (JS.Fin 0, FloorPlan3D.fallback_length Math_sqrt room);
           (JS.Fin 0, JS.Fin 0) ]
  /\ FloorPlan3D.position
       (FloorPlan3D.Room room
          (FloorPlan3D.roomOffset Math_sqrt offset room i))
     = {| FloorPlan3D.x := FloorPlan3D.x offset;
          FloorPlan3D.y := JS.Fin 0;
          FloorPlan3D.z := FloorPlan3D.z offset |}.
Proof.
  intros Hp H0 H3. split.
  - unfold RoomShape.createRoomShape. rewrite Hp.
    assert (E : (2 <? length p)%nat = false) by (apply Nat.ltb_ge; lia).
    now rewrite E.
  - unfold FloorPlan3D.Room, FloorPlan3D.roomOffset,
      FloorPlan3D.lacks_polygon.
    rewrite Hp.
    assert (E : (length p =? 0)%nat = false) by (apply Nat.eqb_neq; lia).
    rewrite E. reflexivity.
Qed.

Lemma short_polygon_is_boxed_but_not_spread_witness :
  FloorPlan3D.position
    (FloorPlan3D.Room
       (polygon_room [(0, 0); (10, 0)] 100)
       (FloorPlan3D.roomOffset rational_sqrt
          {| FloorPlan3D.x := JS.Fin (-15);
             FloorPlan3D.y := JS.Fin 0;
             FloorPlan3D.z := JS.Fin (-15) |}
          (polygon_room [(0, 0); (10, 0)] 100) 4))
  = {| FloorPlan3D.x := JS.Fin (-15);
       FloorPlan3D.y := JS.Fin 0;
       FloorPlan3D.z := JS.Fin (-15) |}.
Proof.
  apply (proj2 (short_polygon_is_boxed_but_not_spread rational_sqrt
                  {| FloorPlan3D.x := JS.Fin (-15);
                     FloorPlan3D.y := JS.Fin 0;
                     FloorPlan3D.z := JS.Fin (-15) |}
                  (polygon_room [(0, 0); (10, 0)] 100)
                  (fin_polygon [(0, 0); (10, 0)]) 4 eq_refl
                  ltac:(simpl; lia) ltac:(simpl; lia))).
Defined.








(** ** Binary64 arithmetic *)

Lemma pow2_pos (e : Z) : 0 < 2 ^ e.
Proof. apply Qpower_0_lt. reflexivity. Qed.

Lemma pow2_nonzero (e : Z) : ~ 2 ^ e == 0.
Proof. intro H. pose proof (pow2_pos e) as P. rewrite H in P. inversion P. Qed.

Lemma pow2_add (a b : Z) : 2 ^ (a + b) == 2 ^ a * 2 ^ b.
Proof. apply Qpower_plus. discriminate. Qed.

Lemma pow2_sub (a b : Z) : 2 ^ (a - b) == 2 ^ a / 2 ^ b.
Proof.
  unfold Z.sub. rewrite pow2_add, Qpower_opp. reflexivity.
Qed.

Lemma pow2_le (a b : Z) : (a <= b)%Z -> 2 ^ a <= 2 ^ b.
Proof. intro H. apply Qpower_le_compat_l; [exact H|discriminate]. Qed.

Lemma pow2_lt (a b : Z) : (a < b)%Z -> 2 ^ a < 2 ^ b.
Proof. intro H. apply Qpower_lt_compat_l; [exact H|reflexivity]. Qed.

Lemma pow2_lt_inv (a b : Z) : 2 ^ a < 2 ^ b -> (a < b)%Z.
Proof. intro H. eapply Qpower_lt_compat_l_inv; [exact H|reflexivity]. Qed.

Lemma pow2_Z (e : Z) : (0 <= e)%Z -> 2 ^ e == inject_Z (2 ^ e).
Proof. intro H. now rewrite Zpower_Qpower. Qed.

Lemma pow2_succ (a : Z) : 2 ^ (a + 1) == 2 * 2 ^ a.
Proof. rewrite pow2_add. change (2 ^ 1) with 2. ring. Qed.

Lemma Qabs_inject_Z (z : Z) : Qabs (inject_Z z) = inject_Z (Z.abs z).
Proof. reflexivity. Qed.

(** *** The binary logarithm *)

Lemma log2_bounds (n : Z) :
  (0 < n)%Z ->
  inject_Z (2 ^ Z.log2 n) <= inject_Z n
  /\ inject_Z n < inject_Z (2 ^ (Z.log2 n + 1)).
Proof.
  intro H. destruct (Z.log2_spec n H) as [H1 H2].
  rewrite <- Zle_Qle, <- Zlt_Qlt. split; [exact H1|].
  now rewrite <- Z.add_1_r in H2.
Qed.

Lemma Qabs_as_fraction (q : Q) :
  Qabs q == inject_Z (Z.abs (Qnum q)) / inject_Z (Zpos (Qden q)).
Proof.
  destruct q as [n d]. unfold Qabs. cbn [Qnum Qden].
  unfold Qeq, Qdiv, Qmult, Qinv, inject_Z. cbn. lia.
Qed.

Lemma ilog2_spec (q : Q) :
  ~ q == 0 ->
  2 ^ Double.ilog2 q <= Qabs q /\ Qabs q < 2 ^ (Double.ilog2 q + 1).
Proof.
  intro Hq.
  assert (Hn : (0 < Z.abs (Qnum q))%Z).
  { destruct q as [n d]. cbn. unfold Qeq in Hq. cbn in Hq. lia. }
  pose proof (log2_bounds _ Hn) as [Hn1 Hn2].
  pose proof (log2_bounds (Zpos (Qden q)) ltac:(lia)) as [Hd1 Hd2].
  pose proof (Z.log2_nonneg (Z.abs (Qnum q))) as Ln.
  pose proof (Z.log2_nonneg (Zpos (Qden q))) as Ld.
  rewrite <- !pow2_Z in Hn1, Hn2, Hd1, Hd2 by lia.
  set (a := Z.log2 (Z.abs (Qnum q))) in *.
  set (b := Z.log2 (Zpos (Qden q))) in *.
  assert (Hd0 : 0 < inject_Z (Zpos (Qden q)))
    by (change 0 with (inject_Z 0); rewrite <- Zlt_Qlt; lia).
  assert (Hlow : 2 ^ (a - b - 1) <= Qabs q).
  { rewrite Qabs_as_fraction. apply Qle_shift_div_l; [exact Hd0|].
    apply Qle_trans with (2 ^ (a - b - 1) * 2 ^ (b + 1)).
    - apply Qmult_le_l; [apply pow2_pos|]. now apply Qlt_le_weak.
    - rewrite <- pow2_add. replace (a - b - 1 + (b + 1))%Z with a by lia.
      exact Hn1. }
  assert (Hup : Qabs q < 2 ^ (a - b + 1)).
  { rewrite Qabs_as_fraction. apply Qlt_shift_div_r; [exact Hd0|].
    apply Qlt_le_trans with (2 ^ (a + 1)); [exact Hn2|].
    replace (a + 1)%Z with (a - b + 1 + b)%Z by lia.
    rewrite pow2_add. apply Qmult_le_l; [apply pow2_pos|exact Hd1]. }
  unfold Double.ilog2. fold a b.
  destruct (Qle_bool (2 ^ (a - b)) (Qabs q)) eqn:E.
  - apply Qle_bool_iff in E. split; assumption.
  - split; [exact Hlow|].
    replace (a - b - 1 + 1)%Z with (a - b)%Z by lia.
    apply Qnot_le_lt. intro H. apply Qle_bool_iff in H. congruence.
Qed.

Lemma ilog2_unique (q : Q) (k : Z) :
  2 ^ k <= Qabs q -> Qabs q < 2 ^ (k + 1) -> Double.ilog2 q = k.
Proof.
  intros H1 H2.
  assert (Hq : ~ q == 0).
  { intro E. rewrite E in H1. pose proof (pow2_pos k).
    change (Qabs 0) with 0 in H1. lra. }
  destruct (ilog2_spec q Hq) as [L1 L2].
  assert (A : (Double.ilog2 q < k + 1)%Z)
    by (apply pow2_lt_inv; eapply Qle_lt_trans; eassumption).
  assert (B : (k < Double.ilog2 q + 1)%Z)
    by (apply pow2_lt_inv; eapply Qle_lt_trans; eassumption).
  lia.
Qed.

Lemma ilog2_comp (p q : Q) :
  ~ q == 0 -> p == q -> Double.ilog2 p = Double.ilog2 q.
Proof.
  intros NZ E. destruct (ilog2_spec q NZ) as [L1 L2].
  apply ilog2_unique; now rewrite E.
Qed.

(** *** Rounding to an integer *)

Lemma rne_cases (t : Q) :
  Double.rne t = Qfloor t \/ Double.rne t = (Qfloor t + 1)%Z.
Proof.
  unfold Double.rne.
  destruct (Qcompare (t - inject_Z (Qfloor t)) (1 # 2));
    [destruct (Z.even (Qfloor t))| |]; auto.
Qed.

Lemma rne_half (t : Q) : Qabs (inject_Z (Double.rne t) - t) <= 1 # 2.
Proof.
  pose proof (Qfloor_le t) as Hlo. pose proof (Qlt_floor t) as Hhi.
  rewrite inject_Z_plus in Hhi. change (inject_Z 1) with 1 in Hhi.
  apply Qabs_Qle_condition. unfold Double.rne.
  destruct (Qcompare (t - inject_Z (Qfloor t)) (1 # 2)) eqn:C.
  - apply Qeq_alt in C.
    destruct (Z.even (Qfloor t)).
    + split; lra.
    + rewrite inject_Z_plus. change (inject_Z 1) with 1. split; lra.
  - apply Qlt_alt in C. split; lra.
  - apply Qgt_alt in C. rewrite inject_Z_plus.
    change (inject_Z 1) with 1. split; lra.
Qed.

Lemma rne_int (z : Z) (t : Q) : t == inject_Z z -> Double.rne t = z.
Proof.
  intro E. unfold Double.rne.
  assert (F : Qfloor t = z) by (rewrite (Qfloor_comp _ _ E); apply Qfloor_Z).
  rewrite F.
  assert (C : Qcompare (t - inject_Z z) (1 # 2) = Lt).
  { apply Qlt_alt. rewrite E. setoid_replace (inject_Z z - inject_Z z) with 0
      by ring. reflexivity. }
  now rewrite C.
Qed.

Lemma rne_comp (s t : Q) : s == t -> Double.rne s = Double.rne t.
Proof.
  intro E. unfold Double.rne. rewrite (Qfloor_comp _ _ E).
  assert (C : Qcompare (s - inject_Z (Qfloor t)) (1 # 2)
              = Qcompare (t - inject_Z (Qfloor t)) (1 # 2))
    by (now rewrite E).
  now rewrite C.
Qed.

Lemma rne_nonneg (t : Q) : 0 <= t -> (0 <= Double.rne t)%Z.
Proof.
  intro H. assert (F : (0 <= Qfloor t)%Z).
  { change 0%Z with (Qfloor 0). now apply Qfloor_resp_le. }
  destruct (rne_cases t) as [-> | ->]; lia.
Qed.

Lemma rne_nonpos (t : Q) : t <= 0 -> (Double.rne t <= 0)%Z.
Proof.
  intro H.
  assert (F : (Qfloor t <= 0)%Z).
  { change 0%Z with (Qfloor 0). now apply Qfloor_resp_le. }
  destruct (Z.eq_dec (Qfloor t) 0) as [Z0|NZ].
  - (* t in [0, 1) and t <= 0: t == 0 *)
    pose proof (Qfloor_le t) as Hlo. rewrite Z0 in Hlo.
    change (inject_Z 0) with 0 in Hlo.
    assert (E : t == inject_Z 0) by (change (inject_Z 0) with 0; lra).
    rewrite (rne_int 0 t E). lia.
  - destruct (rne_cases t) as [-> | ->]; lia.
Qed.

(** *** Rounding to binary64 *)

Lemma ulp_exp_le (q : Q) : ~ q == 0 -> 2 ^ Double.ulp_exp q <= Qabs q / 2 ^ 52 + 2 ^ (-1074).
Proof.
  intro NZ. destruct (ilog2_spec q NZ) as [L1 _].
  unfold Double.ulp_exp.
  destruct (Z.max_spec (Double.ilog2 q - 52) (-1074)) as [[_ ->]|[_ ->]].
  - pose proof (Qabs_nonneg q).
    assert (0 <= Qabs q / 2 ^ 52).
    { apply Qle_shift_div_l; [apply pow2_pos|lra]. }
    lra.
  - rewrite pow2_sub.
    assert (2 ^ Double.ilog2 q / 2 ^ 52 <= Qabs q / 2 ^ 52).
    { apply Qmult_le_compat_r; [exact L1|].
      apply Qlt_le_weak, Qinv_lt_0_compat, pow2_pos. }
    pose proof (pow2_pos (-1074)). lra.
Qed.

Lemma round_value (q : Q) :
  ~ q == 0 ->
  Qabs (inject_Z (Double.rne (q / 2 ^ Double.ulp_exp q))
        * 2 ^ Double.ulp_exp q - q)
  <= 2 ^ Double.ulp_exp q / 2.
Proof.
  intro NZ. set (e := Double.ulp_exp q).
  pose proof (pow2_pos e) as P. pose proof (pow2_nonzero e) as N.
  setoid_replace (inject_Z (Double.rne (q / 2 ^ e)) * 2 ^ e - q)
    with ((inject_Z (Double.rne (q / 2 ^ e)) - q / 2 ^ e) * 2 ^ e)
    by (field; exact N).
  rewrite Qabs_Qmult, (Qabs_pos (2 ^ e)) by lra.
  pose proof (rne_half (q / 2 ^ e)) as H.
  apply Qle_trans with ((1 # 2) * 2 ^ e).
  - apply Qmult_le_compat_r; [exact H|lra].
  - apply Qle_shift_div_l; [reflexivity|]. lra.
Qed.

(** Half a unit in the last place bounds the error, when the exact value
    is below [2 ^ 1023] in magnitude. *)
Lemma round_error (q : Q) :
  Qabs q <= 2 ^ 1023 ->
  exists v,
    Double.round q = JS.Fin v
    /\ Qabs (v - q) <= Qabs q / 2 ^ 53 + 2 ^ (-1075)
    /\ (0 <= q -> 0 <= v) /\ (q <= 0 -> v <= 0).
Proof.
  intro Hb. unfold Double.round.
  destruct (Qeq_bool q 0) eqn:E0.
  - apply Qeq_bool_iff in E0. exists 0. split; [reflexivity|].
    split; [|split; intros _; lra].
    rewrite E0. vm_compute. discriminate.
  - apply Qeq_bool_neq in E0. cbv zeta.
    set (e := Double.ulp_exp q).
    set (v := inject_Z (Double.rne (q / 2 ^ e)) * 2 ^ e).
    pose proof (round_value q E0) as Hv. fold e v in Hv.
    pose proof (ulp_exp_le q E0) as He. fold e in He.
    assert (Herr : Qabs (v - q) <= Qabs q / 2 ^ 53 + 2 ^ (-1075)).
    { eapply Qle_trans; [exact Hv|].
      assert (E1 : Qabs q / 2 ^ 53 == (1 # 2) * (Qabs q / 2 ^ 52)).
      { change 53%Z with (52 + 1)%Z. rewrite pow2_succ.
        field; apply pow2_nonzero. }
      assert (E2 : 2 ^ (-1075) == (1 # 2) * 2 ^ (-1074))
        by (vm_compute; reflexivity).
      assert (E3 : 2 ^ e / 2 == (1 # 2) * 2 ^ e) by field.
      rewrite E1, E2, E3. lra. }
    assert (Hfin : Qle_bool (2 ^ 1024) (Qabs v) = false).
    { destruct (Qle_bool (2 ^ 1024) (Qabs v)) eqn:F; [|reflexivity].
      apply Qle_bool_iff in F. exfalso.
      assert (T : Qabs v <= Qabs q + Qabs (v - q)).
      { setoid_replace v with (q + (v - q)) at 1 by ring.
        apply Qabs_triangle. }
      assert (S1 : Qabs q / 2 ^ 53 <= 2 ^ 1023 / 2 ^ 53).
      { apply Qmult_le_compat_r; [exact Hb|].
        apply Qlt_le_weak, Qinv_lt_0_compat, pow2_pos. }
      assert (S2 : 2 ^ 1023 + 2 ^ 1023 / 2 ^ 53 + 2 ^ (-1075) < 2 ^ 1024)
        by (vm_compute; reflexivity).
      lra. }
    rewrite Hfin. exists (Qred v). split; [reflexivity|].
    rewrite Qred_correct. split; [exact Herr|].
    pose proof (pow2_pos e) as P.
    split; intro Hs.
    + apply Qmult_le_0_compat; [|lra].
      change 0 with (inject_Z 0). rewrite <- Zle_Qle. apply rne_nonneg.
      apply Qle_shift_div_l; [exact P|lra].
    + setoid_replace 0 with (0 * 2 ^ e) by ring.
      apply Qmult_le_compat_r; [|lra].
      change 0 with (inject_Z 0). rewrite <- Zle_Qle. apply rne_nonpos.
      apply Qle_shift_div_r; [exact P|lra].
Qed.

Lemma Qabs_scaled (m k : Z) :
  Qabs (inject_Z m * 2 ^ k) == inject_Z (Z.abs m) * 2 ^ k.
Proof.
  rewrite Qabs_Qmult, Qabs_inject_Z, (Qabs_pos (2 ^ k)); [reflexivity|].
  apply Qlt_le_weak, pow2_pos.
Qed.

Lemma representable_bound (q : Q) :
  representable q -> Qabs q < 2 ^ 1024.
Proof.
  intros (m & k & E & Hm & Hk). rewrite E, Qabs_scaled.
  apply Qlt_le_trans with (inject_Z (2 ^ 53) * 2 ^ k).
  - apply Qmult_lt_compat_r; [apply pow2_pos|]. now rewrite <- Zlt_Qlt.
  - rewrite <- pow2_Z by lia. rewrite <- pow2_add. apply pow2_le. lia.
Qed.

(** A binary64 number is its own rounding. *)
Lemma round_representable (q : Q) :
  representable q -> Double.round q = JS.Fin (Qred q).
Proof.
  intro R. pose proof (representable_bound q R) as Hb.
  destruct R as (m & k & E & Hm & Hk).
  unfold Double.round. destruct (Qeq_bool q 0) eqn:E0.
  - apply Qeq_bool_iff in E0. f_equal. symmetry.
    change 0 with (Qred 0). now apply Qred_complete.
  - apply Qeq_bool_neq in E0. cbv zeta.
    set (e := Double.ulp_exp q).
    destruct (ilog2_spec q E0) as [L1 _].
    assert (Hlog : (Double.ilog2 q < 53 + k)%Z).
    { apply pow2_lt_inv. eapply Qle_lt_trans; [exact L1|].
      rewrite E, Qabs_scaled, pow2_add.
      apply Qmult_lt_compat_r; [apply pow2_pos|].
      rewrite pow2_Z by lia. now rewrite <- Zlt_Qlt. }
    assert (Hek : (e <= k)%Z) by (unfold e, Double.ulp_exp; lia).
    assert (Et : q / 2 ^ e == inject_Z (m * 2 ^ (k - e))).
    { rewrite inject_Z_mult, <- pow2_Z by lia. rewrite pow2_sub, E.
      field. apply pow2_nonzero. }
    rewrite (rne_int _ _ Et).
    assert (Ev : inject_Z (m * 2 ^ (k - e)) * 2 ^ e == q).
    { rewrite <- Et. field. apply pow2_nonzero. }
    assert (Hfin : Qle_bool (2 ^ 1024)
                            (Qabs (inject_Z (m * 2 ^ (k - e)) * 2 ^ e))
                   = false).
    { destruct (Qle_bool (2 ^ 1024)
                         (Qabs (inject_Z (m * 2 ^ (k - e)) * 2 ^ e))) eqn:F;
        [|reflexivity].
      apply Qle_bool_iff in F. rewrite Ev in F. lra. }
    rewrite Hfin. f_equal. now apply Qred_complete.
Qed.

Lemma round_comp (p q : Q) : p == q -> Double.round p = Double.round q.
Proof.
  intro E. unfold Double.round.
  assert (E0 : Qeq_bool p 0 = Qeq_bool q 0).
  { destruct (Qeq_bool p 0) eqn:A; destruct (Qeq_bool q 0) eqn:B;
      try reflexivity.
    - apply Qeq_bool_iff in A. apply Qeq_bool_neq in B.
      elim B. now rewrite <- E.
    - apply Qeq_bool_iff in B. apply Qeq_bool_neq in A.
      elim A. now rewrite E. }
  rewrite E0. destruct (Qeq_bool q 0) eqn:Z0; [reflexivity|].
  apply Qeq_bool_neq in Z0. cbv zeta.
  assert (Ee : Double.ulp_exp p = Double.ulp_exp q)
    by (unfold Double.ulp_exp; now rewrite (ilog2_comp p q Z0 E)).
  rewrite Ee.
  assert (Er : Double.rne (p / 2 ^ Double.ulp_exp q)
               = Double.rne (q / 2 ^ Double.ulp_exp q))
    by (apply rne_comp; now rewrite E).
  rewrite Er.
  assert (Es : Qle_bool 0 p = Qle_bool 0 q).
  { destruct (Qle_bool 0 p) eqn:A; destruct (Qle_bool 0 q) eqn:B;
      try reflexivity.
    - apply Qle_bool_iff in A. rewrite E in A. apply Qle_bool_iff in A.
      congruence.
    - apply Qle_bool_iff in B. rewrite <- E in B. apply Qle_bool_iff in B.
      congruence. }
  now rewrite Es.
Qed.

Lemma representable_int (z : Z) :
  (Z.abs z <= 2 ^ 53)%Z -> representable (inject_Z z).
Proof.
  intro H. destruct (Z.eq_dec (Z.abs z) (2 ^ 53)) as [E|NE].
  - exists (z / 2)%Z, 1%Z. split; [|split; [|lia]].
    + change (2 ^ 1) with (inject_Z 2). rewrite <- inject_Z_mult.
      assert (z = (z / 2 * 2)%Z) as <-; [|reflexivity].
      assert (z = 2 ^ 53 \/ z = - 2 ^ 53)%Z as [-> | ->] by lia;
        reflexivity.
    + assert (z = 2 ^ 53 \/ z = - 2 ^ 53)%Z as [-> | ->] by lia;
        reflexivity.
  - exists z, 0%Z. split; [|split; [lia|lia]].
    change (2 ^ 0) with 1. ring.
Qed.

Lemma representable_half_int (z : Z) :
  (Z.abs z < 2 ^ 53)%Z -> representable (inject_Z z / 2).
Proof.
  intro H. exists z, (-1)%Z. split; [|split; [exact H|lia]].
  change (2 ^ (-1)) with (/ 2). reflexivity.
Qed.

Lemma Qred_inject_Z (z : Z) : Qred (inject_Z z) = inject_Z z.
Proof.
  unfold Qred, inject_Z.
  pose proof (Z.ggcd_gcd z 1) as G.
  pose proof (Z.ggcd_correct_divisors z 1) as D.
  destruct (Z.ggcd z 1) as (g & aa & bb). cbn [fst snd] in *.
  rewrite Z.gcd_1_r in G. subst g. destruct D as [D1 D2].
  rewrite Z.mul_1_l in D1, D2. now subst aa bb.
Qed.

(** Sums, differences and products of whole numbers are exact as long as
    the result has no more than 53 bits. *)
Lemma add_int (a b : Z) :
  (Z.abs (a + b) <= 2 ^ 53)%Z ->
  Double.add (JS.Fin (inject_Z a)) (JS.Fin (inject_Z b))
  = JS.Fin (inject_Z (a + b)).
Proof.
  intro H. unfold Double.add. cbn [JS.add Double.rnd].
  rewrite (round_comp _ (inject_Z (a + b)))
    by (now rewrite inject_Z_plus).
  rewrite round_representable by now apply representable_int.
  now rewrite Qred_inject_Z.
Qed.

Lemma sub_int (a b : Z) :
  (Z.abs (a - b) <= 2 ^ 53)%Z ->
  Double.sub (JS.Fin (inject_Z a)) (JS.Fin (inject_Z b))
  = JS.Fin (inject_Z (a - b)).
Proof.
  intro H. unfold Double.sub. cbn [JS.sub Double.rnd].
  rewrite (round_comp _ (inject_Z (a - b))).
  - rewrite round_representable by now apply representable_int.
    now rewrite Qred_inject_Z.
  - unfold Z.sub. rewrite inject_Z_plus, inject_Z_opp. reflexivity.
Qed.

Lemma mul_int (a b : Z) :
  (Z.abs (a * b) <= 2 ^ 53)%Z ->
  Double.mul (JS.Fin (inject_Z a)) (JS.Fin (inject_Z b))
  = JS.Fin (inject_Z (a * b)).
Proof.
  intro H. unfold Double.mul. cbn [JS.mul Double.rnd].
  rewrite (round_comp _ (inject_Z (a * b)))
    by (now rewrite inject_Z_mult).
  rewrite round_representable by now apply representable_int.
  now rewrite Qred_inject_Z.
Qed.

Lemma half_int (a : Z) :
  (Z.abs a < 2 ^ 53)%Z ->
  Double.div (JS.Fin (inject_Z a)) (JS.Fin 2)
  = JS.Fin (Qred (inject_Z a / 2)).
Proof.
  intro H. unfold Double.div, JS.div.
  change (Qeq_bool 2 0) with false. cbv iota. cbn [Double.rnd].
  now rewrite round_representable by now apply representable_half_int.
Qed.

(** ** The area calculator on pixels *)

Lemma nth_int_points (zs : list (Z * Z)) (i : nat) :
  nth i (int_points zs) (0, 0)
  = (inject_Z (fst (nth i zs (0, 0)%Z)), inject_Z (snd (nth i zs (0, 0)%Z))).
Proof.
  unfold int_points.
  change (0, 0) with ((fun p : Z * Z => (inject_Z (fst p), inject_Z (snd p)))
                        (0, 0)%Z).
  now rewrite map_nth.
Qed.

Lemma length_int_points (zs : list (Z * Z)) :
  length (int_points zs) = length zs.
Proof. apply length_map. Qed.

Lemma term_at_int (zs : list (Z * Z)) (j i : nat) :
  term_at (int_points zs) j i == inject_Z (zterm zs j i).
Proof.
  unfold term_at, zterm. rewrite !nth_int_points. cbn [fst snd].
  rewrite inject_Z_mult, inject_Z_plus. unfold Z.sub.
  rewrite inject_Z_plus, inject_Z_opp. reflexivity.
Qed.

Lemma within_nth (B : Z) (zs : list (Z * Z)) (i : nat) :
  within B zs -> (0 <= B)%Z ->
  (Z.abs (fst (nth i zs (0, 0))) <= B)%Z
  /\ (Z.abs (snd (nth i zs (0, 0))) <= B)%Z.
Proof.
  intros H HB. destruct (Nat.lt_ge_cases i (length zs)) as [Hi|Hi].
  - unfold within in H. rewrite Forall_forall in H.
    apply H. now apply nth_In.
  - rewrite nth_overflow by exact Hi. cbn. lia.
Qed.

Lemma zterm_bound (B : Z) (zs : list (Z * Z)) (j i : nat) :
  within B zs -> (0 <= B)%Z -> (Z.abs (zterm zs j i) <= 4 * B * B)%Z.
Proof.
  intros H HB. unfold zterm.
  destruct (within_nth B zs j H HB) as [X1 Y1].
  destruct (within_nth B zs i H HB) as [X2 Y2].
  rewrite Z.abs_mul.
  assert (A1 : (Z.abs (fst (nth j zs (0, 0)) + fst (nth i zs (0, 0)))
                <= 2 * B)%Z) by lia.
  assert (A2 : (Z.abs (snd (nth j zs (0, 0)) - snd (nth i zs (0, 0)))
                <= 2 * B)%Z) by lia.
  pose proof (Z.abs_nonneg
                (fst (nth j zs (0, 0)) + fst (nth i zs (0, 0)))%Z).
  pose proof (Z.abs_nonneg
                (snd (nth j zs (0, 0)) - snd (nth i zs (0, 0)))%Z).
  nia.
Qed.

Lemma area_step_int (B : Z) (zs : list (Z * Z)) (acc : Z) (j i : nat) :
  within B zs -> (0 <= B)%Z ->
  (j < length zs)%nat -> (i < length zs)%nat ->
  (Z.abs acc + 4 * B * B <= 2 ^ 53)%Z ->
  Editor64.area_step (flat_points (int_points zs))
                     (JS.Fin (inject_Z acc), (2 * Z.of_nat j)%Z)
                     (2 * Z.of_nat i)%Z
  = (JS.Fin (inject_Z (acc + zterm zs j i)), (2 * Z.of_nat i)%Z).
Proof.
  intros H HB Hj Hi Hacc. unfold Editor64.area_step.
  rewrite !at_index_even, !at_index_odd
    by (rewrite length_int_points; assumption).
  rewrite !nth_int_points. cbn [fst snd].
  pose proof (zterm_bound B zs j i H HB) as Ht. unfold zterm in Ht.
  destruct (within_nth B zs j H HB) as [X1 Y1].
  destruct (within_nth B zs i H HB) as [X2 Y2].
  assert (HB2 : (2 * B <= 2 ^ 53)%Z).
  { pose proof (Z.abs_nonneg acc). nia. }
  rewrite add_int by lia. rewrite sub_int by lia.
  rewrite mul_int by lia. rewrite add_int by (unfold zterm; lia).
  reflexivity.
Qed.

Lemma zsum_from_bound (B : Z) (zs : list (Z * Z)) (l : list nat) :
  within B zs -> (0 <= B)%Z ->
  forall acc,
    (Z.abs (zsum_from zs l acc)
     <= Z.abs acc + 4 * B * B * Z.of_nat (length l))%Z.
Proof.
  intros H HB. induction l as [|i l IH]; intro acc.
  - cbn. lia.
  - cbn [zsum_from fold_left length].
    specialize (IH (acc + zterm zs (prev (length zs) i) i)%Z).
    unfold zsum_from in IH.
    pose proof (zterm_bound B zs (prev (length zs) i) i H HB). lia.
Qed.

Lemma prev_lt (n i : nat) : (0 < n)%nat -> (i < n)%nat -> (prev n i < n)%nat.
Proof.
  intros Hn Hi. unfold prev. destruct (i =? 0)%nat; lia.
Qed.

Lemma area_loop_int (B : Z) (zs : list (Z * Z)) :
  within B zs -> (0 <= B)%Z ->
  forall m k acc,
    (k + m <= length zs)%nat -> (0 < length zs)%nat ->
    (Z.abs acc + 4 * B * B * Z.of_nat m <= 2 ^ 53)%Z ->
    fold_left (Editor64.area_step (flat_points (int_points zs)))
              (map (fun k => (2 * Z.of_nat k)%Z) (seq k m))
              (JS.Fin (inject_Z acc),
               (2 * Z.of_nat (prev (length zs) k))%Z)
    = (JS.Fin (inject_Z (zsum_from zs (seq k m) acc)),
       (2 * Z.of_nat (prev (length zs) (k + m)))%Z).
Proof.
  intros H HB. induction m as [|m IH]; intros k acc Hk Hn Hacc.
  - now rewrite Nat.add_0_r.
  - cbn [seq map fold_left zsum_from].
    rewrite (area_step_int B) by (try assumption; try apply prev_lt; lia).
    pose proof (zterm_bound B zs (prev (length zs) k) k H HB) as Ht.
    pose proof (IH (S k) (acc + zterm zs (prev (length zs) k) k)%Z
                   ltac:(lia) Hn ltac:(lia)) as Hrec.
    rewrite prev_S in Hrec. rewrite Hrec.
    now replace (S k + m)%nat with (k + S m)%nat by lia.
Qed.

Lemma loop_sum_int (zs : list (Z * Z)) :
  loop_sum (int_points zs)
  == inject_Z (zsum_from zs (seq 0 (length zs)) 0).
Proof.
  unfold loop_sum, zsum_from. rewrite length_int_points.
  change 0 with (inject_Z 0) at 1.
  generalize (seq 0 (length zs)) 0%Z. intro l.
  induction l as [|i l IH]; intro acc; [reflexivity|].
  cbn [fold_left]. rewrite <- IH. 
  assert (E : inject_Z acc + term_at (int_points zs) (prev (length zs) i) i
              == inject_Z (acc + zterm zs (prev (length zs) i) i)).
  { rewrite term_at_int, inject_Z_plus. reflexivity. }
  clear IH. revert E.
  generalize (inject_Z acc + term_at (int_points zs) (prev (length zs) i) i).
  generalize (inject_Z (acc + zterm zs (prev (length zs) i) i)).
  intros q1 q2 E. revert q1 q2 E.
  induction l as [|j l IH]; intros q1 q2 E; [exact E|].
  cbn [fold_left]. apply IH. now rewrite E.
Qed.

(** On pixels the binary64 loop makes no rounding error: the area computed
    is the value of the formula. *)
Lemma calculatePolygonArea_int (B : Z) (zs : list (Z * Z)) :
  within B zs ->
  (4 * B * B * Z.of_nat (length zs) < 2 ^ 53)%Z ->
  exists area,
    Editor64.calculatePolygonArea (flat_points (int_points zs))
    = JS.Fin area
    /\ area == shoelace_spec (int_points zs)
    /\ exists s : Z, area == inject_Z s / 2 /\ (0 <= s < 2 ^ 53)%Z.
Proof.
  intros H Hn.
  destruct (Nat.eq_dec (length zs) 0) as [E|E].
  { destruct zs; [|discriminate]. exists (Qabs (Qred (inject_Z 0 / 2))).
    split; [reflexivity|]. split; [reflexivity|]. exists 0%Z.
    split; [reflexivity|lia]. }
  destruct (Z.le_gt_cases 0 B) as [HB|HB].
  2: { exfalso. destruct zs as [|p zs]; [now elim E|].
       inversion H as [|? ? [Hp _] _]; subst. lia. }
  unfold Editor64.calculatePolygonArea, loop_indices.
  rewrite length_flat_points, Nat.div2_succ_double, length_int_points.
  replace (Z.of_nat (2 * length zs) - 2)%Z
    with (2 * Z.of_nat (prev (length zs) 0))%Z
    by (change (prev (length zs) 0) with (length zs - 1)%nat; lia).
  change (JS.Fin 0) with (JS.Fin (inject_Z 0)).
  rewrite (area_loop_int B zs H HB (length zs) 0 0)
    by (cbn [Z.abs]; lia).
  set (S := zsum_from zs (seq 0 (length zs)) 0).
  assert (HS : (Z.abs S < 2 ^ 53)%Z).
  { pose proof (zsum_from_bound B zs (seq 0 (length zs)) H HB 0) as Hb.
    rewrite length_seq in Hb. fold S in Hb. cbn [Z.abs] in Hb. lia. }
  rewrite half_int by exact HS. cbn [JS.abs].
  eexists. split; [reflexivity|].
  assert (Eh : Qabs (Qred (inject_Z S / 2)) == inject_Z (Z.abs S) / 2).
  { rewrite Qred_correct, Qabs_half. reflexivity. }
  split.
  - rewrite Qred_correct, <- shoelace_spec_loop_sum, loop_sum_int.
    reflexivity.
  - exists (Z.abs S). split; [exact Eh|lia].
Qed.

Lemma shoelace_spec_rectangle_int (x0 y0 w h : Z) :
  shoelace_spec
    (int_points [(x0, y0); (x0 + w, y0); (x0 + w, y0 + h); (x0, y0 + h)]%Z)
  == inject_Z (Z.abs (w * h)).
Proof.
  rewrite <- shoelace_spec_loop_sum, loop_sum_int.
  unfold zsum_from, zterm, prev.
  cbn [length seq fold_left nth Nat.eqb Nat.sub fst snd].
  rewrite Qabs_half, Qabs_inject_Z.
  replace (Z.abs
             (0 + (x0 + x0) * (y0 + h - y0) + (x0 + (x0 + w)) * (y0 - y0)
              + (x0 + w + (x0 + w)) * (y0 - (y0 + h))
              + (x0 + w + x0) * (y0 + h - (y0 + h))))%Z
    with (2 * Z.abs (w * h))%Z.
  - rewrite inject_Z_mult. change (inject_Z 2) with 2. field.
  - replace (0 + (x0 + x0) * (y0 + h - y0) + (x0 + (x0 + w)) * (y0 - y0)
             + (x0 + w + (x0 + w)) * (y0 - (y0 + h))
             + (x0 + w + x0) * (y0 + h - (y0 + h)))%Z
      with (- (2 * (w * h)))%Z by ring.
    lia.
Qed.







(** ** The rounding error of one operation *)

Lemma round_error_q (q : Q) :
  Qabs q <= 2 ^ 1023 ->
  exists v,
    Double.round q = JS.Fin v
    /\ Qabs (v - q) <= Qabs q * (1 # 9007199254740992) + 2 ^ (-1075)
    /\ (0 <= q -> 0 <= v) /\ (q <= 0 -> v <= 0).
Proof.
  intro H. destruct (round_error q H) as (v & E & Herr & Hs).
  exists v. split; [exact E|]. split; [exact Herr|exact Hs].
Qed.

Lemma Qmult_le_nonneg_l (a x y : Q) :
  0 <= a -> x <= y -> a * x <= a * y.
Proof.
  intros Ha H. rewrite (Qmult_comm a x), (Qmult_comm a y).
  now apply Qmult_le_compat_r.
Qed.


(** ** The area written by an edit *)

















(** *** An edit applied twice, and an edit that moves nothing *)












(** ** The normalizer in binary64 *)

(** *** Relative rounding errors *)

Lemma inject_Z_range (k lo hi : Z) :
  (lo <= k <= hi)%Z -> inject_Z lo <= inject_Z k /\ inject_Z k <= inject_Z hi.
Proof. intro H. rewrite <- !Zle_Qle. lia. Qed.

Lemma ulps_bounds (k : Z) (y x : Q) :
  0 <= x -> (0 <= k <= 2 ^ 50)%Z -> ulps k y x ->
  x * (3 # 4) <= y /\ y <= x * (5 # 4).
Proof.
  intros Hx Hk H. unfold ulps in H. apply Qabs_Qle_condition in H.
  destruct (inject_Z_range _ _ _ Hk) as [Hk0 Hk1].
  change (inject_Z 0) with 0 in Hk0.
  change (inject_Z (2 ^ 50)) with (1125899906842624 # 1) in Hk1.
  assert (B : inject_Z k * x * (1 # 4503599627370496) <= x * (1 # 4)).
  { generalize dependent (inject_Z k). intros c ? ? ?. nra. }
  split; lra.
Qed.

Lemma ulps_refl (x : Q) : 0 <= x -> ulps 0 x x.
Proof.
  intro H. unfold ulps. setoid_replace (x - x) with 0 by ring.
  change (inject_Z 0) with 0. change (Qabs 0) with 0. lra.
Qed.

Lemma ulps_weaken (k k' : Z) (y x : Q) :
  0 <= x -> (k <= k')%Z -> ulps k y x -> ulps k' y x.
Proof.
  intros Hx Hk H. unfold ulps in *. eapply Qle_trans; [exact H|].
  assert (Hc : inject_Z k <= inject_Z k') by (now rewrite <- Zle_Qle).
  generalize dependent (inject_Z k). generalize (inject_Z k').
  intros c' c _ Hc. nra.
Qed.

Lemma ulps_scale (k : Z) (c y x : Q) :
  0 <= c -> ulps k y x -> ulps k (c * y) (c * x).
Proof.
  intros Hc H. unfold ulps in *.
  setoid_replace (c * y - c * x) with (c * (y - x)) by ring.
  rewrite Qabs_Qmult, (Qabs_pos c Hc).
  setoid_replace (inject_Z k * (c * x) * (1 # 4503599627370496))
    with (c * (inject_Z k * x * (1 # 4503599627370496))) by ring.
  now apply Qmult_le_nonneg_l.
Qed.

Lemma ulps_round (k : Z) (q x : Q) :
  2 ^ (-800) <= x -> x <= 2 ^ 800 -> (0 <= k <= 2 ^ 50)%Z ->
  ulps k q x ->
  exists v, Double.round q = JS.Fin v /\ ulps (k + 1) v x /\ 0 < v.
Proof.
  intros Hlo Hhi Hk H.
  assert (P800 : 0 < 2 ^ (-800)) by apply pow2_pos.
  assert (Hx : 0 <= x) by lra.
  destruct (ulps_bounds k q x Hx Hk H) as [Q1 Q2].
  assert (Hq0 : 0 <= q) by lra.
  assert (S1 : 2 ^ 800 * (5 # 4) <= 2 ^ 1023) by (vm_compute; discriminate).
  assert (S2 : 2 ^ (-1075) <= 2 ^ (-800) * (1 # 36028797018963968))
    by (vm_compute; discriminate).
  destruct (round_error_q q) as (v & Ev & Herr & Hv0 & _).
  { rewrite Qabs_pos by exact Hq0. lra. }
  rewrite (Qabs_pos q Hq0) in Herr.
  exists v. split; [exact Ev|].
  unfold ulps in *. rewrite inject_Z_plus. change (inject_Z 1) with 1.
  apply Qabs_Qle_condition in H. apply Qabs_Qle_condition in Herr.
  split; [apply Qabs_Qle_condition; split; lra|lra].
Qed.

Lemma ulps_div (k : Z) (a d x : Q) :
  0 < a -> 0 < x -> (0 <= k <= 2 ^ 20)%Z ->
  ulps k d x -> ulps (k + 1) (a / d) (a / x).
Proof.
  intros Ha Hx Hk H.
  destruct (ulps_bounds k d x ltac:(lra) ltac:(lia) H) as [D1 _].
  assert (Hd : 0 < d) by lra.
  unfold ulps in *. rewrite inject_Z_plus. change (inject_Z 1) with 1.
  destruct (inject_Z_range _ _ _ Hk) as [Hk0 Hk1].
  change (inject_Z 0) with 0 in Hk0.
  change (inject_Z (2 ^ 20)) with (1048576 # 1) in Hk1.
  apply Qabs_Qle_condition in H. destruct H as [H1 H2].
  generalize dependent (inject_Z k). intros c H1 H2 Hc0 Hc1.
  assert (Hr0 : 0 < a / x) by (apply Qlt_shift_div_l; lra).
  assert (E : a / d - a / x == a / x * ((x - d) / d))
    by (field; split; lra).
  rewrite E, Qabs_Qmult, (Qabs_pos (a / x)) by lra.
  setoid_replace ((c + 1) * (a / x) * (1 # 4503599627370496))
    with (a / x * ((c + 1) * (1 # 4503599627370496))) by ring.
  apply Qmult_le_nonneg_l; [lra|].
  apply Qabs_Qle_condition. split.
  - apply Qle_shift_div_l; [exact Hd|]. nra.
  - apply Qle_shift_div_r; [exact Hd|]. nra.
Qed.

(** *** [Math.sqrt] *)

(** The square root as [Double.sqrt] computes it: an integer [m] of 53
    bits, the nearest to the root of the scaled argument. *)
Lemma sqrt_core (a : Q) :
  0 < a ->
  exists m,
    Double.sqrt (JS.Fin a)
    = JS.Fin (Qred (inject_Z m * 2 ^ ((Double.ilog2 a - 104) / 2)))
    /\ (2 ^ 52 <= m)%Z
    /\ (inject_Z m - (1 # 2)) * (inject_Z m - (1 # 2))
       <= a / 2 ^ (2 * ((Double.ilog2 a - 104) / 2))
    /\ a / 2 ^ (2 * ((Double.ilog2 a - 104) / 2))
       <= (inject_Z m + (1 # 2)) * (inject_Z m + (1 # 2)).
Proof.
  intro Ha. unfold Double.sqrt.
  assert (Hnz : ~ a == 0) by (intro E; rewrite E in Ha; discriminate).
  destruct (Qeq_bool a 0) eqn:E0; [apply Qeq_bool_iff in E0; contradiction|].
  destruct (Qle_bool a 0) eqn:E1; [apply Qle_bool_iff in E1; lra|].
  destruct (ilog2_spec a Hnz) as [L1 L2].
  rewrite (Qabs_pos a) in L1, L2 by lra.
  set (L := Double.ilog2 a) in *.
  set (e := ((L - 104) / 2)%Z).
  assert (He : (L - 105 <= 2 * e <= L - 104)%Z).
  { unfold e. pose proof (Z.div_mod (L - 104) 2 ltac:(lia)).
    pose proof (Z.mod_pos_bound (L - 104) 2 ltac:(lia)). lia. }
  set (t := a / 2 ^ (2 * e)).
  pose proof (pow2_pos (2 * e)) as Hp.
  assert (T1 : 2 ^ 104 <= t).
  { unfold t. apply Qle_shift_div_l; [exact Hp|].
    rewrite <- pow2_add. eapply Qle_trans; [|exact L1].
    apply pow2_le. lia. }
  assert (T2 : t < 2 ^ 106).
  { unfold t. apply Qlt_shift_div_r; [exact Hp|].
    rewrite <- pow2_add. eapply Qlt_le_trans; [exact L2|].
    apply pow2_le. lia. }
  set (f := Qfloor t).
  pose proof (Qfloor_le t) as F1. pose proof (Qlt_floor t) as F2.
  fold f in F1, F2. rewrite inject_Z_plus in F2.
  change (inject_Z 1) with 1 in F2.
  assert (Hf : (2 ^ 104 <= f)%Z).
  { unfold f. rewrite <- (Qfloor_Z (2 ^ 104)). apply Qfloor_resp_le.
    rewrite <- pow2_Z by lia. exact T1. }
  pose proof (Z.sqrt_spec f ltac:(lia)) as Hs. cbv zeta in Hs.
  set (m0 := Z.sqrt f) in *.
  assert (Hm0 : (2 ^ 52 <= m0)%Z).
  { change (2 ^ 52)%Z with (Z.sqrt (2 ^ 104)). now apply Z.sqrt_le_mono. }
  assert (M1 : inject_Z m0 * inject_Z m0 <= t).
  { eapply Qle_trans; [|exact F1]. rewrite <- inject_Z_mult, <- Zle_Qle.
    lia. }
  assert (M2 : t <= (inject_Z m0 + 1) * (inject_Z m0 + 1)).
  { assert (H1 : inject_Z f + 1 <= (inject_Z m0 + 1) * (inject_Z m0 + 1)).
    { change 1 with (inject_Z 1).
      rewrite <- !inject_Z_plus, <- inject_Z_mult, <- Zle_Qle.
      unfold Z.succ in Hs. lia. }
    lra. }
  assert (M0 : 4503599627370496 <= inject_Z m0).
  { change 4503599627370496 with (inject_Z (2 ^ 52)).
    now rewrite <- Zle_Qle. }
  destruct (Qcompare t ((inject_Z m0 + (1 # 2)) * (inject_Z m0 + (1 # 2))))
    eqn:C.
  - apply Qeq_alt in C.
    destruct (Z.even m0).
    + exists m0. split; [reflexivity|]. split; [exact Hm0|].
      fold e. fold t. split; [nra|lra].
    + exists (m0 + 1)%Z. split; [reflexivity|]. split; [lia|].
      fold e. fold t. rewrite inject_Z_plus. change (inject_Z 1) with 1.
      split; [|nra].
      rewrite C. apply Qle_lteq. right. ring.
  - apply Qlt_alt in C.
    exists m0. split; [reflexivity|]. split; [exact Hm0|].
    fold e. fold t. split; [nra|lra].
  - apply Qgt_alt in C.
    exists (m0 + 1)%Z. split; [reflexivity|]. split; [lia|].
    fold e. fold t. rewrite inject_Z_plus. change (inject_Z 1) with 1.
    split; [|nra].
    apply Qlt_le_weak. eapply Qle_lt_trans; [|exact C].
    apply Qle_lteq. right. ring.
Qed.

(** The computed root squares back to its argument within two rounding
    errors. *)
Lemma sqrt_close (a : Q) :
  0 < a ->
  exists s, Double.sqrt (JS.Fin a) = JS.Fin s /\ 0 < s /\ ulps 2 (s * s) a.
Proof.
  intro Ha. destruct (sqrt_core a Ha) as (m & E & Hm & T1 & T2).
  set (e := ((Double.ilog2 a - 104) / 2)%Z) in *.
  set (t := a / 2 ^ (2 * e)) in *.
  pose proof (pow2_pos e) as Hp.
  assert (Pe : 2 ^ (2 * e) == 2 ^ e * 2 ^ e)
    by (rewrite <- pow2_add; replace (2 * e)%Z with (e + e)%Z by lia;
        reflexivity).
  assert (Ea : a == t * (2 ^ e * 2 ^ e)).
  { unfold t. rewrite Pe. field. apply pow2_nonzero. }
  assert (M0 : 4503599627370496 <= inject_Z m).
  { change 4503599627370496 with (inject_Z (2 ^ 52)).
    now rewrite <- Zle_Qle. }
  exists (Qred (inject_Z m * 2 ^ e)). split; [exact E|].
  split.
  - rewrite Qred_correct. apply Qmult_lt_0_compat; [lra|exact Hp].
  - unfold ulps. rewrite Qred_correct. change (inject_Z 2) with 2.
    rewrite Ea.
    generalize dependent (inject_Z m). intros M _ T1 T2 HM.
    generalize dependent (2 ^ e). intros p _ Hp _.
    setoid_replace (M * p * (M * p) - t * (p * p))
      with (p * p * (M * M - t)) by ring.
    assert (Hpp : 0 <= p * p) by nra.
    rewrite Qabs_Qmult, (Qabs_pos (p * p) Hpp).
    setoid_replace (2 * (t * (p * p)) * (1 # 4503599627370496))
      with (p * p * (t * (1 # 2251799813685248))) by ring.
    apply Qmult_le_nonneg_l; [exact Hpp|].
    apply Qabs_Qle_condition. split; nra.
Qed.

(** The root of the square of a whole number is that number. *)
Lemma sqrt_square (z : Z) :
  (0 < z < 2 ^ 53)%Z ->
  Double.sqrt (JS.Fin (inject_Z (z * z))) = JS.Fin (inject_Z z).
Proof.
  intro Hz.
  assert (Ha : 0 < inject_Z (z * z)).
  { change 0 with (inject_Z 0). rewrite <- Zlt_Qlt. nia. }
  destruct (sqrt_core _ Ha) as (m & E & Hm & T1 & T2).
  assert (Hnz : ~ inject_Z (z * z) == 0) by (intro E0; rewrite E0 in Ha; lra).
  destruct (ilog2_spec _ Hnz) as [L1 _].
  rewrite (Qabs_pos _ (Qlt_le_weak _ _ Ha)) in L1.
  set (L := Double.ilog2 (inject_Z (z * z))) in *.
  assert (HL : (L < 106)%Z).
  { apply pow2_lt_inv. eapply Qle_lt_trans; [exact L1|].
    rewrite (pow2_Z 106) by lia. rewrite <- Zlt_Qlt. nia. }
  set (e := ((L - 104) / 2)%Z) in *.
  assert (He : (e <= 0)%Z).
  { unfold e. pose proof (Z.div_mod (L - 104) 2 ltac:(lia)).
    pose proof (Z.mod_pos_bound (L - 104) 2 ltac:(lia)). lia. }
  set (N := (z * 2 ^ (- e))%Z).
  assert (HN : (0 < N)%Z).
  { unfold N. apply Z.mul_pos_pos; [lia|]. apply Z.pow_pos_nonneg; lia. }
  assert (Pe : 2 ^ (2 * e) * (inject_Z (2 ^ (- e)) * inject_Z (2 ^ (- e)))
               == 1).
  { rewrite <- (pow2_Z (- e)) by lia. rewrite <- !pow2_add.
    replace (2 * e + (- e + - e))%Z with 0%Z by lia. reflexivity. }
  assert (Et : inject_Z (z * z) / 2 ^ (2 * e) == inject_Z (N * N)).
  { unfold N. rewrite !inject_Z_mult.
    pose proof (pow2_nonzero (2 * e)) as Hq.
    generalize dependent (2 ^ (2 * e)). intros q ? ? ? ?.
    generalize dependent (inject_Z (2 ^ (- e))). intros r ?.
    setoid_replace (inject_Z z * r * (inject_Z z * r))
      with (inject_Z z * inject_Z z * (q * (r * r)) / q) by (field; exact Hq).
    rewrite Pe. field. exact Hq. }
  rewrite Et in T1, T2.
  assert (Z1 : ((2 * m - 1) * (2 * m - 1) <= 4 * (N * N))%Z).
  { rewrite Zle_Qle. unfold Z.sub.
    rewrite !inject_Z_mult, !inject_Z_plus, !inject_Z_mult, !inject_Z_opp.
    change (inject_Z 2) with 2. change (inject_Z 1) with 1.
    change (inject_Z 4) with 4.
    rewrite inject_Z_mult in T1. lra. }
  assert (Z2 : (4 * (N * N) <= (2 * m + 1) * (2 * m + 1))%Z).
  { rewrite Zle_Qle. rewrite !inject_Z_mult, !inject_Z_plus, !inject_Z_mult.
    change (inject_Z 2) with 2. change (inject_Z 1) with 1.
    change (inject_Z 4) with 4.
    rewrite inject_Z_mult in T2. lra. }
  assert (Em : N = m) by nia.
  rewrite E. f_equal.
  transitivity (Qred (inject_Z z)); [|apply Qred_inject_Z].
  apply Qred_complete.
  rewrite <- Em. unfold N. rewrite inject_Z_mult.
  rewrite <- (pow2_Z (- e)) by lia.
  rewrite <- Qmult_assoc, <- pow2_add.
  replace (- e + e)%Z with 0%Z by lia. change (2 ^ 0) with 1. ring.
Qed.

(** *** The operations on finite numbers *)

Lemma round_nonpos (q : Q) :
  q <= 0 -> (Double.round q <= JS.Fin 0)%js = true.
Proof.
  intro Hq. unfold Double.round.
  destruct (Qeq_bool q 0) eqn:E0; [reflexivity|].
  apply Qeq_bool_neq in E0. cbv zeta.
  set (e := Double.ulp_exp q).
  destruct (Qle_bool (2 ^ 1024)
                     (Qabs (inject_Z (Double.rne (q / 2 ^ e)) * 2 ^ e))).
  - destruct (Qle_bool 0 q) eqn:E1; [|reflexivity].
    apply Qle_bool_iff in E1. exfalso. apply E0. lra.
  - unfold JS.leb, JS.cmp.
    assert (H : Qred (inject_Z (Double.rne (q / 2 ^ e)) * 2 ^ e) <= 0).
    { rewrite Qred_correct. pose proof (pow2_pos e) as P.
      setoid_replace 0 with (0 * 2 ^ e) by ring.
      apply Qmult_le_compat_r; [|lra].
      change 0 with (inject_Z 0). rewrite <- Zle_Qle. apply rne_nonpos.
      apply Qle_shift_div_r; [exact P|lra]. }
    destruct (Qcompare_spec
                (Qred (inject_Z (Double.rne (q / 2 ^ e)) * 2 ^ e)) 0)
      as [C|C|C]; try reflexivity. lra.
Qed.

Lemma round_negative (q : Q) :
  q < 0 -> 2 ^ (-800) <= - q -> - q <= 2 ^ 800 ->
  exists v,
    Double.round q = JS.Fin v /\ v < 0
    /\ q * (5 # 4) <= v /\ v <= q * (3 # 4).
Proof.
  intros Hq Hlo Hhi.
  assert (Ea : Qabs q == - q) by (apply Qabs_neg; lra).
  assert (S1 : 2 ^ 800 <= 2 ^ 1023) by (apply pow2_le; lia).
  assert (S2 : 2 ^ (-1075) <= 2 ^ (-800) * (1 # 8))
    by (vm_compute; discriminate).
  destruct (round_error_q q) as (v & Ev & Herr & _ & _).
  { rewrite Ea. lra. }
  rewrite Ea in Herr. apply Qabs_Qle_condition in Herr.
  exists v. split; [exact Ev|].
  pose proof (pow2_pos (-800)). repeat split; lra.
Qed.

Lemma guard_positive (v : JS.num) : (JS.Fin 0 < guard v)%js = true.
Proof.
  unfold guard. destruct v as [| | |q]; try reflexivity.
  cbn [JS.isNaN orb]. unfold JS.leb, JS.ltb, JS.cmp.
  destruct (Qcompare_spec q 0) as [C|C|C]; try reflexivity.
  destruct (Qcompare_spec 0 q) as [D|D|D]; try reflexivity; lra.
Qed.

Lemma guard_nonpos (v : JS.num) :
  (v <= JS.Fin 0)%js = true -> guard v = JS.Fin 150.
Proof. intro H. unfold guard. rewrite H. now rewrite orb_true_r. Qed.

Lemma guard_pos_fin (v : Q) : 0 < v -> guard (JS.Fin v) = JS.Fin v.
Proof.
  intro H. unfold guard, JS.leb, JS.cmp. cbn [JS.isNaN orb].
  destruct (Qcompare_spec v 0) as [C|C|C]; try reflexivity; lra.
Qed.

Lemma guard_neg_fin (v : Q) : v <= 0 -> guard (JS.Fin v) = JS.Fin 150.
Proof.
  intro H. apply guard_nonpos. unfold JS.leb, JS.cmp.
  destruct (Qcompare_spec v 0) as [C|C|C]; try reflexivity; lra.
Qed.

Lemma div64_fin (a b : Q) :
  ~ b == 0 -> (JS.Fin a / JS.Fin b)%f64 = Double.round (a / b).
Proof.
  intro H. unfold Double.div. now rewrite div_fin.
Qed.

Lemma ulps_scale_r (k : Z) (c y x : Q) :
  0 <= c -> ulps k y x -> ulps k (y * c) (x * c).
Proof.
  intros Hc H. pose proof (ulps_scale k c y x Hc H) as H'.
  unfold ulps in *.
  setoid_replace (y * c - x * c) with (c * y - c * x) by ring.
  eapply Qle_trans; [exact H'|]. apply Qle_lteq. right. ring.
Qed.

Lemma ulps_comp (k : Z) (y y' x x' : Q) :
  y == y' -> x == x' -> ulps k y x -> ulps k y' x'.
Proof. unfold ulps. intros Ey Ex H. now rewrite <- Ey, <- Ex. Qed.

Lemma truthy_value_fin (q : Q) :
  ~ q == 0 -> JS.truthy_value (JS.VNum (JS.Fin q)) = true.
Proof.
  intro H. cbn [JS.truthy_value]. unfold JS.truthy. cbn [JS.isNaN orb].
  rewrite strict_eq_fin.
  destruct (Qeq_bool q 0) eqn:E; [|reflexivity].
  apply Qeq_bool_iff in E. contradiction.
Qed.

(** The width as first computed, on a room with moderate numbers. *)
Lemma raw_w64 (room : RoomMetadata) (a : Q) :
  safeArea (clone_room room) = JS.Fin a ->
  2 ^ (-20) <= a -> a <= 2 ^ 40 ->
  (forall q, dim_width room = JS.VNum (JS.Fin q) -> ~ q == 0 ->
             2 ^ (-10) <= Qabs q /\ Qabs q <= 2 ^ 20) ->
  exists v,
    Editor64.raw_w (clone_room room) = JS.Fin v
    /\ 2 ^ (-9) <= Qabs v /\ Qabs v <= 2 ^ 26
    /\ (forall q, dim_width room = JS.VNum (JS.Fin q) -> 0 < q ->
                  0 < v /\ ulps 1 v (q * 15)
                  /\ Double.round (q * 15) = JS.Fin v)
    /\ (forall q, dim_width room = JS.VNum (JS.Fin q) -> q < 0 -> v < 0)
    /\ (JS.truthy_value (dim_width room) = false ->
        0 < v
        /\ exists s,
            Double.sqrt (JS.Fin a) = JS.Fin s /\ 0 < s
            /\ ulps 2 (s * s) a /\ ulps 1 v (s * 15)
            /\ Double.round (s * 15) = JS.Fin v).
Proof.
  intros Ha A1 A2 Hmod. unfold Editor64.raw_w.
  rewrite dim_width_clone, Ha.
  assert (N1 : 2 ^ (-800) <= 2 ^ (-11) * 15) by (vm_compute; discriminate).
  assert (N2 : 2 ^ 21 * 15 <= 2 ^ 800) by (vm_compute; discriminate).
  assert (N3 : 2 ^ (-9) <= 2 ^ (-11) * 15 * (3 # 4))
    by (vm_compute; discriminate).
  assert (N4 : 2 ^ 21 * 15 * (5 # 4) <= 2 ^ 26) by (vm_compute; discriminate).
  assert (N5 : 2 ^ (-11) <= 2 ^ (-10)) by (vm_compute; discriminate).
  assert (N6 : 2 ^ 20 <= 2 ^ 21) by (vm_compute; discriminate).
  assert (N7 : 0 < 2 ^ (-11)) by apply pow2_pos.
  destruct (truthy_roundtrip (dim_width room))
    as [(q & Hq & Hnz & -> & ->)|(-> & Hz)].
  - destruct (Hmod q Hq Hnz) as [B1 B2].
    change (JS.Fin q * JS.Fin 15)%f64 with (Double.round (q * 15)).
    destruct (Qlt_le_dec 0 q) as [Hpos|Hneg].
    + rewrite (Qabs_pos q) in B1, B2 by lra.
      destruct (ulps_round 0 (q * 15) (q * 15)) as (v & Ev & Hu & Hv);
        [lra|lra|lia|apply ulps_refl; lra|].
      change (0 + 1)%Z with 1%Z in Hu.
      destruct (ulps_bounds 1 v (q * 15) ltac:(lra) ltac:(lia) Hu)
        as [V1 V2].
      exists v. split; [exact Ev|]. rewrite (Qabs_pos v) by lra.
      split; [lra|]. split; [lra|]. split; [|split].
      * intros q' Hq' _. rewrite Hq in Hq'. injection Hq' as <-.
        now repeat split.
      * intros q' Hq' Hlt. rewrite Hq in Hq'. injection Hq' as <-. lra.
      * intro Hf. rewrite Hq, (truthy_value_fin q Hnz) in Hf. discriminate.
    + assert (Hlt : q < 0).
      { apply Qle_lteq in Hneg. destruct Hneg as [H|H]; [exact H|].
        contradiction. }
      rewrite (Qabs_neg q) in B1, B2 by lra.
      destruct (round_negative (q * 15)) as (v & Ev & Hv & V1 & V2);
        [lra|lra|lra|].
      exists v. split; [exact Ev|]. rewrite (Qabs_neg v) by lra.
      split; [lra|]. split; [lra|]. split; [|split].
      * intros q' Hq' Hp. rewrite Hq in Hq'. injection Hq' as <-. lra.
      * intros _ _ _. exact Hv.
      * intro Hf. rewrite Hq, (truthy_value_fin q Hnz) in Hf. discriminate.
  - assert (Hapos : 0 < a) by (pose proof (pow2_pos (-20)); lra).
    destruct (sqrt_close a Hapos) as (s & Es & Hs & Hss).
    destruct (ulps_bounds 2 (s * s) a ltac:(lra) ltac:(lia) Hss)
      as [S1 S2].
    assert (D1 : 2 ^ (-11) * 2 ^ (-11) < 2 ^ (-20) * (3 # 4))
      by (vm_compute; reflexivity).
    assert (D2 : 2 ^ 40 * (5 # 4) < 2 ^ 21 * 2 ^ 21)
      by (vm_compute; reflexivity).
    assert (D3 : 0 < 2 ^ 21) by apply pow2_pos.
    assert (R1 : 2 ^ (-11) <= s).
    { destruct (Qlt_le_dec s (2 ^ (-11))) as [H|H]; [|exact H].
      exfalso. generalize dependent (2 ^ (-11)). intros p; intros. nra. }
    assert (R2 : s <= 2 ^ 21).
    { destruct (Qlt_le_dec (2 ^ 21) s) as [H|H]; [|exact H].
      exfalso. generalize dependent (2 ^ 21). intros p; intros. nra. }
    rewrite Es.
    change (JS.Fin s * JS.Fin 15)%f64 with (Double.round (s * 15)).
    destruct (ulps_round 0 (s * 15) (s * 15)) as (v & Ev & Hu & Hv);
      [lra|lra|lia|apply ulps_refl; lra|].
    change (0 + 1)%Z with 1%Z in Hu.
    destruct (ulps_bounds 1 v (s * 15) ltac:(lra) ltac:(lia) Hu)
      as [V1 V2].
    exists v. split; [exact Ev|]. rewrite (Qabs_pos v) by lra.
    split; [lra|]. split; [lra|]. split; [|split].
    + intros q Hq Hp. exfalso. pose proof (Hz q Hq). lra.
    + intros q Hq Hp. exfalso. pose proof (Hz q Hq). lra.
    + intros _. split; [exact Hv|]. exists s. now repeat split.
Qed.

Lemma round_whole (q : Q) (n : Z) :
  q == inject_Z n -> (Z.abs n <= 2 ^ 53)%Z ->
  Double.round q = JS.Fin (inject_Z n).
Proof.
  intros E H. rewrite (round_comp _ _ E).
  rewrite (round_representable _ (representable_int n H)).
  now rewrite Qred_inject_Z.
Qed.

Lemma leb_fin_zero (r : Q) : (JS.Fin r <= JS.Fin 0)%js = true -> r <= 0.
Proof.
  unfold JS.leb, JS.cmp.
  destruct (Qcompare_spec r 0) as [C|C|C]; intro H; try discriminate; lra.
Qed.

(** The length after its guard, on a room with moderate numbers; [v] is
    the width as first computed. *)
Lemma fallback_l64 (room : RoomMetadata) (a v : Q) :
  safeArea (clone_room room) = JS.Fin a ->
  2 ^ (-20) <= a -> a <= 2 ^ 40 ->
  Editor64.raw_w (clone_room room) = JS.Fin v ->
  2 ^ (-9) <= Qabs v -> Qabs v <= 2 ^ 26 ->
  (forall q, dim_length room = JS.VNum (JS.Fin q) -> ~ q == 0 ->
             2 ^ (-10) <= Qabs q /\ Qabs q <= 2 ^ 20) ->
  exists l,
    Editor64.fallback_l (clone_room room) = JS.Fin l
    /\ 0 < l
    /\ (forall q, dim_length room = JS.VNum (JS.Fin q) -> 0 < q ->
                  ulps 1 l (q * 15) /\ Double.round (q * 15) = JS.Fin l)
    /\ (forall q, dim_length room = JS.VNum (JS.Fin q) -> q < 0 -> l = 150)
    /\ (JS.truthy_value (dim_length room) = false ->
        (v < 0 -> l = 150)
        /\ (0 < v ->
            ulps 4 l (a / (v / 15) * 15)
            /\ exists d r,
                Double.round (v / 15) = JS.Fin d /\ 0 < d
                /\ Double.round (a / d) = JS.Fin r
                /\ Double.round (r * 15) = JS.Fin l)).
Proof.
  intros Ha A1 A2 Hv V1 V2 Hmod.
  unfold Editor64.fallback_l, Editor64.raw_l.
  rewrite dim_length_clone, Ha, Hv.
  assert (K1 : 2 ^ (-800) <= 1 # 1152921504606846976)
    by (vm_compute; discriminate).
  assert (K2 : 1152921504606846976 <= 2 ^ 800) by (vm_compute; discriminate).
  assert (K3 : 2 ^ (-20) == 1 # 1048576) by reflexivity.
  assert (K4 : 2 ^ 40 == 1099511627776) by reflexivity.
  assert (K5 : 2 ^ (-9) == 1 # 512) by reflexivity.
  assert (K6 : 2 ^ 26 == 67108864) by reflexivity.
  assert (K7 : 2 ^ (-10) == 1 # 1024) by reflexivity.
  assert (K8 : 2 ^ 20 == 1048576) by reflexivity.
  rewrite K3 in A1. rewrite K4 in A2. rewrite K5 in V1. rewrite K6 in V2.
  destruct (truthy_roundtrip (dim_length room))
    as [(q & Hq & Hnz & -> & ->)|(-> & Hz)].
  - destruct (Hmod q Hq Hnz) as [B1 B2]. rewrite K7 in B1. rewrite K8 in B2.
    change (JS.Fin q * JS.Fin 15)%f64 with (Double.round (q * 15)).
    destruct (Qlt_le_dec 0 q) as [Hpos|Hneg].
    + rewrite (Qabs_pos q) in B1, B2 by lra.
      destruct (ulps_round 0 (q * 15) (q * 15)) as (u & Eu & Hu & Hu0);
        [lra|lra|lia|apply ulps_refl; lra|].
      change (0 + 1)%Z with 1%Z in Hu.
      exists u. rewrite Eu, (guard_pos_fin u Hu0).
      split; [reflexivity|]. split; [exact Hu0|]. split; [|split].
      * intros q' Hq' _. rewrite Hq in Hq'. injection Hq' as <-.
        now split.
      * intros q' Hq' Hlt. rewrite Hq in Hq'. injection Hq' as <-. lra.
      * intro Hf. rewrite Hq, (truthy_value_fin q Hnz) in Hf. discriminate.
    + exists 150.
      rewrite (guard_nonpos _ (round_nonpos (q * 15) ltac:(lra))).
      split; [reflexivity|]. split; [reflexivity|]. split; [|split].
      * intros q' Hq' Hp. rewrite Hq in Hq'. injection Hq' as <-. lra.
      * intros _ _ _. reflexivity.
      * intro Hf. rewrite Hq, (truthy_value_fin q Hnz) in Hf. discriminate.
  - rewrite (div64_fin v 15) by discriminate.
    set (y := v / 15).
    assert (Ey : v == y * 15) by (unfold y; field).
    destruct (Qlt_le_dec 0 v) as [Hpos|Hneg].
    + rewrite (Qabs_pos v) in V1, V2 by lra.
      destruct (ulps_round 0 y y) as (d & Ed & Hd & Hd0);
        [lra|lra|lia|apply ulps_refl; lra|].
      change (0 + 1)%Z with 1%Z in Hd.
      assert (Hy : 0 < y) by lra.
      assert (Hapos : 0 < a) by lra.
      pose proof (ulps_div 1 a d y Hapos Hy ltac:(lia) Hd) as Hq.
      change (1 + 1)%Z with 2%Z in Hq.
      set (x := a / y) in *.
      assert (X1 : (1 # 8796093022208) <= x).
      { unfold x. apply Qle_shift_div_l; [exact Hy|]. lra. }
      assert (X2 : x <= 9007199254740992).
      { unfold x. apply Qle_shift_div_r; [exact Hy|]. lra. }
      destruct (ulps_round 2 (a / d) x) as (r & Er & Hr & Hr0);
        [lra|lra|lia|exact Hq|].
      change (2 + 1)%Z with 3%Z in Hr.
      pose proof (ulps_scale_r 3 15 r x ltac:(lra) Hr) as Hr15.
      destruct (ulps_round 3 (r * 15) (x * 15)) as (u & Eu & Hu & Hu0);
        [lra|lra|lia|exact Hr15|].
      change (3 + 1)%Z with 4%Z in Hu.
      exists u. rewrite Ed.
      rewrite (div64_fin a d) by lra. rewrite Er.
      change (JS.Fin r * JS.Fin 15)%f64 with (Double.round (r * 15)).
      rewrite Eu, (guard_pos_fin u Hu0).
      split; [reflexivity|]. split; [exact Hu0|]. split; [|split].
      * intros q Hq' Hp. exfalso. pose proof (Hz q Hq'). lra.
      * intros q Hq' Hp. exfalso. pose proof (Hz q Hq'). lra.
      * intros _. split; [intro; lra|]. intros _. split; [exact Hu|].
        exists d, r. now repeat split.
    + assert (Hlt : v < 0).
      { apply Qle_lteq in Hneg. destruct Hneg as [H|H]; [exact H|].
        exfalso. rewrite H in V1. revert V1. vm_compute. intro V1.
        now apply V1. }
      rewrite (Qabs_neg v) in V1, V2 by lra.
      destruct (round_negative y) as (d & Ed & Hd & _); [lra|lra|lra|].
      rewrite Ed. rewrite (div64_fin a d) by lra.
      assert (Hq : a / d <= 0).
      { setoid_replace (a / d) with (- (a / - d)) by (field; lra).
        assert (0 < a / - d) by (apply Qlt_shift_div_l; lra). lra. }
      pose proof (round_nonpos _ Hq) as Hr.
      assert (Hl : guard (Double.round (a / d) * JS.Fin 15)%f64
                   = JS.Fin 150).
      { destruct (Double.round (a / d)) as [| | |r]; try discriminate.
        - reflexivity.
        - apply leb_fin_zero in Hr.
          change (JS.Fin r * JS.Fin 15)%f64 with (Double.round (r * 15)).
          apply guard_nonpos, round_nonpos. lra. }
      exists 150. rewrite Hl.
      split; [reflexivity|]. split; [reflexivity|]. split; [|split].
      * intros q Hq' Hp. exfalso. pose proof (Hz q Hq'). lra.
      * intros q Hq' Hp. reflexivity.
      * intros _. split; [reflexivity|]. intro; lra.
Qed.

Lemma ulps_trans (j k : Z) (y x z : Q) :
  0 <= z -> (0 <= j <= 2 ^ 20)%Z -> (0 <= k <= 2 ^ 20)%Z ->
  ulps j y x -> ulps k x z -> ulps (j + k + 1) y z.
Proof.
  intros Hz Hj Hk H1 H2. unfold ulps in *.
  rewrite !inject_Z_plus. change (inject_Z 1) with 1.
  destruct (inject_Z_range _ _ _ Hj) as [J0 J1].
  destruct (inject_Z_range _ _ _ Hk) as [K0 K1].
  change (inject_Z 0) with 0 in J0, K0.
  change (inject_Z (2 ^ 20)) with (1048576 # 1) in J1, K1.
  apply Qabs_Qle_condition in H1. apply Qabs_Qle_condition in H2.
  generalize dependent (inject_Z j). generalize dependent (inject_Z k).
  intros c H2 K0 K1 b H1 J0 J1.
  assert (Hx : x <= z * 2) by nra.
  assert (Hx0 : 0 <= x) by nra.
  assert (B : b * x * (1 # 4503599627370496)
              <= b * z * (1 # 4503599627370496)
                 + z * (1 # 4503599627370496)) by nra.
  apply Qabs_Qle_condition. split; lra.
Qed.

(** Where the rectangle ends and where the next one starts. *)
Lemma place64 (off w : Q) :
  0 <= off -> off <= 2 ^ 40 -> 2 ^ (-9) <= w -> w <= 2 ^ 26 ->
  exists x1 off' g,
    Double.round (off + w) = JS.Fin x1
    /\ Double.round (w + 20) = JS.Fin g
    /\ Double.round (off + g) = JS.Fin off'
    /\ off < x1
    /\ Qabs (x1 - (off + w)) <= 1 # 4096
    /\ Qabs (off' - (x1 + 20)) <= 1 # 1024
    /\ off' <= off + 2 ^ 27.
Proof.
  intros O1 O2 W1 W2.
  assert (K1 : 2 ^ 40 == 1099511627776) by reflexivity.
  assert (K2 : 2 ^ (-9) == 1 # 512) by reflexivity.
  assert (K3 : 2 ^ 26 == 67108864) by reflexivity.
  assert (K4 : 2 ^ 27 == 134217728) by reflexivity.
  assert (K5 : 1099645845504 <= 2 ^ 1023) by (vm_compute; discriminate).
  assert (K6 : 2 ^ (-1075) <= 1 # 1099511627776)
    by (vm_compute; discriminate).
  rewrite K1 in O2. rewrite K2 in W1. rewrite K3 in W2.
  destruct (round_error_q (off + w)) as (x1 & E1 & H1 & _);
    [rewrite Qabs_pos; lra|].
  rewrite (Qabs_pos (off + w)) in H1 by lra.
  destruct (round_error_q (w + 20)) as (g & E2 & H2 & _);
    [rewrite Qabs_pos; lra|].
  rewrite (Qabs_pos (w + 20)) in H2 by lra.
  apply Qabs_Qle_condition in H1. apply Qabs_Qle_condition in H2.
  destruct (round_error_q (off + g)) as (off' & E3 & H3 & _);
    [rewrite Qabs_pos; lra|].
  rewrite (Qabs_pos (off + g)) in H3 by lra.
  apply Qabs_Qle_condition in H3.
  exists x1, off', g.
  split; [exact E1|]. split; [exact E2|]. split; [exact E3|].
  split; [lra|].
  split; [apply Qabs_Qle_condition; split; lra|].
  split; [apply Qabs_Qle_condition; split; lra|lra].
Qed.

(** The area the normalizer computes with, on a room with moderate
    numbers. *)
Lemma safeArea64 (room : RoomMetadata) :
  moderate room ->
  exists a,
    safeArea (clone_room room) = JS.Fin a
    /\ 2 ^ (-20) <= a /\ a <= 2 ^ 40
    /\ (forall q, area_sqft room = JS.VNum (JS.Fin q) -> 0 < q -> a = q)
    /\ ((forall q, area_sqft room = JS.VNum (JS.Fin q) -> ~ 0 < q) ->
        a = 100).
Proof.
  intros (_ & _ & Hm).
  destruct (safeArea_clone room) as (a & Ha & Hpos & H1 & H2).
  exists a. split; [exact Ha|].
  assert (R : 2 ^ (-20) <= a /\ a <= 2 ^ 40).
  { destruct (area_sqft room) as [| |[| | |q]] eqn:E;
      try (rewrite H2 by (intros q' Hq'; discriminate Hq');
           split; vm_compute; discriminate).
    destruct (Qlt_le_dec 0 q) as [Hq|Hq].
    - rewrite (H1 q eq_refl Hq). now apply Hm.
    - rewrite H2; [split; vm_compute; discriminate|].
      intros q' Hq'. injection Hq' as <-. lra. }
  destruct R as [R1 R2]. now repeat split.
Qed.

(** What the loop body does, in binary64, to a cloned room with moderate
    numbers that lacks a polygon: [a] is the area it computes with, [v]
    the width as first computed, [w] and [l] the width and length after
    the guards, [x1] the right edge and [off'] the next offset. *)
Lemma normalize_room64 (off : Q) (room : RoomMetadata) :
  needs_polygon room = true -> moderate room ->
  0 <= off -> off <= 2 ^ 40 ->
  exists a v w l x1 off' g,
    safeArea (clone_room room) = JS.Fin a
    /\ Editor64.raw_w (clone_room room) = JS.Fin v
    /\ Editor64.fallback_w (clone_room room) = JS.Fin w
    /\ Editor64.fallback_l (clone_room room) = JS.Fin l
    /\ (2 ^ (-20) <= a /\ a <= 2 ^ 40)
    /\ (2 ^ (-9) <= Qabs v /\ Qabs v <= 2 ^ 26)
    /\ (2 ^ (-9) <= w /\ w <= 2 ^ 26)
    /\ 0 < l
    /\ (0 < v -> w = v) /\ (v < 0 -> w = 150)
    /\ Editor64.normalize_room (JS.Fin off) (clone_room room)
       = (with_polygon (clone_room room) (fin_polygon (box off x1 l)),
          JS.Fin off')
    /\ Double.round (off + w) = JS.Fin x1
    /\ Double.round (w + 20) = JS.Fin g
    /\ Double.round (off + g) = JS.Fin off'
    /\ off < x1
    /\ Qabs (x1 - (off + w)) <= 1 # 4096
    /\ Qabs (off' - (x1 + 20)) <= 1 # 1024
    /\ off' <= off + 2 ^ 27.
Proof.
  intros Hneeds Hmod O1 O2.
  destruct (safeArea64 room Hmod) as (a & Ha & A1 & A2 & _).
  destruct Hmod as (Hmw & Hml & _).
  destruct (raw_w64 room a Ha A1 A2 Hmw) as (v & Hv & V1 & V2 & _).
  destruct (fallback_l64 room a v Ha A1 A2 Hv V1 V2 Hml)
    as (l & Hl & Hl0 & _).
  assert (Hw : exists w,
             guard (JS.Fin v) = JS.Fin w
             /\ (2 ^ (-9) <= w /\ w <= 2 ^ 26)
             /\ (0 < v -> w = v) /\ (v < 0 -> w = 150)).
  { destruct (Qlt_le_dec 0 v) as [Hp|Hn].
    - exists v. rewrite (guard_pos_fin v Hp).
      rewrite (Qabs_pos v) in V1, V2 by lra.
      repeat split; try assumption. intro; lra.
    - exists 150. rewrite (guard_neg_fin v Hn).
      split; [reflexivity|].
      split; [split; vm_compute; discriminate|].
      split; [intro; lra|reflexivity]. }
  destruct Hw as (w & Hw & Wr & Wp & Wn).
  destruct (place64 off w O1 O2 (proj1 Wr) (proj2 Wr))
    as (x1 & off' & g & E1 & E2 & E3 & P1 & P2 & P3 & P4).
  assert (Hneeds' : needs_polygon (clone_room room) = true) by exact Hneeds.
  assert (Hfw : Editor64.fallback_w (clone_room room) = JS.Fin w)
    by (unfold Editor64.fallback_w; now rewrite Hv).
  exists a, v, w, l, x1, off', g.
  split; [exact Ha|]. split; [exact Hv|]. split; [exact Hfw|].
  split; [exact Hl|]. split; [now split|]. split; [now split|].
  split; [exact Wr|]. split; [exact Hl0|].
  split; [exact Wp|]. split; [exact Wn|].
  split.
  { unfold Editor64.normalize_room. rewrite Hneeds', Hfw, Hl.
    unfold Editor64.fallback_polygon.
    change (JS.Fin off + JS.Fin w)%f64 with (Double.round (off + w)).
    change (JS.Fin w + JS.Fin 20)%f64 with (Double.round (w + 20)).
    rewrite E1, E2.
    change (JS.Fin off + JS.Fin g)%f64 with (Double.round (off + g)).
    rewrite E3. reflexivity. }
  now repeat split.
Qed.

Lemma normalize_from64_laid_out (rooms : list RoomMetadata) :
  forall off,
    0 <= off ->
    off + inject_Z (Z.of_nat (length rooms)) * 2 ^ 27 <= 2 ^ 40 ->
    Forall moderate rooms ->
    laid_out off
      (synthesized rooms
         (Editor64.normalize_from (JS.Fin off) (map clone_room rooms))).
Proof.
  induction rooms as [|room rooms IH]; intros off O1 O2 Hmod; [exact I|].
  inversion Hmod as [|? ? Hm Hrest]; subst.
  assert (P27 : 0 < 2 ^ 27) by apply pow2_pos.
  assert (Hlen : inject_Z (Z.of_nat (length (room :: rooms)))
                 == inject_Z (Z.of_nat (length rooms)) + 1).
  { cbn [length]. rewrite Nat2Z.inj_succ. unfold Z.succ.
    now rewrite inject_Z_plus. }
  rewrite Hlen in O2.
  assert (Hn0 : 0 <= inject_Z (Z.of_nat (length rooms))).
  { change 0 with (inject_Z 0). rewrite <- Zle_Qle. lia. }
  assert (O3 : off <= 2 ^ 40).
  { generalize dependent (inject_Z (Z.of_nat (length rooms))).
    intros n _ ? ?. generalize dependent (2 ^ 27). intros p ? ?. nra. }
  cbn [map Editor64.normalize_from].
  destruct (needs_polygon room) eqn:Hneeds.
  - destruct (normalize_room64 off room Hneeds Hm O1 O3)
      as (a & v & w & l & x1 & off' & g & _ & _ & _ & _ & _ & _ & _ & Hl
          & _ & _ & E & _ & _ & _ & P1 & P2 & P3 & P4).
    rewrite E. unfold synthesized. cbn [combine filter fst].
    rewrite Hneeds. cbn [map snd laid_out].
    exists x1, l, off'.
    split; [exact P1|]. split; [exact Hl|]. split; [reflexivity|].
    split; [exact P3|].
    apply Qabs_Qle_condition in P3.
    apply IH; [lra| |exact Hrest].
    generalize dependent (inject_Z (Z.of_nat (length rooms))).
    intros n ? ? ?. generalize dependent (2 ^ 27). intros p ? ? ?. nra.
  - unfold Editor64.normalize_room.
    change (needs_polygon (clone_room room)) with (needs_polygon room).
    rewrite Hneeds. unfold synthesized. cbn [combine filter fst].
    rewrite Hneeds. apply IH; [exact O1| |exact Hrest].
    generalize dependent (inject_Z (Z.of_nat (length rooms))).
    intros n ? ? ?. generalize dependent (2 ^ 27). intros p ? ?. nra.
Qed.

Lemma ulps_root (a s : Q) :
  0 < a -> 0 < s -> ulps 2 (s * s) a -> ulps 3 (a / s) s.
Proof.
  intros Ha Hs H. unfold ulps in *.
  change (inject_Z 2) with 2 in H. change (inject_Z 3) with 3.
  apply Qabs_Qle_condition in H. destruct H as [H1 H2].
  setoid_replace (a / s - s) with ((a - s * s) / s) by (field; lra).
  apply Qabs_Qle_condition. split.
  - apply Qle_shift_div_l; [exact Hs|]. nra.
  - apply Qle_shift_div_r; [exact Hs|]. nra.
Qed.

(** The length computed from the area and a width given in feet. *)
Lemma width_only64 (a wd v l : Q) :
  0 < a -> 0 < wd ->
  ulps 1 v (wd * 15) -> ulps 4 l (a / (v / 15) * 15) ->
  ulps 7 l (a / wd * 15).
Proof.
  intros Ha Hwd Hv Hl.
  assert (H1 : ulps 1 (v / 15) wd).
  { apply (ulps_comp 1 ((1 # 15) * v) _ ((1 # 15) * (wd * 15)));
      [field|field|]. apply ulps_scale; [discriminate|exact Hv]. }
  pose proof (ulps_div 1 a _ _ Ha Hwd ltac:(lia) H1) as H2.
  change (1 + 1)%Z with 2%Z in H2.
  pose proof (ulps_scale_r 2 15 _ _ ltac:(discriminate) H2) as H3.
  assert (Hy : 0 <= a / wd * 15).
  { assert (0 < a / wd) by (apply Qlt_shift_div_l; lra). lra. }
  exact (ulps_trans 4 2 _ _ _ Hy ltac:(lia) ltac:(lia) Hl H3).
Qed.

(** The length computed from the area and the width derived from its
    square root [s]. *)
Lemma no_dimensions64 (a s v l : Q) :
  0 < a -> 0 < s ->
  ulps 2 (s * s) a -> ulps 1 v (s * 15) -> ulps 4 l (a / (v / 15) * 15) ->
  ulps 11 l (s * 15).
Proof.
  intros Ha Hs Hss Hv Hl.
  pose proof (width_only64 a s v l Ha Hs Hv Hl) as H1.
  pose proof (ulps_scale_r 3 15 _ _ ltac:(discriminate)
                (ulps_root a s Ha Hs Hss)) as H2.
  assert (Hy : 0 <= s * 15) by lra.
  exact (ulps_trans 7 3 _ _ _ Hy ltac:(lia) ltac:(lia) H1 H2).
Qed.

Lemma fin_inj (p q : Q) : JS.Fin p = JS.Fin q -> p = q.
Proof. intro H. now injection H. Qed.

(** On an area that is the square of the whole number [z] the computation
    is exact. *)
Lemma square_area64 (z : Z) (s v d r l : Q) :
  (0 < z <= 2 ^ 20)%Z ->
  Double.sqrt (JS.Fin (inject_Z (z * z))) = JS.Fin s ->
  Double.round (s * 15) = JS.Fin v ->
  Double.round (v / 15) = JS.Fin d ->
  Double.round (inject_Z (z * z) / d) = JS.Fin r ->
  Double.round (r * 15) = JS.Fin l ->
  v = inject_Z (z * 15) /\ l = inject_Z (z * 15).
Proof.
  intros Hz Es Ev Ed Er El.
  rewrite sqrt_square in Es by lia. apply fin_inj in Es. subst s.
  rewrite (round_whole _ (z * 15)) in Ev
    by (rewrite ?inject_Z_mult; try reflexivity; lia).
  apply fin_inj in Ev. subst v.
  rewrite (round_whole _ z) in Ed
    by (rewrite ?inject_Z_mult; try (change (inject_Z 15) with 15; field);
        lia).
  apply fin_inj in Ed. subst d.
  assert (Hnz : ~ inject_Z z == 0).
  { intro E. assert (0 < inject_Z z)
      by (change 0 with (inject_Z 0); rewrite <- Zlt_Qlt; lia). lra. }
  rewrite (round_whole _ z) in Er
    by (rewrite ?inject_Z_mult; try (field; exact Hnz); lia).
  apply fin_inj in Er. subst r.
  rewrite (round_whole _ (z * 15)) in El
    by (rewrite ?inject_Z_mult; try reflexivity; lia).
  apply fin_inj in El. subst l. now split.
Qed.

Lemma not_truthy_moderate (v : JS.value) (q : Q) :
  JS.truthy_value v = false -> v = JS.VNum (JS.Fin q) -> q == 0.
Proof.
  intros Hf ->. destruct (Qeq_dec q 0) as [E|E]; [exact E|].
  rewrite (truthy_value_fin q E) in Hf. discriminate.
Qed.

(** The rectangle of a room with moderate numbers, in binary64: [a] is the
    area the normalizer computes with, [w] and [l] the width and length
    after the guards, [x1] the right edge, [off'] the next offset. *)
Lemma normalize_room64_values (off : Q) (room : RoomMetadata) :
  needs_polygon room = true -> moderate room ->
  0 <= off -> off <= 2 ^ 40 ->
  exists a w l x1 off',
    Editor64.normalize_room (JS.Fin off) (clone_room room)
    = (with_polygon (clone_room room) (fin_polygon (box off x1 l)),
       JS.Fin off')
    /\ safeArea (clone_room room) = JS.Fin a
    /\ Editor64.fallback_w (clone_room room) = JS.Fin w
    /\ Editor64.fallback_l (clone_room room) = JS.Fin l
    /\ (forall q, area_sqft room = JS.VNum (JS.Fin q) -> 0 < q -> a = q)
    /\ ((forall q, area_sqft room = JS.VNum (JS.Fin q) -> ~ 0 < q) ->
        a = 100)
    /\ 0 < w /\ 0 < l /\ off < x1
    /\ Qabs (x1 - (off + w)) <= 1 # 4096
    /\ Qabs (off' - (x1 + 20)) <= 1 # 1024
    /\ (forall o wz,
           off = inject_Z o -> w = inject_Z wz ->
           x1 = inject_Z (o + wz) /\ off' = inject_Z (o + (wz + 20)))
    /\ (forall wd,
           dim_width room = JS.VNum (JS.Fin wd) -> 0 < wd ->
           ulps 1 w (wd * 15))
    /\ (forall ln,
           dim_length room = JS.VNum (JS.Fin ln) -> 0 < ln ->
           ulps 1 l (ln * 15))
    /\ (forall wz,
           dim_width room = JS.VNum (JS.Fin (inject_Z wz)) -> (0 < wz)%Z ->
           w = inject_Z (wz * 15))
    /\ (forall lz,
           dim_length room = JS.VNum (JS.Fin (inject_Z lz)) -> (0 < lz)%Z ->
           l = inject_Z (lz * 15))
    /\ (forall wd,
           dim_width room = JS.VNum (JS.Fin wd) -> 0 < wd ->
           JS.truthy_value (dim_length room) = false ->
           ulps 7 l (a / wd * 15))
    /\ (JS.truthy_value (dim_width room) = false ->
        JS.truthy_value (dim_length room) = false ->
        exists s,
          0 < s /\ ulps 2 (s * s) a
          /\ ulps 1 w (s * 15) /\ ulps 11 l (s * 15))
    /\ (forall z,
           JS.truthy_value (dim_width room) = false ->
           JS.truthy_value (dim_length room) = false ->
           a = inject_Z (z * z) -> (0 < z)%Z ->
           w = inject_Z (z * 15) /\ l = inject_Z (z * 15)).
Proof.
  intros Hneeds Hmod O1 O2.
  destruct (normalize_room64 off room Hneeds Hmod O1 O2)
    as (a & v & w & l & x1 & off' & g & Ha & Hv & Hw & Hl & [A1 A2]
        & [V1 V2] & [W1 W2] & Hl0 & Wp & Wn & E & E1 & E2 & E3 & P1 & P2
        & P3 & P4).
  destruct (safeArea64 room Hmod) as (a' & Ha' & _ & _ & Aq & A100).
  rewrite Ha in Ha'. apply fin_inj in Ha'. subst a'.
  pose proof Hmod as (Hmw & Hml & _).
  destruct (raw_w64 room a Ha A1 A2 Hmw)
    as (v' & Hv' & _ & _ & Vp & Vn & Vs).
  rewrite Hv in Hv'. apply fin_inj in Hv'. subst v'.
  destruct (fallback_l64 room a v Ha A1 A2 Hv V1 V2 Hml)
    as (l' & Hl' & _ & Lp & Ln & Ls).
  rewrite Hl in Hl'. apply fin_inj in Hl'. subst l'.
  assert (K1 : 2 ^ (-9) == 1 # 512) by reflexivity.
  assert (K2 : 2 ^ 26 == 67108864) by reflexivity.
  assert (K3 : 2 ^ 40 == 1099511627776) by reflexivity.
  assert (K4 : 2 ^ (-20) == 1 # 1048576) by reflexivity.
  assert (Hapos : 0 < a) by lra.
  exists a, w, l, x1, off'.
  split; [exact E|]. split; [exact Ha|]. split; [exact Hw|].
  split; [exact Hl|]. split; [exact Aq|]. split; [exact A100|].
  split; [lra|]. split; [exact Hl0|]. split; [exact P1|].
  split; [exact P2|]. split; [exact P3|].
  split; [|split; [|split; [|split; [|split; [|split; [|split]]]]]].
  - intros o wz -> ->.
    assert (Ho : (0 <= o <= 2 ^ 40)%Z).
    { split; [now rewrite Zle_Qle|].
      rewrite Zle_Qle. change (inject_Z (2 ^ 40)) with 1099511627776.
      lra. }
    assert (Hwz : (0 <= wz <= 2 ^ 26)%Z).
    { split; [rewrite Zle_Qle; change (inject_Z 0) with 0; lra|].
      rewrite Zle_Qle. change (inject_Z (2 ^ 26)) with 67108864. lra. }
    rewrite (round_whole _ (o + wz)) in E1
      by (rewrite ?inject_Z_plus; try reflexivity; lia).
    rewrite (round_whole _ (wz + 20)) in E2
      by (rewrite ?inject_Z_plus; try reflexivity; lia).
    apply fin_inj in E1. apply fin_inj in E2. subst g.
    rewrite (round_whole _ (o + (wz + 20))) in E3
      by (rewrite ?inject_Z_plus; try reflexivity; lia).
    apply fin_inj in E3. now split.
  - intros wd Hwd Hp. destruct (Vp wd Hwd Hp) as (Hv0 & Hu & _).
    now rewrite (Wp Hv0).
  - intros ln Hln Hp. exact (proj1 (Lp ln Hln Hp)).
  - intros wz Hwz Hp.
    assert (Hq : 0 < inject_Z wz)
      by (change 0 with (inject_Z 0); now rewrite <- Zlt_Qlt).
    destruct (Vp _ Hwz Hq) as (Hv0 & _ & Er).
    destruct (Hmw _ Hwz ltac:(lra)) as [_ B].
    rewrite Qabs_pos in B by lra.
    change (2 ^ 20) with (inject_Z (2 ^ 20)) in B. rewrite <- Zle_Qle in B.
    rewrite (round_whole _ (wz * 15)) in Er
      by (rewrite ?inject_Z_mult; try reflexivity; lia).
    apply fin_inj in Er. now rewrite (Wp Hv0).
  - intros lz Hlz Hp.
    assert (Hq : 0 < inject_Z lz)
      by (change 0 with (inject_Z 0); now rewrite <- Zlt_Qlt).
    destruct (Lp _ Hlz Hq) as (_ & Er).
    destruct (Hml _ Hlz ltac:(lra)) as [_ B].
    rewrite Qabs_pos in B by lra.
    change (2 ^ 20) with (inject_Z (2 ^ 20)) in B. rewrite <- Zle_Qle in B.
    rewrite (round_whole _ (lz * 15)) in Er
      by (rewrite ?inject_Z_mult; try reflexivity; lia).
    now apply fin_inj in Er.
  - intros wd Hwd Hp Hf.
    destruct (Vp wd Hwd Hp) as (Hv0 & Hu & _).
    destruct (Ls Hf) as [_ Hlv]. destruct (Hlv Hv0) as [Hl4 _].
    exact (width_only64 a wd v l Hapos Hp Hu Hl4).
  - intros Hfw Hfl.
    destruct (Vs Hfw) as (Hv0 & s & _ & Hs & Hss & Hvs & _).
    destruct (Ls Hfl) as [_ Hlv]. destruct (Hlv Hv0) as [Hl4 _].
    exists s. split; [exact Hs|]. split; [exact Hss|].
    split; [now rewrite (Wp Hv0)|].
    exact (no_dimensions64 a s v l Hapos Hs Hss Hvs Hl4).
  - intros z Hfw Hfl Ez Hz.
    destruct (Vs Hfw) as (Hv0 & s & Es & _ & _ & _ & Ev).
    destruct (Ls Hfl) as [_ Hlv].
    destruct (Hlv Hv0) as (_ & d & r & Ed & _ & Er & El).
    subst a.
    assert (Hz20 : (z <= 2 ^ 20)%Z).
    { rewrite K3 in A2.
      change 1099511627776 with (inject_Z (2 ^ 40)) in A2.
      rewrite <- Zle_Qle in A2. nia. }
    destruct (square_area64 z s v d r l ltac:(lia) Es Ev Ed Er El)
      as [-> ->].
    split; [|reflexivity]. apply Wp.
    change 0 with (inject_Z 0). rewrite <- Zlt_Qlt. lia.
Qed.

Lemma moderate_without_dimensions (room : RoomMetadata) :
  JS.truthy_value (dim_width room) = false ->
  JS.truthy_value (dim_length room) = false ->
  (forall q, area_sqft room = JS.VNum (JS.Fin q) -> 0 < q ->
             2 ^ (-20) <= q /\ q <= 2 ^ 40) ->
  moderate room.
Proof.
  intros Hw Hl Ha. split; [|split; [|exact Ha]].
  - intros q Hq Hnz. exfalso. apply Hnz.
    exact (not_truthy_moderate _ _ Hw Hq).
  - intros q Hq Hnz. exfalso. apply Hnz.
    exact (not_truthy_moderate _ _ Hl Hq).
Qed.

(** The square of side 150 the normalizer lays out at a whole-number
    offset, and the area [calculatePolygonArea] computes for it. *)
Lemma square150_area (o : Z) :
  (0 <= o <= 2 ^ 20)%Z ->
  exists A,
    Editor64.calculatePolygonArea
      (flatten
         (fin_polygon
            (int_points [(o, 0); (o + 150, 0); (o + 150, 150); (o, 150)]%Z)))
    = JS.Fin A
    /\ A == 22500
    /\ JS.round (JS.Fin A / JS.Fin 225)%f64 = JS.Fin 100.
Proof.
  intro Ho. rewrite flatten_fin.
  destruct (calculatePolygonArea_int
              (2 ^ 21) [(o, 0); (o + 150, 0); (o + 150, 150); (o, 150)]%Z)
    as (A & EA & HA & _).
  - unfold within.
    repeat (apply Forall_cons; [split; cbn [fst snd]; lia|]).
    apply Forall_nil.
  - cbn [length]. lia.
  - exists A. split; [exact EA|].
    assert (E : A == 22500).
    { rewrite HA.
      rewrite (shoelace_spec_rectangle_int o 0 150 150). reflexivity. }
    split; [exact E|].
    rewrite (div64_fin A 225) by discriminate.
    rewrite (round_whole (A / 225) 100);
      [reflexivity|rewrite E; reflexivity|lia].
Qed.




(** *** The fallback *)

Lemma length_normalize_from64 (rooms : list RoomMetadata) :
  forall off,
    length (Editor64.normalize_from off rooms) = length rooms.
Proof.
  induction rooms as [|room rooms IH]; intro off; [reflexivity|].
  cbn [Editor64.normalize_from].
  destruct (Editor64.normalize_room off room) as [room' off'].
  cbn [length]. now rewrite IH.
Qed.

Lemma shoelace_spec_box (x0 x1 l : Q) :
  x0 < x1 -> 0 < l ->
  shoelace_spec (box x0 x1 l) == (x1 - x0) * l
  /\ 0 < shoelace_spec (box x0 x1 l).
Proof.
  intros Hx Hl.
  assert (E : shoelace_spec (box x0 x1 l) == (x1 - x0) * l).
  { unfold shoelace_spec, box, term_at, prev.
    cbn [length seq map Qsum nth fst snd Nat.eqb Nat.sub].
    setoid_replace ((x0 + x0) * (l - 0)
                    + ((x0 + x1) * (0 - 0)
                       + ((x1 + x1) * (0 - l)
                          + ((x1 + x0) * (l - l) + 0))))
      with (- (2 * ((x1 - x0) * l))) by ring.
    rewrite Qabs_opp, Qabs_pos by nra. field. }
  split; [exact E|]. rewrite E. nra.
Qed.

Lemma laid_out_Forall (synth : list RoomMetadata) :
  forall off,
    laid_out off synth ->
    Forall (fun s => exists x0 x1 l,
                polygon s = Some (fin_polygon (box x0 x1 l))
                /\ x0 < x1 /\ 0 < l
                /\ 0 < shoelace_spec (box x0 x1 l))
           synth.
Proof.
  induction synth as [|s synth IH]; intros off H; [constructor|].
  cbn [laid_out] in H.
  destruct H as (x1 & l & off' & Hx & Hl & Hp & _ & Hrest).
  constructor; [|exact (IH off' Hrest)].
  exists off, x1, l. split; [exact Hp|]. split; [exact Hx|].
  split; [exact Hl|]. exact (proj2 (shoelace_spec_box off x1 l Hx Hl)).
Qed.

(** Without a positive area and without dimensions the width and the
    length are 150. *)
Lemma default_dimensions64 (room : RoomMetadata) :
  (forall q, area_sqft room = JS.VNum (JS.Fin q) -> ~ 0 < q) ->
  JS.truthy_value (dim_width room) = false ->
  JS.truthy_value (dim_length room) = false ->
  moderate room
  /\ safeArea (clone_room room) = JS.Fin 100
  /\ Editor64.fallback_w (clone_room room) = JS.Fin 150
  /\ Editor64.fallback_l (clone_room room) = JS.Fin 150.
Proof.
  intros Hno Hfw Hfl.
  assert (Hmod : moderate room).
  { apply moderate_without_dimensions; [exact Hfw|exact Hfl|].
    intros q Hq Hp. exfalso. exact (Hno q Hq Hp). }
  split; [exact Hmod|].
  destruct (safeArea64 room Hmod) as (a & Ha & A1 & A2 & _ & A100).
  specialize (A100 Hno). subst a.
  destruct Hmod as (Hmw & Hml & _).
  destruct (raw_w64 room 100 Ha A1 A2 Hmw)
    as (v & Hv & V1 & V2 & _ & _ & Vs).
  destruct (Vs Hfw) as (Hv0 & s & Es & _ & _ & _ & Ev).
  destruct (fallback_l64 room 100 v Ha A1 A2 Hv V1 V2 Hml)
    as (l & Hl & _ & _ & _ & Ls).
  destruct (Ls Hfl) as [_ Hlv].
  destruct (Hlv Hv0) as (_ & d & r & Ed & _ & Er & El).
  destruct (square_area64 10 s v d r l ltac:(lia) Es Ev Ed Er El)
    as [Ew El'].
  split; [exact Ha|]. split.
  - unfold Editor64.fallback_w. rewrite Hv, Ew. reflexivity.
  - rewrite Hl, El'. reflexivity.
Qed.

(** C10 (as the code has it, in binary64).
    On every input a room whose polygon is absent or has fewer than 3
    points gets exactly the 4 points [(off, 0)], [(off + w, 0)],
    [(off + w, l)], [(off, l)], the sums being binary64 sums, where the
    width [w] and the length [l] after the guards are greater than 0,
    [+Infinity] included; and the normalizer returns as many rooms as it
    was given.
    The substitutions: without an [area_sqft] that is a positive number
    the normalizer computes with 100, and, when the room has no dimensions
    either, [w] and [l] are both 150; a width or length first computed as
    [NaN] or as a number that is not positive is replaced by 150, which
    is the case of a negative [width_ft] or [length_ft].  At a
    whole-number offset [o] up to [2 ^ 20] the room without area and
    dimensions gets the square from [(o, 0)] to [(o + 150, 150)], for
    which [calculatePolygonArea] returns 22500.
    Non-degeneracy holds on moderate numbers (a dimension other than zero
    between [2 ^ -10] and [2 ^ 20] feet in magnitude, a positive area
    between [2 ^ -20] and [2 ^ 40] sq ft): with an offset between 0 and
    [2 ^ 40] the rectangle has finite corners, its right edge is strictly
    right of its left edge, its length is positive and its shoelace area
    is [(x1 - off) * l > 0]; and so is every rectangle synthesized along a
    list of at most 8192 such rooms. *)
Theorem fallback_on_doubles :
  (forall off room,
      needs_polygon room = true ->
      polygon (fst (Editor64.normalize_room off (clone_room room)))
      = Some (Editor64.fallback_polygon
                off (Editor64.fallback_w (clone_room room))
                (Editor64.fallback_l (clone_room room)))
      /\ length (Editor64.fallback_polygon
                   off (Editor64.fallback_w (clone_room room))
                   (Editor64.fallback_l (clone_room room))) = 4%nat
      /\ (JS.Fin 0 < Editor64.fallback_w (clone_room room))%js = true
      /\ (JS.Fin 0 < Editor64.fallback_l (clone_room room))%js = true)
  /\ (forall metadata,
         length (Editor64.normalize metadata) = length (rooms metadata))
  /\ (forall room,
         ((forall q, area_sqft room = JS.VNum (JS.Fin q) -> ~ 0 < q) ->
          safeArea (clone_room room) = JS.Fin 100
          /\ (JS.truthy_value (dim_width room) = false ->
              JS.truthy_value (dim_length room) = false ->
              Editor64.fallback_w (clone_room room) = JS.Fin 150
              /\ Editor64.fallback_l (clone_room room) = JS.Fin 150))
         /\ (JS.isNaN (Editor64.raw_w (clone_room room)) = true
             \/ (Editor64.raw_w (clone_room room) <= JS.Fin 0)%js = true ->
             Editor64.fallback_w (clone_room room) = JS.Fin 150)
         /\ (JS.isNaN (Editor64.raw_l (clone_room room)) = true
             \/ (Editor64.raw_l (clone_room room) <= JS.Fin 0)%js = true ->
             Editor64.fallback_l (clone_room room) = JS.Fin 150)
         /\ (forall q, dim_width room = JS.VNum (JS.Fin q) -> q < 0 ->
                       Editor64.fallback_w (clone_room room) = JS.Fin 150)
         /\ (forall q, dim_length room = JS.VNum (JS.Fin q) -> q < 0 ->
                       Editor64.fallback_l (clone_room room) = JS.Fin 150))
  /\ (forall o room,
         needs_polygon room = true ->
         (forall q, area_sqft room = JS.VNum (JS.Fin q) -> ~ 0 < q) ->
         JS.truthy_value (dim_width room) = false ->
         JS.truthy_value (dim_length room) = false ->
         (0 <= o <= 2 ^ 20)%Z ->
         polygon (fst (Editor64.normalize_room (JS.Fin (inject_Z o))
                                               (clone_room room)))
         = Some (fin_polygon
                   (int_points
                      [(o, 0); (o + 150, 0); (o + 150, 150); (o, 150)]%Z))
         /\ exists A,
             Editor64.calculatePolygonArea
               (flatten
                  (fin_polygon
                     (int_points
                        [(o, 0); (o + 150, 0); (o + 150, 150);
                         (o, 150)]%Z)))
             = JS.Fin A
             /\ A == 22500)
  /\ (forall off room,
         needs_polygon room = true -> moderate room ->
         0 <= off -> off <= 2 ^ 40 ->
         exists x1 l,
           polygon (fst (Editor64.normalize_room (JS.Fin off)
                                                 (clone_room room)))
           = Some (fin_polygon (box off x1 l))
           /\ length (fin_polygon (box off x1 l)) = 4%nat
           /\ off < x1 /\ 0 < l
           /\ shoelace_spec (box off x1 l) == (x1 - off) * l
           /\ 0 < shoelace_spec (box off x1 l))
  /\ (forall metadata,
         (Z.of_nat (length (rooms metadata)) <= 8192)%Z ->
         Forall moderate (rooms metadata) ->
         Forall (fun s => exists x0 x1 l,
                     polygon s = Some (fin_polygon (box x0 x1 l))
                     /\ x0 < x1 /\ 0 < l
                     /\ 0 < shoelace_spec (box x0 x1 l))
                (synthesized (rooms metadata)
                             (Editor64.normalize metadata))).
Proof.
  split; [|split; [|split; [|split; [|split]]]].
  - intros off room Hneeds.
    assert (Hneeds' : needs_polygon (clone_room room) = true)
      by exact Hneeds.
    unfold Editor64.normalize_room. rewrite Hneeds'. cbn [fst polygon].
    split; [reflexivity|]. split; [reflexivity|].
    split; apply guard_positive.
  - intro metadata. unfold Editor64.normalize.
    now rewrite length_normalize_from64, length_map.
  - intro room. split; [|split; [|split; [|split]]].
    + intro Hno. split.
      * destruct (safeArea_clone room) as (a & Ha & _ & _ & H100).
        now rewrite Ha, (H100 Hno).
      * intros Hfw Hfl.
        destruct (default_dimensions64 room Hno Hfw Hfl)
          as (_ & _ & Hw & Hl).
        now split.
    + intro H. unfold Editor64.fallback_w. now apply guard_substitutes.
    + intro H. unfold Editor64.fallback_l. now apply guard_substitutes.
    + intros q Hq Hneg.
      unfold Editor64.fallback_w, Editor64.raw_w.
      rewrite dim_width_clone, Hq. cbn [JS.json_roundtrip].
      assert (Hnz : ~ q == 0) by (intro E; rewrite E in Hneg; discriminate).
      rewrite (truthy_value_fin q Hnz). cbn [JS.to_number].
      change (JS.Fin q * JS.Fin 15)%f64 with (Double.round (q * 15)).
      apply guard_nonpos, round_nonpos. lra.
    + intros q Hq Hneg.
      unfold Editor64.fallback_l, Editor64.raw_l.
      rewrite dim_length_clone, Hq. cbn [JS.json_roundtrip].
      assert (Hnz : ~ q == 0) by (intro E; rewrite E in Hneg; discriminate).
      rewrite (truthy_value_fin q Hnz). cbn [JS.to_number].
      change (JS.Fin q * JS.Fin 15)%f64 with (Double.round (q * 15)).
      apply guard_nonpos, round_nonpos. lra.
  - intros o room Hneeds Hno Hfw Hfl Ho.
    destruct (default_dimensions64 room Hno Hfw Hfl)
      as (Hmod & _ & Hw & Hl).
    assert (O1 : 0 <= inject_Z o).
    { change 0 with (inject_Z 0). rewrite <- Zle_Qle. lia. }
    assert (O2 : inject_Z o <= 2 ^ 40).
    { change (2 ^ 40) with (inject_Z (2 ^ 40)). rewrite <- Zle_Qle. lia. }
    destruct (normalize_room64_values (inject_Z o) room Hneeds Hmod O1 O2)
      as (a & w & l & x1 & off' & E & _ & Hw' & Hl' & _ & _ & _ & _ & _ & _
          & _ & Hwhole & _).
    rewrite Hw in Hw'. rewrite Hl in Hl'.
    apply fin_inj in Hw'. apply fin_inj in Hl'. subst w l.
    destruct (Hwhole o 150%Z eq_refl eq_refl) as [Ex _].
    rewrite E, Ex. cbn [fst with_polygon polygon].
    split; [reflexivity|].
    destruct (square150_area o Ho) as (A & EA & HA & _).
    exists A. now split.
  - intros off room Hneeds Hmod O1 O2.
    destruct (normalize_room64_values off room Hneeds Hmod O1 O2)
      as (a & w & l & x1 & off' & E & _ & _ & _ & _ & _ & _ & Hl0 & Hx & _).
    exists x1, l. rewrite E. cbn [fst with_polygon polygon].
    split; [reflexivity|]. split; [reflexivity|].
    split; [exact Hx|]. split; [exact Hl0|].
    exact (shoelace_spec_box off x1 l Hx Hl0).
  - intros metadata Hlen Hmod. unfold Editor64.normalize.
    apply (laid_out_Forall _ 0).
    apply normalize_from64_laid_out; [lra| |exact Hmod].
    assert (H : inject_Z (Z.of_nat (length (rooms metadata)))
                <= inject_Z 8192) by (now rewrite <- Zle_Qle).
    assert (K : inject_Z 8192 * 2 ^ 27 == 2 ^ 40) by reflexivity.
    rewrite Qplus_0_l, <- K.
    apply Qmult_le_compat_r; [exact H|]. apply Qlt_le_weak, pow2_pos.
Qed.

Lemma fallback_on_doubles_witness :
  safeArea (clone_room (bare_room (JS.VNum (JS.Fin (-4))) None JS.VUndefined))
  = JS.Fin 100
  /\ Editor64.fallback_w
       (clone_room
          (bare_room (JS.VNum (JS.Fin 120))
                     (Some {| width_ft := JS.VNum (JS.Fin (-3));
                              length_ft := JS.VNum (JS.Fin 10) |})
                     (JS.VNum (JS.Fin 1))))
     = JS.Fin 150
  /\ polygon
       (fst (Editor64.normalize_room
               (JS.Fin (inject_Z 0))
               (clone_room (bare_room (JS.VNum (JS.Fin (-4))) None
                                      JS.VUndefined))))
     = Some (fin_polygon
               (int_points [(0, 0); (0 + 150, 0); (0 + 150, 150);
                            (0, 150)]%Z))
  /\ Forall (fun s => exists x0 x1 l,
                 polygon s = Some (fin_polygon (box x0 x1 l))
                 /\ x0 < x1 /\ 0 < l
                 /\ 0 < shoelace_spec (box x0 x1 l))
            (synthesized
               [bare_room (JS.VNum (JS.Fin (-4))) None JS.VUndefined;
                bare_room (JS.VNum (JS.Fin 120))
                          (Some {| width_ft := JS.VNum (JS.Fin (-3));
                                   length_ft := JS.VNum (JS.Fin 10) |})
                          (JS.VNum (JS.Fin 1))]
               (Editor64.normalize
                  (sample_metadata
                     [bare_room (JS.VNum (JS.Fin (-4))) None JS.VUndefined;
                      bare_room (JS.VNum (JS.Fin 120))
                                (Some {| width_ft := JS.VNum (JS.Fin (-3));
                                         length_ft := JS.VNum (JS.Fin 10) |})
                                (JS.VNum (JS.Fin 1))]
                     0))).
Proof.
  destruct fallback_on_doubles
    as (_ & _ & Hsub & Hdefault & _ & Hlist).
  assert (Hno : forall q,
             area_sqft (bare_room (JS.VNum (JS.Fin (-4))) None JS.VUndefined)
             = JS.VNum (JS.Fin q) -> ~ 0 < q).
  { intros q Hq. injection Hq as <-. discriminate. }
  assert (M1 : moderate (bare_room (JS.VNum (JS.Fin (-4))) None
                                   JS.VUndefined)).
  { split; [|split]; intros q Hq Hp; try discriminate Hq.
    injection Hq as <-. discriminate Hp. }
  assert (M2 : moderate
                 (bare_room (JS.VNum (JS.Fin 120))
                            (Some {| width_ft := JS.VNum (JS.Fin (-3));
                                     length_ft := JS.VNum (JS.Fin 10) |})
                            (JS.VNum (JS.Fin 1)))).
  { split; [|split]; intros q Hq Hp; injection Hq as <-;
      split; vm_compute; discriminate. }
  split; [|split; [|split]].
  - exact (proj1 (proj1 (Hsub _) Hno)).
  - destruct (Hsub (bare_room (JS.VNum (JS.Fin 120))
                              (Some {| width_ft := JS.VNum (JS.Fin (-3));
                                       length_ft := JS.VNum (JS.Fin 10) |})
                              (JS.VNum (JS.Fin 1))))
      as (_ & _ & _ & Hneg & _).
    apply (Hneg (-3)); reflexivity.
  - apply (Hdefault 0%Z); try reflexivity; [exact Hno|lia].
  - apply (Hlist
             (sample_metadata
                [bare_room (JS.VNum (JS.Fin (-4))) None JS.VUndefined;
                 bare_room (JS.VNum (JS.Fin 120))
                           (Some {| width_ft := JS.VNum (JS.Fin (-3));
                                    length_ft := JS.VNum (JS.Fin 10) |})
                           (JS.VNum (JS.Fin 1))]
                0)).
    + cbn. lia.
    + cbn [rooms sample_metadata].
      apply Forall_cons; [exact M1|]. apply Forall_cons; [exact M2|].
      apply Forall_nil.
Defined.

(** C10, as stated, fails on the code.  With [width_ft = 1e308] the
    width [width_ft * 15] overflows to [+Infinity], which passes the guard:
    the room gets the corners [(0, 0)], [(Infinity, 0)], [(Infinity, 150)],
    [(0, 150)], for which [calculatePolygonArea] returns [NaN], and the room
    after it, laid out at the offset [Infinity], gets a rectangle whose
    left and right edges coincide.  With [width_ft] and [length_ft] both
    [1e-200] the rectangle is so small that [calculatePolygonArea]
    returns 0. *)
Lemma huge_width_degenerates :
  (let room :=
     bare_room (JS.VNum (JS.Fin 120))
               (Some {| width_ft := JS.VNum (literal (inject_Z (10 ^ 308)));
                        length_ft := JS.VUndefined |})
               (JS.VNum (JS.Fin 1)) in
   let next := bare_room JS.VUndefined None (JS.VNum (JS.Fin 1)) in
   map polygon (Editor64.normalize (sample_metadata [room; next] 120))
   = [Some [Some (JS.Fin 0, JS.Fin 0); Some (JS.PInf, JS.Fin 0);
            Some (JS.PInf, JS.Fin 150); Some (JS.Fin 0, JS.Fin 150)];
      Some [Some (JS.PInf, JS.Fin 0); Some (JS.PInf, JS.Fin 0);
            Some (JS.PInf, JS.Fin 150); Some (JS.PInf, JS.Fin 150)]]
   /\ Editor64.calculatePolygonArea
        (flatten [Some (JS.Fin 0, JS.Fin 0); Some (JS.PInf, JS.Fin 0);
                  Some (JS.PInf, JS.Fin 150); Some (JS.Fin 0, JS.Fin 150)])
      = JS.NaN)
  /\ (let room :=
        bare_room
          (JS.VNum (JS.Fin 120))
          (Some {| width_ft := JS.VNum (literal (1 / inject_Z (10 ^ 200)));
                   length_ft := JS.VNum (literal (1 / inject_Z (10 ^ 200))) |})
          (JS.VNum (JS.Fin 1)) in
      match polygon (fst (Editor64.normalize_room (JS.Fin 0)
                                                  (clone_room room)))
      with
      | Some p => Editor64.calculatePolygonArea (flatten p) = JS.Fin 0
      | None => False
      end).
Proof.
  split; [split; vm_compute; reflexivity|vm_compute; reflexivity].
Qed.

(** *** Moving and scaling a pixel polygon *)

Lemma shoelace_spec_similar (c dx dy : Q) (pts : list (Q * Q)) :
  shoelace_spec (similar c dx dy pts) == c * c * shoelace_spec pts.
Proof.
  rewrite <- !shoelace_spec_loop_sum, loop_sum_similar.
  setoid_replace (c * c * loop_sum pts / 2)
    with (c * c * (loop_sum pts / 2)) by field.
  rewrite Qabs_Qmult. rewrite (Qabs_pos (c * c)); [reflexivity|].
  destruct (Qlt_le_dec c 0).
  - setoid_replace (c * c) with ((- c) * (- c)) by ring.
    apply Qmult_le_0_compat; lra.
  - now apply Qmult_le_0_compat.
Qed.

Lemma nth_similar_pixels (k dx dy : Z) (zs : list (Z * Z)) (i : nat) :
  (i < length zs)%nat ->
  nth i (similar_pixels k dx dy zs) (0, 0)%Z
  = (k * fst (nth i zs (0, 0)%Z) + dx, k * snd (nth i zs (0, 0)%Z) + dy)%Z.
Proof.
  revert i. induction zs as [|p zs IH]; intros i Hi; cbn in Hi; [lia|].
  destruct i as [|i]; [reflexivity|]. cbn. apply IH. lia.
Qed.

Lemma loop_sum_similar_pixels (k dx dy : Z) (zs : list (Z * Z)) :
  loop_sum (int_points (similar_pixels k dx dy zs))
  == loop_sum (similar (inject_Z k) (inject_Z dx) (inject_Z dy)
                       (int_points zs)).
Proof.
  rewrite !loop_sum_Qsum.
  assert (L1 : length (int_points (similar_pixels k dx dy zs)) = length zs)
    by (rewrite length_int_points; apply length_map).
  assert (L2 : length (similar (inject_Z k) (inject_Z dx) (inject_Z dy)
                               (int_points zs)) = length zs)
    by (unfold similar; now rewrite length_map, length_int_points).
  rewrite L1, L2. set (n := length zs).
  apply Qsum_map_ext. intros i Hi. apply in_seq in Hi.
  assert (Hp : (prev n i < n)%nat)
    by (unfold prev; destruct (i =? 0)%nat; lia).
  unfold term_at.
  rewrite !nth_int_points, !nth_similar_pixels by (fold n; lia).
  rewrite !nth_similar by (rewrite length_int_points; fold n; lia).
  rewrite !nth_int_points. cbn [fst snd].
  rewrite !inject_Z_plus, !inject_Z_mult. reflexivity.
Qed.

(** X5: on a polygon with whole-number pixel coordinates the computed
    area does not depend on where the polygon lies and grows with the
    square of its size: when the polygon and its image under
    [(x, y) -> (k * x + dx, k * y + dy)] have coordinates of magnitude at
    most [B], with [4 * B * B * n < 2 ^ 53] for the [n] vertices, the area
    of the image is [k * k] times the area of the polygon, and equal to it
    when [k = 1]. *)
Theorem calculatePolygonArea_similar_on_pixels (B k dx dy : Z)
  (zs : list (Z * Z)) :
  within B zs -> within B (similar_pixels k dx dy zs) ->
  (4 * B * B * Z.of_nat (length zs) < 2 ^ 53)%Z ->
  exists area area',
    Editor64.calculatePolygonArea (flat_points (int_points zs))
    = JS.Fin area
    /\ Editor64.calculatePolygonArea
         (flat_points (int_points (similar_pixels k dx dy zs)))
       = JS.Fin area'
    /\ area' == inject_Z (k * k) * area
    /\ (k = 1%Z -> area' == area).
Proof.
  intros Hw Hw' Hn.
  destruct (calculatePolygonArea_int B zs Hw Hn) as (A & EA & HA & _).
  destruct (calculatePolygonArea_int B (similar_pixels k dx dy zs) Hw')
    as (A' & EA' & HA' & _).
  { unfold similar_pixels. now rewrite length_map. }
  assert (E : A' == inject_Z (k * k) * A).
  { rewrite HA', HA, <- (shoelace_spec_loop_sum (int_points _)).
    rewrite loop_sum_similar_pixels, shoelace_spec_loop_sum.
    rewrite shoelace_spec_similar, inject_Z_mult. reflexivity. }
  exists A, A'. split; [exact EA|]. split; [exact EA'|].
  split; [exact E|]. intros ->. rewrite E. change (inject_Z (1 * 1)) with 1.
  ring.
Qed.

Lemma calculatePolygonArea_similar_on_pixels_witness :
  exists area area',
    Editor64.calculatePolygonArea
      (flat_points (int_points [(0, 0); (4, 0); (4, 3); (0, 3)]%Z))
    = JS.Fin area
    /\ Editor64.calculatePolygonArea
         (flat_points
            (int_points
               (similar_pixels 5 100 (-20)
                               [(0, 0); (4, 0); (4, 3); (0, 3)]%Z)))
       = JS.Fin area'
    /\ area' == inject_Z (5 * 5) * area.
Proof.
  destruct (calculatePolygonArea_similar_on_pixels
              200 5 100 (-20) [(0, 0); (4, 0); (4, 3); (0, 3)]%Z)
    as (area & area' & E & E' & H & _).
  - unfold within.
    repeat (apply Forall_cons; [split; cbn; lia|]). apply Forall_nil.
  - unfold within, similar_pixels. cbn [map fst snd].
    repeat (apply Forall_cons; [split; cbn; lia|]). apply Forall_nil.
  - cbn. lia.
  - exists area, area'. split; [exact E|]. split; [exact E'|exact H].
Defined.
